(** * Provider / model aggregation pipeline of the API management centre

    A shallow embedding of the pure helpers and of the refresh orchestrator
    of the endpoint-provider pages (normalisation utilities, model list
    builder, provider entry builder, per-provider refresh with start-order
    tokens, thinking-level suffix parsing), of the page logic around them
    (client URLs, key selection, configured entries, page data, search and
    sections), of the state logic of the agent settings page, of the
    permission check of the settings file and of the settings client,
    followed by the properties that the specification states about them
    and by further properties of the code.

    Part I follows the source, function by function.  Part II introduces
    the notions in which the properties are stated (first occurrences,
    what a wildcard pattern matches, the files that take part in the
    grouping, ...) and the sample data of the examples.  Part III proves
    the properties; each claim of the specification (C1, C2, ...) has one
    theorem, named in its comment, and so has each further property of
    the code (X1, X2, ...).

    Conventions of the embedding.
    - A JavaScript string is the list of its code units.  The text helpers
      are modelled on code units below U+0100 (type [ascii], read as
      Latin-1), where [trim], [toLowerCase] and the regular-expression
      canonicalisation are given in full by the tables below.  Key masking,
      which emits U+2022, works on 16-bit code units (type [N]).
    - A loosely typed payload value ([unknown] in the source) is a [JsVal].
      Numbers are the integer-valued ones, of magnitude below 10^21, whose
      [String()] is their plain decimal numeral.
    - [Set] and [Map] keep insertion order: a [Set] used only for membership
      is a [gset]; a [Set] or [Map] that is enumerated is a list without
      repeated keys.
    - A plain object used as a dictionary is the [gmap] of its own
      properties.  The alias lookup is read under names that the data
      supplies, so that the members it inherits from [Object.prototype]
      are part of its model ([PlainObject]).  The other dictionaries are
      read under provider ids, which begin with [auth:] or [configured:],
      under provider keys, where an inherited member counts for nothing
      because it is no array, or under fixed property names.
    - An [await] splits a function into the part before and the part after
      the suspension; the awaited outcome is an argument of the second part.
      The calls to the backend are parameters: the answer they settle with.
    - The callback of a [forEach] or [map] is a definition of its own,
      named after the function it belongs to.
*)

From stdpp Require Import gmap strings list sorting.
From Stdlib Require Import Ascii ZArith Lia DecimalString.
From Stdlib Require DecimalPos DecimalZ.

Set Default Proof Using "Type".

(* ################################################################# *)
(** * Part I: the embedding *)

(** ** JavaScript strings *)

Definition jsstring := list ascii.

Definition jsstring_parse (l : list Byte.byte) : string :=
  String.string_of_list_byte l.
Definition jsstring_print (s : string) : list Byte.byte :=
  String.list_byte_of_string s.

Declare Scope js_scope.
Delimit Scope js_scope with js.
#[warnings="-via-type-remapping,-via-type-mismatch"]
String Notation jsstring jsstring_parse jsstring_print
  (via string mapping [[nil] => EmptyString, [cons] => String]) : js_scope.
Open Scope js_scope.

Module JsString.

Definition code (c : ascii) : N := N_of_ascii c.

(** [LineTerminator]: LF and CR (U+2028 and U+2029 lie outside Latin-1). *)
Definition isLineTerminator (c : ascii) : bool :=
  match code c with
  | 10 | 13 => true
  | _ => false
  end%N.

(** What [String.prototype.trim] strips: [WhiteSpace] (TAB, VT, FF, SP,
    NBSP) and [LineTerminator]. *)
Definition isWhiteSpace (c : ascii) : bool :=
  match code c with
  | 9 | 10 | 11 | 12 | 13 | 32 | 160 => true
  | _ => false
  end%N.

Fixpoint trimStart (s : jsstring) : jsstring :=
  match s with
  | [] => []
  | c :: r => if isWhiteSpace c then trimStart r else s
  end.

Definition trimEnd (s : jsstring) : jsstring := rev (trimStart (rev s)).

Definition trim (s : jsstring) : jsstring := trimEnd (trimStart s).

(** Simple lower-case mapping of one code unit: A-Z and the upper-case
    letters of Latin-1 (U+00C0..U+00DE without the multiplication sign). *)
Definition lowerChar (c : ascii) : ascii :=
  let n := code c in
  if ((65 <=? n) && (n <=? 90)
      || (192 <=? n) && (n <=? 222) && negb (n =? 215))%N
  then ascii_of_N (n + 32)
  else c.

Definition toLowerCase (s : jsstring) : jsstring := map lowerChar s.

(** [s.includes(c)] for a one-character needle. *)
Definition includes (s : jsstring) (c : ascii) : bool :=
  existsb (Ascii.eqb c) s.

(** [s.split(sep)] for a one-character separator: never the empty list. *)
Fixpoint split (sep : ascii) (s : jsstring) : list jsstring :=
  match s with
  | [] => [[]]
  | c :: r =>
      if Ascii.eqb c sep then [] :: split sep r
      else match split sep r with
           | h :: t => (c :: h) :: t
           | [] => [[c]]
           end
  end.

(** [parts.join(sep)]. *)
Fixpoint join (sep : jsstring) (parts : list jsstring) : jsstring :=
  match parts with
  | [] => []
  | [x] => x
  | x :: r => x ++ sep ++ join sep r
  end.

Definition isEmpty (s : jsstring) : bool :=
  match s with [] => true | _ => false end.

(** Decimal numeral of an integer, as [String(n)] prints it. *)
Definition ofZ (z : Z) : jsstring :=
  String.list_ascii_of_string (NilZero.string_of_int (Z.to_int z)).

End JsString.

(** ** Loosely typed values *)

#[warnings="-register-all"] Inductive JsVal :=
| JUndefined
| JNull
| JBool (b : bool)
| JNum (z : Z)
| JStr (s : jsstring)
| JArr (items : list JsVal)
| JObj (props : list (jsstring * JsVal)).

Module Js.

(** [a ?? b] *)
Definition nullish (v : JsVal) : bool :=
  match v with JUndefined | JNull => true | _ => false end.

Definition coalesce (a b : JsVal) : JsVal := if nullish a then b else a.

(** [ToBoolean] *)
Definition truthy (v : JsVal) : bool :=
  match v with
  | JUndefined | JNull => false
  | JBool b => b
  | JNum z => negb (z =? 0)%Z
  | JStr s => negb (JsString.isEmpty s)
  | JArr _ | JObj _ => true
  end.

(** [a || b] *)
Definition or (a b : JsVal) : JsVal := if truthy a then a else b.

(** [String(v)].  An array prints its elements separated by commas, with
    [null] and [undefined] elements printed as nothing; a plain object
    prints as [[object Object]]. *)
Fixpoint toString (v : JsVal) : jsstring :=
  match v with
  | JUndefined => "undefined"
  | JNull => "null"
  | JBool true => "true"
  | JBool false => "false"
  | JNum z => JsString.ofZ z
  | JStr s => s
  | JArr items =>
      JsString.join ","
        (map (fun x => if nullish x then [] else toString x) items)
  | JObj _ => "[object Object]"
  end.

(** [record[k]] on a plain object given by its own properties. *)
Fixpoint getProp (props : list (jsstring * JsVal)) (k : jsstring) : JsVal :=
  match props with
  | [] => JUndefined
  | (k', v) :: r => if decide (k' = k) then v else getProp r k
  end.

Definition ofOpt (o : option jsstring) : JsVal :=
  match o with Some s => JStr s | None => JUndefined end.

End Js.

(** ** Regular expressions

    The two expressions of the source are sequences of quantified
    one-character matchers; a capture group encloses one such term.  The
    matcher below is the backtracking matcher of the language definition
    restricted to that shape, anchored at both ends ([^ ... $] without the
    multiline flag). *)

Module RegExp.

Inductive charset :=
| Dot                       (* [.] without the dotAll flag *)
| Lit (c : ascii)           (* a pattern character or an identity escape *)
| NoneOf (cs : list ascii). (* [[^...]] *)

Inductive quant := One | Star | Plus.

Definition term : Type := charset * quant.

(** [Canonicalize]: with the ignore-case flag a code unit is compared
    through its upper-case form when that is a single code unit (so the
    sharp s stays; y-diaeresis and micro leave Latin-1). *)
Definition canonicalize (ignoreCase : bool) (c : ascii) : N :=
  let n := JsString.code c in
  if ignoreCase then
    if ((97 <=? n) && (n <=? 122)
        || (224 <=? n) && (n <=? 254) && negb (n =? 247))%N
    then (n - 32)%N
    else if (n =? 255)%N then 376%N
    else if (n =? 181)%N then 924%N
    else n
  else n.

Definition accepts (ignoreCase : bool) (cs : charset) (c : ascii) : bool :=
  match cs with
  | Dot => negb (JsString.isLineTerminator c)
  | Lit a => (canonicalize ignoreCase a =? canonicalize ignoreCase c)%N
  | NoneOf l =>
      negb (existsb
              (fun a => (canonicalize ignoreCase a =? canonicalize ignoreCase c)%N)
              l)
  end.

(** Greedy repetition: take one more character if the rest can still
    match, otherwise hand over to the continuation. The result lists the
    text consumed by each term. *)
Fixpoint exec (ignoreCase : bool) (ts : list term) : jsstring -> option (list jsstring) :=
  match ts with
  | [] => fun s => match s with [] => Some [] | _ => None end
  | (cs, q) :: rest =>
      let continue_ := exec ignoreCase rest in
      let star :=
        fix star (s : jsstring) : option (list jsstring) :=
          let stop := cons [] <$> continue_ s in
          match s with
          | c :: s' =>
              if accepts ignoreCase cs c then
                match star s' with
                | Some (g :: caps) => Some ((c :: g) :: caps)
                | _ => stop
                end
              else stop
          | [] => stop
          end in
      fun s =>
        match q with
        | One =>
            match s with
            | c :: s' =>
                if accepts ignoreCase cs c
                then cons [c] <$> continue_ s' else None
            | [] => None
            end
        | Star => star s
        | Plus =>
            match s with
            | c :: s' =>
                if accepts ignoreCase cs c then
                  match star s' with
                  | Some (g :: caps) => Some ((c :: g) :: caps)
                  | _ => None
                  end
                else None
            | [] => None
            end
        end
  end.

(** The characters that [matchExcludePattern] escapes; they are the
    syntax characters of the pattern grammar. *)
Definition isSyntaxChar (c : ascii) : bool :=
  bool_decide (c ∈ [".";"*";"+";"?";"^";"$";"{";"}";"(";")";"|";"[";"]";"\"]%char).

(** Pattern text to terms, for patterns made of pattern characters,
    identity escapes of syntax characters, [.] and the [*] quantifier.
    Any other construct is outside this fragment ([None]). *)
Fixpoint parseTerms (p : jsstring) : option (list term) :=
  match p with
  | [] => Some []
  | c :: r =>
      if Ascii.eqb c "\" then
        match r with
        | e :: r' =>
            if isSyntaxChar e then
              match r' with
              | q :: r'' =>
                  if Ascii.eqb q "*"
                  then cons (Lit e, Star) <$> parseTerms r''
                  else cons (Lit e, One) <$> parseTerms r'
              | [] => Some [(Lit e, One)]
              end
            else None
        | [] => None
        end
      else if isSyntaxChar c && negb (Ascii.eqb c ".") then None
      else
        let cs := if Ascii.eqb c "." then Dot else Lit c in
        match r with
        | q :: r' =>
            if Ascii.eqb q "*"
            then cons (cs, Star) <$> parseTerms r'
            else cons (cs, One) <$> parseTerms r
        | [] => Some [(cs, One)]
        end
  end.

(** [new RegExp(source, flags)] for sources of the form [^...$]. *)
Definition compile (source : jsstring) : option (list term) :=
  match source with
  | c :: r =>
      if Ascii.eqb c "^" then
        match rev r with
        | d :: body => if Ascii.eqb d "$" then parseTerms (rev body) else None
        | [] => None
        end
      else None
  | [] => None
  end.

(** [regex.test(s)]; a source outside the fragment tests as [false]. *)
Definition test (source : jsstring) (ignoreCase : bool) (s : jsstring) : bool :=
  match compile source with
  | Some ts => bool_decide (is_Some (exec ignoreCase ts s))
  | None => false
  end.

End RegExp.

(** ** Insertion-ordered containers *)

Module JsSet.

(** [set.add(x)] on a [Set] that is later enumerated. *)
Definition add {A} `{EqDecision A} (x : A) (s : list A) : list A :=
  if decide (x ∈ s) then s else s ++ [x].

End JsSet.

Module JsMap.

(** [map.get(k)] *)
Fixpoint get {V} (m : list (jsstring * V)) (k : jsstring) : option V :=
  match m with
  | [] => None
  | (k', v) :: r => if decide (k' = k) then Some v else get r k
  end.

(** Replace the value stored under a key that is present. *)
Fixpoint update {V} (m : list (jsstring * V)) (k : jsstring) (f : V -> V)
  : list (jsstring * V) :=
  match m with
  | [] => []
  | (k', v) :: r =>
      if decide (k' = k) then (k', f v) :: r else (k', v) :: update r k f
  end.

(** [array.sort((a, b) => key(a) - key(b))]: the sort is stable. *)
Fixpoint insertBy {A} (key : A -> N) (x : A) (l : list A) : list A :=
  match l with
  | [] => [x]
  | y :: r => if (key x <=? key y)%N then x :: l else y :: insertBy key x r
  end.

Definition sortBy {A} (key : A -> N) (l : list A) : list A :=
  foldr (insertBy key) [] l.

End JsMap.

(** ** Normalisation utilities *)

(** [String(value ?? '').trim()] *)
Definition normalizeText (value : JsVal) : jsstring :=
  JsString.trim (Js.toString (Js.coalesce value (JStr ""))).

Definition normalizeProviderKey (value : JsVal) : jsstring :=
  JsString.toLowerCase (normalizeText value).

(** [s.slice(start, end)] on code units, with negative positions counted
    from the end and both positions clamped to the string. *)
Definition slice {A} (s : list A) (start : Z) (stop : option Z) : list A :=
  let len := Z.of_nat (length s) in
  let clamp i := if (i <? 0)%Z then Z.max (len + i) 0 else Z.min i len in
  let from := clamp start in
  let to := match stop with Some e => clamp e | None => len end in
  take (Z.to_nat (to - from)) (drop (Z.to_nat from) s).

(** U+2022 *)
Definition bullet : N := 8226.

Definition maskKey (key : list N) : list N :=
  if (Z.of_nat (length key) <=? 8)%Z then replicate 8 bullet
  else
    slice key 0 (Some 5%Z)
    ++ replicate (Z.to_nat (Z.min (Z.of_nat (length key) - 8) 16)) bullet
    ++ slice key (-4) None.

Definition isTruthyFlag (value : JsVal) : bool :=
  match value with
  | JBool true => true
  | JNum z => negb (z =? 0)%Z
  | JStr s =>
      let normalized := JsString.toLowerCase (JsString.trim s) in
      bool_decide (normalized ∈ ["true"; "1"; "yes"; "y"; "on"])
  | _ => false
  end.

Module ModelInfo.
Record t := mk {
  name : jsstring;
  alias : option jsstring;
  description : option jsstring
}.
End ModelInfo.
Abbreviation ModelInfo := ModelInfo.t.

#[global] Instance ModelInfo_eq_dec : EqDecision ModelInfo.
Proof. solve_decision. Defined.

Definition dedupeModels_each (acc : gset jsstring * list ModelInfo)
  (model : ModelInfo) : gset jsstring * list ModelInfo :=
  let '(seen, result) := acc in
  let name := normalizeText (JStr (ModelInfo.name model)) in
  if JsString.isEmpty name then acc else
  let key := JsString.toLowerCase name in
  if decide (key ∈ seen) then acc else
  let alias := normalizeText (Js.ofOpt (ModelInfo.alias model)) in
  let description := normalizeText (Js.ofOpt (ModelInfo.description model)) in
  let next :=
    {| ModelInfo.name := name;
       ModelInfo.alias :=
         if negb (JsString.isEmpty alias)
            && negb (bool_decide (JsString.toLowerCase alias = key))
         then Some alias else None;
       ModelInfo.description :=
         if negb (JsString.isEmpty description) then Some description else None |} in
  ({[ key ]} ∪ seen, result ++ [next]).

Definition dedupeModels (models : list ModelInfo) : list ModelInfo :=
  (foldl dedupeModels_each (∅, []) models).2.

Definition normalizeExcludedPatterns_each (acc : gset jsstring * list jsstring)
  (pattern : jsstring) : gset jsstring * list jsstring :=
  let '(seen, normalized) := acc in
  let trimmed := normalizeText (JStr pattern) in
  if JsString.isEmpty trimmed then acc else
  let key := JsString.toLowerCase trimmed in
  if decide (key ∈ seen) then acc else
  ({[ key ]} ∪ seen, normalized ++ [trimmed]).

Definition normalizeExcludedPatterns (patterns : option (list jsstring))
  : list jsstring :=
  match patterns with
  | None | Some [] => []
  | Some ps => (foldl normalizeExcludedPatterns_each (∅, []) ps).2
  end.

(** [segment.replace(/[.*+?^${}()|[\]\\]/g, '\\$&')] *)
Definition escapeRegExp (segment : jsstring) : jsstring :=
  flat_map (fun c => if RegExp.isSyntaxChar c then ["\"; c]%char else [c]) segment.

Definition matchExcludePattern (model pattern : jsstring) : bool :=
  if negb (JsString.includes pattern "*") then
    bool_decide (JsString.toLowerCase model = JsString.toLowerCase pattern)
  else
    let regexSafePattern :=
      JsString.join ".*" (map escapeRegExp (JsString.split "*" pattern)) in
    RegExp.test ("^" ++ regexSafePattern ++ "$") true model.

Definition filterExcludedModels (models : list ModelInfo)
  (patterns : option (list jsstring)) : list ModelInfo :=
  let normalizedPatterns := normalizeExcludedPatterns patterns in
  match normalizedPatterns with
  | [] => models
  | _ =>
      List.filter (fun model =>
        let candidates :=
          List.filter (fun s => negb (JsString.isEmpty s))
            [normalizeText (JStr (ModelInfo.name model));
             normalizeText (Js.ofOpt (ModelInfo.alias model))] in
        match candidates with
        | [] => true
        | _ =>
            negb (existsb (fun candidate =>
                    existsb (fun pattern => matchExcludePattern candidate pattern)
                      normalizedPatterns) candidates)
        end) models
  end.

(** The value read from one element of the key list. *)
Definition apiKeyValue (item : JsVal) : JsVal :=
  match item with
  | JStr _ => item
  | JObj record =>
      Js.coalesce (Js.getProp record "api-key")
        (Js.coalesce (Js.getProp record "apiKey")
           (Js.coalesce (Js.getProp record "key") (Js.getProp record "Key")))
  | _ => JStr ""
  end.

(** [normalizeApiKeyList] of the endpoint-provider pipeline. *)
Definition normalizeApiKeyList_each (acc : gset jsstring * list jsstring)
  (item : JsVal) : gset jsstring * list jsstring :=
  let '(seen, keys) := acc in
  let apiKey := normalizeText (apiKeyValue item) in
  if JsString.isEmpty apiKey then acc else
  let key := JsString.toLowerCase apiKey in
  if decide (key ∈ seen) then acc else
  ({[ key ]} ∪ seen, keys ++ [apiKey]).

Definition normalizeApiKeyList (input : JsVal) : list jsstring :=
  match input with
  | JArr items => (foldl normalizeApiKeyList_each (∅, []) items).2
  | _ => []
  end.

(** [normalizeApiKeyList] of the earlier endpoints page, which compares the
    trimmed keys themselves. *)
Module EndpointsPage.

Definition normalizeApiKeyList_each (acc : gset jsstring * list jsstring)
  (item : JsVal) : gset jsstring * list jsstring :=
  let '(seen, keys) := acc in
  let trimmed :=
    JsString.trim (Js.toString (Js.coalesce (apiKeyValue item) (JStr ""))) in
  if JsString.isEmpty trimmed || bool_decide (trimmed ∈ seen) then acc else
  ({[ trimmed ]} ∪ seen, keys ++ [trimmed]).

Definition normalizeApiKeyList (input : JsVal) : list jsstring :=
  match input with
  | JArr items => (foldl normalizeApiKeyList_each (∅, []) items).2
  | _ => []
  end.

End EndpointsPage.

Module ProviderKeyOption.
Record t := mk { apiKey : jsstring }.
End ProviderKeyOption.
Abbreviation ProviderKeyOption := ProviderKeyOption.t.

Definition buildKeyOptions (keys : list jsstring) : list ProviderKeyOption :=
  map ProviderKeyOption.mk (normalizeApiKeyList (JArr (map JStr keys))).

(** ** Model list builder *)

Module ConfiguredModel.
Record t := mk { name : jsstring; alias : option jsstring }.
End ConfiguredModel.
Abbreviation ConfiguredModel := ConfiguredModel.t.

(** The callback of [models.map(...)]; [None] is the [null] that
    [.filter(Boolean)] removes. *)
Definition convertConfiguredModel (model : ConfiguredModel) : option ModelInfo :=
  let rawName := normalizeText (JStr (ConfiguredModel.name model)) in
  if JsString.isEmpty rawName then None else
  let alias := normalizeText (Js.ofOpt (ConfiguredModel.alias model)) in
  if negb (JsString.isEmpty alias)
     && negb (bool_decide (JsString.toLowerCase alias = JsString.toLowerCase rawName))
  then Some {| ModelInfo.name := alias; ModelInfo.alias := Some rawName;
               ModelInfo.description := None |}
  else Some {| ModelInfo.name := rawName; ModelInfo.alias := None;
               ModelInfo.description := None |}.

Definition convertConfiguredModels (models : option (list ConfiguredModel))
  : list ModelInfo :=
  match models with
  | None => []
  | Some ms => dedupeModels (omap convertConfiguredModel ms)
  end.

Module AuthApiModel.
Record t := mk { id : jsstring; display_name : option jsstring }.
End AuthApiModel.
Abbreviation AuthApiModel := AuthApiModel.t.

Definition normalizeAuthApiModel (model : AuthApiModel) : option ModelInfo :=
  let id := normalizeText (JStr (AuthApiModel.id model)) in
  if JsString.isEmpty id then None else
  let alias := normalizeText (Js.ofOpt (AuthApiModel.display_name model)) in
  if negb (JsString.isEmpty alias)
     && negb (bool_decide (JsString.toLowerCase alias = JsString.toLowerCase id))
  then Some {| ModelInfo.name := id; ModelInfo.alias := Some alias;
               ModelInfo.description := None |}
  else Some {| ModelInfo.name := id; ModelInfo.alias := None;
               ModelInfo.description := None |}.

Definition normalizeAuthApiModels (models : list AuthApiModel) : list ModelInfo :=
  dedupeModels (omap normalizeAuthApiModel models).

Module OAuthModelAliasEntry.
Record t := mk { name : jsstring; alias : jsstring }.
End OAuthModelAliasEntry.
Abbreviation OAuthModelAliasEntry := OAuthModelAliasEntry.t.

(** A [Record<string, string>] that starts as an object literal: its own
    properties hold texts, and any other name is read from
    [Object.prototype]. *)
Module PlainObject.

Abbreviation t := (gmap jsstring jsstring).

(** What reading a property gives. *)
Inductive value :=
| Text (s : jsstring)        (* an own property *)
| Prototype                  (* [Object.prototype] itself, under [__proto__] *)
| Builtin (name : jsstring)  (* a function of [Object.prototype] *)
| Undefined.

(** The functions of [Object.prototype] that go by their property name. *)
Definition methods : list jsstring :=
  [ "__defineGetter__"; "__defineSetter__"; "hasOwnProperty"; "__lookupGetter__";
    "__lookupSetter__"; "isPrototypeOf"; "propertyIsEnumerable"; "toString";
    "valueOf"; "toLocaleString" ].

Definition inherited (key : jsstring) : value :=
  if decide (key = "__proto__") then Prototype
  else if decide (key = "constructor") then Builtin "Object"
  else if decide (key ∈ methods) then Builtin key
  else Undefined.

(** [o[key]] *)
Definition get (o : t) (key : jsstring) : value :=
  match o !! key with
  | Some s => Text s
  | None => inherited key
  end.

(** [o[key] = text].  Under [__proto__] an object without such a property
    of its own runs the setter of [Object.prototype], which ignores a
    text. *)
Definition set (o : t) (key text : jsstring) : t :=
  if decide (key = "__proto__") then
    match o !! key with
    | Some _ => <[ key := text ]> o
    | None => o
    end
  else <[ key := text ]> o.

(** [Object.keys(o).length] *)
Definition keyCount (o : t) : nat := size o.

(** [String(v)]; a function of the language prints as V8 and
    JavaScriptCore print it. *)
Definition toString (v : value) : jsstring :=
  match v with
  | Text s => s
  | Prototype => "[object Object]"
  | Builtin name => "function " ++ name ++ "() { [native code] }"
  | Undefined => "undefined"
  end.

(** [normalizeText(v)], that is [String(v ?? '').trim()]. *)
Definition normalizeText (v : value) : jsstring :=
  JsString.trim (match v with Undefined => "" | _ => toString v end).

End PlainObject.

Definition buildAliasLookup (entries : option (list OAuthModelAliasEntry))
  : PlainObject.t :=
  match entries with
  | None => ∅
  | Some es =>
      foldl (fun aliasLookup entry =>
               let name :=
                 JsString.toLowerCase
                   (normalizeText (JStr (OAuthModelAliasEntry.name entry))) in
               let alias := normalizeText (JStr (OAuthModelAliasEntry.alias entry)) in
               if JsString.isEmpty name || JsString.isEmpty alias then aliasLookup
               else PlainObject.set aliasLookup name alias)
            ∅ es
  end.

Definition applyAliasLookup (models : list ModelInfo)
  (lookup : option PlainObject.t) : list ModelInfo :=
  match lookup with
  | None => dedupeModels models
  | Some lk =>
      if (PlainObject.keyCount lk =? 0)%nat then dedupeModels models else
      let mapped :=
        map (fun model =>
               let rawName := normalizeText (JStr (ModelInfo.name model)) in
               if JsString.isEmpty rawName then model else
               let mappedAlias :=
                 PlainObject.normalizeText
                   (PlainObject.get lk (JsString.toLowerCase rawName)) in
               if JsString.isEmpty mappedAlias then model else
               if bool_decide (JsString.toLowerCase mappedAlias
                               = JsString.toLowerCase rawName) then model else
               {| ModelInfo.name := mappedAlias;
                  ModelInfo.alias := Some rawName;
                  ModelInfo.description := ModelInfo.description model |})
            models in
      dedupeModels mapped
  end.

(** ** Provider entry builder *)

Inductive EndpointSourceKind := AuthProxy | ConfiguredApi.

Module Entry.
Record t := mk {
  id : jsstring;
  sourceKind : EndpointSourceKind;
  providerKey : jsstring;
  name : jsstring;
  baseUrl : jsstring;
  keyOptions : list ProviderKeyOption;
  order : N;
  configuredModels : option (list ModelInfo);
  authFileNames : option (list jsstring);
  aliasLookup : option PlainObject.t;
  excludedPatterns : option (list jsstring);
  realBaseUrl : option jsstring;
  realKeyOptions : option (list ProviderKeyOption)
}.
End Entry.
Abbreviation EndpointProviderEntry := Entry.t.

(** A credential-file record of the backend listing; its fields are read
    through [normalizeText] and [isTruthyFlag], whatever their type. *)
Module AuthFileItem.
Record t := mk {
  name : JsVal;
  provider : JsVal;
  type : JsVal;
  disabled : JsVal;
  unavailable : JsVal
}.
End AuthFileItem.
Abbreviation AuthFileItem := AuthFileItem.t.

Module Group.
Record t := mk { label : jsstring; order : N; files : list jsstring }.
End Group.

Definition groupAuthFile (acc : list (jsstring * Group.t) * N)
  (file : AuthFileItem) : list (jsstring * Group.t) * N :=
  let '(grouped, order) := acc in
  if isTruthyFlag (AuthFileItem.disabled file)
     || isTruthyFlag (AuthFileItem.unavailable file) then acc else
  let rawProvider :=
    normalizeText (Js.or (AuthFileItem.provider file) (AuthFileItem.type file)) in
  let providerKey := normalizeProviderKey (JStr rawProvider) in
  if JsString.isEmpty providerKey then acc else
  let fileName := normalizeText (AuthFileItem.name file) in
  if JsString.isEmpty fileName then acc else
  match JsMap.get grouped providerKey with
  | Some _ =>
      (JsMap.update grouped providerKey
         (fun existing =>
            {| Group.label := Group.label existing;
               Group.order := Group.order existing;
               Group.files := JsSet.add fileName (Group.files existing) |}),
       order)
  | None =>
      (grouped ++ [(providerKey,
                    {| Group.label := rawProvider; Group.order := order;
                       Group.files := [fileName] |})],
       (order + 1)%N)
  end.

Definition buildAuthProviderEntries (authFiles : list AuthFileItem)
  (aliasMap : gmap jsstring (list OAuthModelAliasEntry))
  (excludedMap : gmap jsstring (list jsstring))
  (baseUrl : jsstring) (keyOptions : list ProviderKeyOption)
  : list EndpointProviderEntry :=
  let grouped := (foldl groupAuthFile ([], 0%N) authFiles).1 in
  map (fun '(providerKey, data) =>
         {| Entry.id := "auth:" ++ providerKey;
            Entry.sourceKind := AuthProxy;
            Entry.providerKey := providerKey;
            Entry.name := Group.label data;
            Entry.baseUrl := baseUrl;
            Entry.keyOptions := keyOptions;
            Entry.order := Group.order data;
            Entry.configuredModels := None;
            Entry.authFileNames := Some (Group.files data);
            Entry.aliasLookup := Some (buildAliasLookup (aliasMap !! providerKey));
            Entry.excludedPatterns :=
              Some (normalizeExcludedPatterns (excludedMap !! providerKey));
            Entry.realBaseUrl := None;
            Entry.realKeyOptions := None |})
      (JsMap.sortBy (fun kv => Group.order kv.2) grouped).

(** ** Refresh orchestrator *)

(** A thrown value: an [Error] instance, or any other value. *)
Inductive Thrown :=
| ErrorObject (message : jsstring)
| Raw (v : JsVal).

Definition thrownTruthy (e : Thrown) : bool :=
  match e with
  | ErrorObject _ => true
  | Raw v => Js.truthy v
  end.

(** How a promise settles. *)
Inductive Settled (A : Type) :=
| Fulfilled (value : A)
| Rejected (reason : Thrown).
Arguments Fulfilled {A} value.
Arguments Rejected {A} reason.

Definition isFulfilled {A} (r : Settled A) : bool :=
  match r with Fulfilled _ => true | Rejected _ => false end.

Section FetchAuthProxyModels.

(** The two backend calls, as the answers they settle with. *)
Variable getModelDefinitions : jsstring -> Settled (list AuthApiModel).
Variable getModelsForAuthFile : jsstring -> Settled (list AuthApiModel).

Definition collectSettled (acc : list ModelInfo * bool)
  (result : Settled (list AuthApiModel)) : list ModelInfo * bool :=
  let '(collected, hasFulfilled) := acc in
  match result with
  | Rejected _ => acc
  | Fulfilled value => (collected ++ normalizeAuthApiModels value, true)
  end.

Definition fetchAuthProxyModels (entry : EndpointProviderEntry)
  : Settled (list ModelInfo) :=
  let providerKey := normalizeProviderKey (JStr (Entry.providerKey entry)) in
  if JsString.isEmpty providerKey then Fulfilled [] else
  let '(models, definitionError) :=
    match getModelDefinitions providerKey with
    | Fulfilled definitionModels => (normalizeAuthApiModels definitionModels, None)
    | Rejected error => ([], Some error)
    end in
  let finish models :=
    Fulfilled (filterExcludedModels
                 (applyAliasLookup models (Entry.aliasLookup entry))
                 (Entry.excludedPatterns entry)) in
  let authFileNames := default [] (Entry.authFileNames entry) in
  if (length models =? 0)%nat && negb (length authFileNames =? 0)%nat then
    let settled := map getModelsForAuthFile authFileNames in
    let '(collected, hasFulfilled) := foldl collectSettled ([], false) settled in
    let models := dedupeModels collected in
    match definitionError with
    | Some error =>
        if negb hasFulfilled && thrownTruthy error then Rejected error
        else finish models
    | None => finish models
    end
  else finish models.

(** Model resolution of one entry. *)
Definition resolveModels (entry : EndpointProviderEntry) : Settled (list ModelInfo) :=
  match Entry.sourceKind entry with
  | ConfiguredApi => Fulfilled (dedupeModels (default [] (Entry.configuredModels entry)))
  | AuthProxy => fetchAuthProxyModels entry
  end.

End FetchAuthProxyModels.

Module Status.
Inductive t := idle | loading | success | error.
End Status.

Module ModelsState.
Record t := mk {
  status : Status.t;
  models : list ModelInfo;
  error : option jsstring
}.
End ModelsState.
Abbreviation ProviderModelsState := ModelsState.t.

Definition DEFAULT_MODELS_STATE : ProviderModelsState :=
  {| ModelsState.status := Status.idle; ModelsState.models := []; ModelsState.error := None |}.

(** The two pieces of mutable state of the page: the token reference and
    the per-provider state map.  A token is a JavaScript number counted up
    from 1, exact far beyond any number of refreshes. *)
Module Page.
Record t := mk {
  providerFetchTokenRef : gmap jsstring N;
  modelsByProvider : gmap jsstring ProviderModelsState
}.
End Page.

(** [prev[id]?.models ?? []] *)
Definition previousModels (prev : gmap jsstring ProviderModelsState)
  (id : jsstring) : list ModelInfo :=
  match prev !! id with
  | Some st => ModelsState.models st
  | None => []
  end.

Section Refresh.

(** The translation function of the page. *)
Variable t : jsstring -> jsstring.

Definition errorMessage (error : Thrown) : jsstring :=
  match error with
  | ErrorObject message => message
  | Raw (JStr s) => s
  | Raw _ => t "api_endpoints.models_load_failed"
  end.

(** [refreshSingleProviderModels] up to the resolution of the models: take
    the next token for the entry and publish the loading state. *)
Definition refreshSingle_start (entry : EndpointProviderEntry) (page : Page.t)
  : N * Page.t :=
  let id := Entry.id entry in
  let nextToken := (default 0 (Page.providerFetchTokenRef page !! id) + 1)%N in
  (nextToken,
   {| Page.providerFetchTokenRef := <[ id := nextToken ]> (Page.providerFetchTokenRef page);
      Page.modelsByProvider :=
        <[ id := {| ModelsState.status := Status.loading;
                    ModelsState.models := previousModels (Page.modelsByProvider page) id;
                    ModelsState.error := None |} ]> (Page.modelsByProvider page) |}).

(** [refreshSingleProviderModels] from the moment the models are resolved
    (or the resolution has thrown). *)
Definition refreshSingle_settle (entry : EndpointProviderEntry) (nextToken : N)
  (outcome : Settled (list ModelInfo)) (page : Page.t) : Page.t :=
  let id := Entry.id entry in
  if decide (Page.providerFetchTokenRef page !! id = Some nextToken) then
    match outcome with
    | Fulfilled models =>
        {| Page.providerFetchTokenRef := Page.providerFetchTokenRef page;
           Page.modelsByProvider :=
             <[ id := {| ModelsState.status := Status.success;
                         ModelsState.models := models;
                         ModelsState.error := None |} ]> (Page.modelsByProvider page) |}
    | Rejected error =>
        {| Page.providerFetchTokenRef := Page.providerFetchTokenRef page;
           Page.modelsByProvider :=
             <[ id := {| ModelsState.status := Status.error;
                         ModelsState.models := previousModels (Page.modelsByProvider page) id;
                         ModelsState.error := Some (errorMessage error) |} ]>
               (Page.modelsByProvider page) |}
    end
  else page.

(** One call of [refreshSingleProviderModels] up to its first suspension: a
    configured entry is resolved on the spot, a credential-file entry is
    left waiting for the backend with its token. *)
Definition refreshSingle_call (entry : EndpointProviderEntry) (page : Page.t)
  : Page.t * option N :=
  let '(nextToken, page1) := refreshSingle_start entry page in
  match Entry.sourceKind entry with
  | ConfiguredApi =>
      (refreshSingle_settle entry nextToken
         (Fulfilled (dedupeModels (default [] (Entry.configuredModels entry)))) page1,
       None)
  | AuthProxy => (page1, Some nextToken)
  end.

(** [refreshAllProviderModels] before its batches: publish the loading
    state of every given entry. *)
Definition refreshAll_start (entries : list EndpointProviderEntry) (page : Page.t)
  : Page.t :=
  match entries with
  | [] =>
      {| Page.providerFetchTokenRef := Page.providerFetchTokenRef page;
         Page.modelsByProvider := ∅ |}
  | _ =>
      let prev := Page.modelsByProvider page in
      {| Page.providerFetchTokenRef := Page.providerFetchTokenRef page;
         Page.modelsByProvider :=
           foldl (fun next entry =>
                    <[ Entry.id entry :=
                         {| ModelsState.status := Status.loading;
                            ModelsState.models := previousModels prev (Entry.id entry);
                            ModelsState.error := None |} ]> next)
                 ∅ entries |}
  end.

End Refresh.

(** ** Thinking-level suffix *)

Inductive ThinkingLevel := low | medium | high | xhigh.

Definition THINKING_LEVELS : list ThinkingLevel := [low; medium; high; xhigh].

Definition levelText (level : ThinkingLevel) : jsstring :=
  match level with
  | low => "low"
  | medium => "medium"
  | high => "high"
  | xhigh => "xhigh"
  end.

(** [THINKING_LEVEL_SET.has(raw)], with the member found. *)
Definition thinkingLevelOf (raw : jsstring) : option ThinkingLevel :=
  find (fun level => bool_decide (levelText level = raw)) THINKING_LEVELS.

(** The expression of [parseModelWithThinking]: anchored at both ends, a
    first group of any characters, an opening parenthesis, a second group
    of one or more characters that are not parentheses, and a closing
    parenthesis. *)
Definition thinkingPattern : list RegExp.term :=
  [ (RegExp.Dot, RegExp.Star);
    (RegExp.Lit "(", RegExp.One);
    (RegExp.NoneOf ["("; ")"]%char, RegExp.Plus);
    (RegExp.Lit ")", RegExp.One) ].

Module Parsed.
Record t := mk { baseModel : jsstring; thinking : option ThinkingLevel }.
End Parsed.

Definition parseModelWithThinking (value : jsstring) : Parsed.t :=
  let normalized := normalizeText (JStr value) in
  if JsString.isEmpty normalized then
    {| Parsed.baseModel := ""; Parsed.thinking := None |}
  else
    match RegExp.exec false thinkingPattern normalized with
    | Some [group1; _; group2; _] =>
        let baseModel := normalizeText (JStr group1) in
        let rawLevel := JsString.toLowerCase (normalizeText (JStr group2)) in
        match thinkingLevelOf rawLevel with
        | Some level =>
            if negb (JsString.isEmpty baseModel)
            then {| Parsed.baseModel := baseModel; Parsed.thinking := Some level |}
            else {| Parsed.baseModel := normalized; Parsed.thinking := None |}
        | None => {| Parsed.baseModel := normalized; Parsed.thinking := None |}
        end
    | _ => {| Parsed.baseModel := normalized; Parsed.thinking := None |}
    end.

Definition formatModelWithThinking (baseModel : jsstring)
  (thinking : option ThinkingLevel) : jsstring :=
  let normalized := normalizeText (JStr baseModel) in
  if JsString.isEmpty normalized then ""
  else match thinking with
       | None => normalized
       | Some level => normalized ++ "(" ++ levelText level ++ ")"
       end.

(** ** Text search and array access *)

Module JsText.

(** [s.startsWith(needle)] *)
Fixpoint startsWith (s needle : jsstring) : bool :=
  match needle with
  | [] => true
  | c :: needle' =>
      match s with
      | [] => false
      | d :: s' => Ascii.eqb d c && startsWith s' needle'
      end
  end.

(** [s.includes(needle)] *)
Fixpoint includes (s needle : jsstring) : bool :=
  startsWith s needle
  || match s with
     | [] => false
     | _ :: s' => includes s' needle
     end.

End JsText.

Module JsArray.

(** [array[i]] for an integer [i]. *)
Definition get {A} (l : list A) (i : Z) : option A :=
  if (i <? 0)%Z then None else l !! Z.to_nat i.

(** [array.forEach((item, index) => ...)], with the variables that the
    callback assigns threaded through it. *)
Fixpoint forEachFrom {A St} (f : St -> A -> nat -> St) (index : nat) (l : list A)
  (s : St) : St :=
  match l with
  | [] => s
  | x :: r => forEachFrom f (S index) r (f s x index)
  end.

Definition forEach {A St} (f : St -> A -> nat -> St) (l : list A) (s : St) : St :=
  forEachFrom f 0 l s.

End JsArray.

(** ** Expressions that end in [$]

    An expression without [^] is tried at every position from the left;
    ending in [$], it matches from a position when its terms consume the
    whole rest of the text. *)

Module RegExpSearch.

(** The text before the first match, and the match. *)
Fixpoint execEnd (ignoreCase : bool) (ts : list RegExp.term) (s : jsstring)
  : option (jsstring * jsstring) :=
  match RegExp.exec ignoreCase ts s with
  | Some _ => Some ([], s)
  | None =>
      match s with
      | [] => None
      | c :: r =>
          match execEnd ignoreCase ts r with
          | Some (before, matched) => Some (c :: before, matched)
          | None => None
          end
      end
  end.

(** [regex.test(s)] *)
Definition test (ignoreCase : bool) (ts : list RegExp.term) (s : jsstring) : bool :=
  bool_decide (is_Some (execEnd ignoreCase ts s)).

(** [s.replace(regex, replacement)], for a replacement text without [$].
    A match reaches the end of the text, so that the global flag finds no
    second one unless the terms match the empty text. *)
Definition replace (ignoreCase : bool) (ts : list RegExp.term) (s replacement : jsstring)
  : jsstring :=
  match execEnd ignoreCase ts s with
  | Some (before, _) => before ++ replacement
  | None => s
  end.

(** The terms of a pattern that spells out a text. *)
Definition literal (text : jsstring) : list RegExp.term :=
  map (fun c => (RegExp.Lit c, RegExp.One)) text.

End RegExpSearch.

(** ** Client URLs *)

(** The expression of one or more slashes up to the end of the text. *)
Definition trailingSlashes : list RegExp.term := [(RegExp.Lit "/", RegExp.Plus)].

(** The three path suffixes that are tested without regard to case. *)
Definition v1ChatCompletionsSuffix : list RegExp.term :=
  RegExpSearch.literal "/v1/chat/completions".

Definition chatCompletionsSuffix : list RegExp.term :=
  RegExpSearch.literal "/chat/completions".

Definition v1Suffix : list RegExp.term := RegExpSearch.literal "/v1".

Section ClientUrls.

(** [normalizeApiBase] belongs to the connection utilities; the URL
    builders are modelled for any such function. *)
Variable normalizeApiBase : jsstring -> jsstring.

Definition buildClientBaseUrl (baseUrl : jsstring) : jsstring :=
  let normalized := normalizeApiBase baseUrl in
  if JsString.isEmpty normalized then "" else
  let trimmed := RegExpSearch.replace false trailingSlashes normalized "" in
  if RegExpSearch.test true v1ChatCompletionsSuffix trimmed then
    RegExpSearch.replace true chatCompletionsSuffix trimmed ""
  else if RegExpSearch.test true v1Suffix trimmed then trimmed
  else trimmed ++ "/v1".

Definition buildChatCompletionsUrl (baseUrl : jsstring) : jsstring :=
  let clientBaseUrl := buildClientBaseUrl baseUrl in
  if JsString.isEmpty clientBaseUrl then "" else
  clientBaseUrl ++ "/chat/completions".

End ClientUrls.

(** ** Key selection

    A key index is an integer: the position chosen in the list of keys, or
    the result of clamping one. *)

Definition clampKeyIndex (index keyCount : Z) : Z :=
  if (keyCount <=? 0)%Z then 0%Z
  else Z.min (Z.max index 0) (keyCount - 1).

Definition buildSelectionMap (entries : list EndpointProviderEntry)
  (previous : gmap jsstring Z) : gmap jsstring Z :=
  foldl (fun next entry =>
           let prevIndex := default 0%Z (previous !! Entry.id entry) in
           <[ Entry.id entry :=
                clampKeyIndex prevIndex (Z.of_nat (length (Entry.keyOptions entry))) ]> next)
        ∅ entries.

(** The update that [handleSelectKey] makes to the selection map. *)
Definition handleSelectKey (providerEntries : list EndpointProviderEntry)
  (providerId : jsstring) (keyIndex : Z) (prev : gmap jsstring Z) : gmap jsstring Z :=
  match find (fun item => bool_decide (Entry.id item = providerId)) providerEntries with
  | None => prev
  | Some entry =>
      let nextIndex :=
        clampKeyIndex keyIndex (Z.of_nat (length (Entry.keyOptions entry))) in
      <[ providerId := nextIndex ]> prev
  end.

(** The key that a provider card works with: [currentKey] of
    [ProviderCard], for the selection handed to the card. *)
Definition currentKey (provider : EndpointProviderEntry) (selectedKeyIdx : Z) : jsstring :=
  let safeSelectedKeyIdx :=
    clampKeyIndex selectedKeyIdx (Z.of_nat (length (Entry.keyOptions provider))) in
  match JsArray.get (Entry.keyOptions provider) safeSelectedKeyIdx with
  | Some selectedKey => ProviderKeyOption.apiKey selectedKey
  | None => ""
  end.

(** [selectedKeyIndexByProvider[provider.id] ?? 0], the selection handed to
    a card. *)
Definition selectedKeyIdx (selectedKeyIndexByProvider : gmap jsstring Z)
  (provider : EndpointProviderEntry) : Z :=
  default 0%Z (selectedKeyIndexByProvider !! Entry.id provider).

(** ** Configured entries *)

Module ApiKeyEntry.
Record t := mk { apiKey : jsstring }.
End ApiKeyEntry.

(** A key of the Codex, Claude, Gemini or Vertex collection; the fields
    that the builder reads. *)
Module ProviderKeyConfig.
Record t := mk {
  apiKey : jsstring;
  prefix : option jsstring;
  baseUrl : option jsstring;
  models : option (list ConfiguredModel)
}.
End ProviderKeyConfig.
Abbreviation ProviderKeyConfig := ProviderKeyConfig.t.

Module OpenAIProviderConfig.
Record t := mk {
  name : option jsstring;
  baseUrl : option jsstring;
  apiKeyEntries : option (list ApiKeyEntry.t);
  models : option (list ConfiguredModel)
}.
End OpenAIProviderConfig.
Abbreviation OpenAIProviderConfig := OpenAIProviderConfig.t.

Module Config.
Record t := mk {
  apiKeys : JsVal;
  openaiCompatibility : option (list OpenAIProviderConfig);
  codexApiKeys : option (list ProviderKeyConfig);
  claudeApiKeys : option (list ProviderKeyConfig);
  geminiApiKeys : option (list ProviderKeyConfig);
  vertexApiKeys : option (list ProviderKeyConfig)
}.
End Config.
Abbreviation Config := Config.t.

Definition resolveSimpleProviderName (fallbackName : jsstring) (index : nat)
  (item : ProviderKeyConfig) : jsstring :=
  let prefix := normalizeText (Js.ofOpt (ProviderKeyConfig.prefix item)) in
  if negb (JsString.isEmpty prefix) then prefix else
  let baseUrl := normalizeText (Js.ofOpt (ProviderKeyConfig.baseUrl item)) in
  if negb (JsString.isEmpty baseUrl) then baseUrl else
  fallbackName ++ "#" ++ JsString.ofZ (Z.of_nat index + 1).

Section BuildConfiguredEntries.

Variable baseUrl : jsstring.
Variable keyOptions : list ProviderKeyOption.

(** The entry pushed for an OpenAI-compatible provider. *)
Definition buildConfiguredEntries_openaiEntry (order : N)
  (provider : OpenAIProviderConfig) (index : nat) : EndpointProviderEntry :=
  let name :=
    let given := normalizeText (Js.ofOpt (OpenAIProviderConfig.name provider)) in
    if negb (JsString.isEmpty given) then given
    else "openai-compat#" ++ JsString.ofZ (Z.of_nat index + 1) in
  let realKeyOptions :=
    buildKeyOptions
      (map ApiKeyEntry.apiKey (default [] (OpenAIProviderConfig.apiKeyEntries provider))) in
  {| Entry.id := "configured:openai:" ++ JsString.ofZ (Z.of_nat index);
     Entry.sourceKind := ConfiguredApi;
     Entry.providerKey :=
       normalizeProviderKey
         (Js.or (Js.ofOpt (OpenAIProviderConfig.name provider)) (JStr name));
     Entry.name := name;
     Entry.baseUrl := baseUrl;
     Entry.keyOptions := keyOptions;
     Entry.order := order;
     Entry.configuredModels :=
       Some (convertConfiguredModels (OpenAIProviderConfig.models provider));
     Entry.authFileNames := None;
     Entry.aliasLookup := None;
     Entry.excludedPatterns := None;
     Entry.realBaseUrl :=
       Some (normalizeText (Js.ofOpt (OpenAIProviderConfig.baseUrl provider)));
     Entry.realKeyOptions := Some realKeyOptions |}.

(** The entry pushed for a key of one of the four other collections,
    which differ in the name of the kind only. *)
Definition buildConfiguredEntries_keyEntry (kind : jsstring) (order : N)
  (item : ProviderKeyConfig) (index : nat) : EndpointProviderEntry :=
  {| Entry.id := "configured:" ++ kind ++ ":" ++ JsString.ofZ (Z.of_nat index);
     Entry.sourceKind := ConfiguredApi;
     Entry.providerKey := kind;
     Entry.name := resolveSimpleProviderName kind index item;
     Entry.baseUrl := baseUrl;
     Entry.keyOptions := keyOptions;
     Entry.order := order;
     Entry.configuredModels :=
       Some (convertConfiguredModels (ProviderKeyConfig.models item));
     Entry.authFileNames := None;
     Entry.aliasLookup := None;
     Entry.excludedPatterns := None;
     Entry.realBaseUrl :=
       Some (normalizeText (Js.ofOpt (ProviderKeyConfig.baseUrl item)));
     Entry.realKeyOptions := Some (buildKeyOptions [ProviderKeyConfig.apiKey item]) |}.

(** The callback of a loop over a collection: push the entry of the item
    and count the order up.  The state is the list of entries and the
    running order. *)
Definition buildConfiguredEntries_push {A}
  (entryOf : N -> A -> nat -> EndpointProviderEntry)
  (acc : list EndpointProviderEntry * N) (item : A) (index : nat)
  : list EndpointProviderEntry * N :=
  let '(entries, order) := acc in
  (entries ++ [entryOf order item index], (order + 1)%N).

Definition buildConfiguredEntries (config : option Config)
  : list EndpointProviderEntry :=
  match config with
  | None => []
  | Some config =>
      let start : list EndpointProviderEntry * N := ([], 0%N) in
      let afterOpenai :=
        JsArray.forEach (buildConfiguredEntries_push buildConfiguredEntries_openaiEntry)
          (default [] (Config.openaiCompatibility config)) start in
      let afterCodex :=
        JsArray.forEach
          (buildConfiguredEntries_push (buildConfiguredEntries_keyEntry "codex"))
          (default [] (Config.codexApiKeys config)) afterOpenai in
      let afterClaude :=
        JsArray.forEach
          (buildConfiguredEntries_push (buildConfiguredEntries_keyEntry "claude"))
          (default [] (Config.claudeApiKeys config)) afterCodex in
      let afterGemini :=
        JsArray.forEach
          (buildConfiguredEntries_push (buildConfiguredEntries_keyEntry "gemini"))
          (default [] (Config.geminiApiKeys config)) afterClaude in
      let afterVertex :=
        JsArray.forEach
          (buildConfiguredEntries_push (buildConfiguredEntries_keyEntry "vertex"))
          (default [] (Config.vertexApiKeys config)) afterGemini in
      afterVertex.1
  end.

End BuildConfiguredEntries.

(** ** Page data *)

(** [loadProxyApiKeys]; the key listing of the backend is asked for only
    when the configuration gives no key, and is given by its answer. *)
Definition loadProxyApiKeys (config : Config) (apiKeysApi_list : Settled JsVal)
  : list ProviderKeyOption :=
  let fromConfig := normalizeApiKeyList (Config.apiKeys config) in
  if (0 <? length fromConfig)%nat then map ProviderKeyOption.mk fromConfig
  else
    match apiKeysApi_list with
    | Fulfilled fromApi => map ProviderKeyOption.mk (normalizeApiKeyList fromApi)
    | Rejected _ => []
    end.


(** The batches of [refreshAllProviderModels]: the loop over the start
    positions 0, 4, 8, ...; it runs at most once per entry. *)
Definition concurrency : nat := 4.

Fixpoint refreshAll_batchesFrom (rounds : nat) (entries : list EndpointProviderEntry)
  (index : nat) : list (list EndpointProviderEntry) :=
  match rounds with
  | O => []
  | S rounds' =>
      if (index <? length entries)%nat then
        take concurrency (drop index entries)
        :: refreshAll_batchesFrom rounds' entries (index + concurrency)
      else []
  end.

Definition refreshAll_batches (entries : list EndpointProviderEntry)
  : list (list EndpointProviderEntry) :=
  refreshAll_batchesFrom (length entries) entries 0.

(** ** Search and sections of the endpoints page *)

Definition filteredProviders (search : jsstring)
  (providerEntries : list EndpointProviderEntry)
  (modelsByProvider : gmap jsstring ProviderModelsState)
  : list EndpointProviderEntry :=
  if JsString.isEmpty (JsString.trim search) then providerEntries else
  let keyword := JsString.toLowerCase (JsString.trim search) in
  List.filter
    (fun entry =>
       let byName := JsText.includes (JsString.toLowerCase (Entry.name entry)) keyword in
       let byProviderKey :=
         JsText.includes (JsString.toLowerCase (Entry.providerKey entry)) keyword in
       let byModels :=
         existsb
           (fun model =>
              JsText.includes (JsString.toLowerCase (ModelInfo.name model)) keyword
              || JsText.includes
                   (JsString.toLowerCase (normalizeText (Js.ofOpt (ModelInfo.alias model))))
                   keyword)
           (previousModels modelsByProvider (Entry.id entry)) in
       byName || byProviderKey || byModels)
    providerEntries.

Definition isAuthProxy (item : EndpointProviderEntry) : bool :=
  match Entry.sourceKind item with AuthProxy => true | ConfiguredApi => false end.

Definition isConfiguredApi (item : EndpointProviderEntry) : bool :=
  match Entry.sourceKind item with ConfiguredApi => true | AuthProxy => false end.

Module SourceSection.
Record t := mk {
  id : EndpointSourceKind;
  title : jsstring;
  items : list EndpointProviderEntry
}.
End SourceSection.
Abbreviation SourceSection := SourceSection.t.

(** [sections] of the endpoints page: always the two of them. *)
Definition sections (t : jsstring -> jsstring)
  (filteredProviders : list EndpointProviderEntry) : list SourceSection :=
  let authItems := List.filter isAuthProxy filteredProviders in
  let configuredItems := List.filter isConfiguredApi filteredProviders in
  [ {| SourceSection.id := AuthProxy;
       SourceSection.title := t "api_endpoints.source_auth_proxy";
       SourceSection.items := authItems |};
    {| SourceSection.id := ConfiguredApi;
       SourceSection.title := t "api_endpoints.source_configured_api";
       SourceSection.items := configuredItems |} ].

(** ** Agent settings page: the model picker *)

#[global] Instance ThinkingLevel_eq_dec : EqDecision ThinkingLevel.
Proof. solve_decision. Defined.

Module AgentSettings.

(** [sections] of the agent settings page: a section is listed only when
    it has items. *)
Definition sections (t : jsstring -> jsstring)
  (providerEntries : list EndpointProviderEntry) : list SourceSection :=
  let authItems := List.filter isAuthProxy providerEntries in
  let configuredItems := List.filter isConfiguredApi providerEntries in
  (if (0 <? length authItems)%nat then
     [ {| SourceSection.id := AuthProxy;
          SourceSection.title := t "api_endpoints.source_auth_proxy";
          SourceSection.items := authItems |} ]
   else [])
  ++ (if (0 <? length configuredItems)%nat then
        [ {| SourceSection.id := ConfiguredApi;
             SourceSection.title := t "api_endpoints.source_configured_api";
             SourceSection.items := configuredItems |} ]
      else []).

Module ProviderOption.
Record t := mk {
  entry : EndpointProviderEntry;
  sectionTitle : jsstring;
  modelsState : ProviderModelsState
}.
End ProviderOption.


Definition matchesSearch (model : ModelInfo) (query : jsstring) : bool :=
  if JsString.isEmpty query then true else
  let q := JsString.toLowerCase query in
  let name := JsString.toLowerCase (normalizeText (JStr (ModelInfo.name model))) in
  let alias := JsString.toLowerCase (normalizeText (Js.ofOpt (ModelInfo.alias model))) in
  JsText.includes name q || JsText.includes alias q.

(** The callback of the filter of [uniqueModels], with the set of seen
    keys threaded through it. *)
Definition uniqueModels_each (acc : gset jsstring * list ModelInfo)
  (model : ModelInfo) : gset jsstring * list ModelInfo :=
  let '(seen, kept) := acc in
  let key := JsString.toLowerCase (normalizeText (JStr (ModelInfo.name model))) in
  if JsString.isEmpty key || bool_decide (key ∈ seen) then acc
  else ({[ key ]} ∪ seen, kept ++ [model]).

Definition uniqueModels (activeModels : list ModelInfo) : list ModelInfo :=
  (foldl uniqueModels_each (∅, []) activeModels).2.

Definition filteredModels (activeModels : list ModelInfo) (modelSearch : jsstring)
  : list ModelInfo :=
  List.filter (fun model => matchesSearch model modelSearch) (uniqueModels activeModels).

Definition isCodexProvider (entry : option EndpointProviderEntry) : bool :=
  match entry with
  | None => false
  | Some entry =>
      bool_decide
        (JsString.toLowerCase (normalizeText (JStr (Entry.providerKey entry))) = "codex")
  end.

(** ** Agent settings page: slots and settings *)

Inductive ModelSlotKey :=
| ANTHROPIC_MODEL
| ANTHROPIC_DEFAULT_OPUS_MODEL
| ANTHROPIC_DEFAULT_SONNET_MODEL
| ANTHROPIC_DEFAULT_HAIKU_MODEL.

#[global] Instance ModelSlotKey_eq_dec : EqDecision ModelSlotKey.
Proof. solve_decision. Defined.

(** The property name that a slot key is. *)
Definition slotKeyText (key : ModelSlotKey) : jsstring :=
  match key with
  | ANTHROPIC_MODEL => "ANTHROPIC_MODEL"
  | ANTHROPIC_DEFAULT_OPUS_MODEL => "ANTHROPIC_DEFAULT_OPUS_MODEL"
  | ANTHROPIC_DEFAULT_SONNET_MODEL => "ANTHROPIC_DEFAULT_SONNET_MODEL"
  | ANTHROPIC_DEFAULT_HAIKU_MODEL => "ANTHROPIC_DEFAULT_HAIKU_MODEL"
  end.

Module ModelSlotIconKey.
Inductive t := main | opus | sonnet | haiku.
End ModelSlotIconKey.

Module ModelSlotConfig.
Record t := mk {
  key : ModelSlotKey;
  labelKey : jsstring;
  descKey : jsstring;
  icon : ModelSlotIconKey.t
}.
End ModelSlotConfig.

Definition MODEL_SLOTS : list ModelSlotConfig.t :=
  [ {| ModelSlotConfig.key := ANTHROPIC_MODEL;
       ModelSlotConfig.labelKey := "agent_settings.slot_main_model";
       ModelSlotConfig.descKey := "agent_settings.slot_main_model_desc";
       ModelSlotConfig.icon := ModelSlotIconKey.main |};
    {| ModelSlotConfig.key := ANTHROPIC_DEFAULT_OPUS_MODEL;
       ModelSlotConfig.labelKey := "agent_settings.slot_opus_model";
       ModelSlotConfig.descKey := "agent_settings.slot_opus_model_desc";
       ModelSlotConfig.icon := ModelSlotIconKey.opus |};
    {| ModelSlotConfig.key := ANTHROPIC_DEFAULT_SONNET_MODEL;
       ModelSlotConfig.labelKey := "agent_settings.slot_sonnet_model";
       ModelSlotConfig.descKey := "agent_settings.slot_sonnet_model_desc";
       ModelSlotConfig.icon := ModelSlotIconKey.sonnet |};
    {| ModelSlotConfig.key := ANTHROPIC_DEFAULT_HAIKU_MODEL;
       ModelSlotConfig.labelKey := "agent_settings.slot_haiku_model";
       ModelSlotConfig.descKey := "agent_settings.slot_haiku_model_desc";
       ModelSlotConfig.icon := ModelSlotIconKey.haiku |} ].

(** A record with one field for each slot key, and the copy of one with a
    field replaced. *)
Definition SlotRecord (V : Type) : Type := ModelSlotKey -> V.

Definition setSlot {V} (prev : SlotRecord V) (slotKey : ModelSlotKey) (value : V)
  : SlotRecord V :=
  fun key => if decide (key = slotKey) then value else prev key.



(** The settings file: its [env] object, if any, and its other
    properties.  The values are those of a parsed JSON text. *)
Module ClaudeSettings.
Record t := mk {
  env : option (gmap jsstring JsVal);
  others : gmap jsstring JsVal
}.
End ClaudeSettings.
Abbreviation ClaudeSettings := ClaudeSettings.t.

Module ThinkingCapability.
Inductive t := codex | nonCodex | unknown.
End ThinkingCapability.

Module PageStatus.
Inductive t := idle | loading | loaded | saving | error.
End PageStatus.

(** The state of the page that the settings logic reads and writes. *)
Module State.
Record t := mk {
  settings : option ClaudeSettings;
  dirtyEnv : SlotRecord jsstring;
  thinkingBySlot : SlotRecord (option ThinkingLevel);
  selectedProviderBySlot : SlotRecord jsstring;
  pageStatus : PageStatus.t;
  loadError : jsstring;
  expandedSlot : option ModelSlotKey
}.
End State.


(** [env?.[key]] for the [env] of settings that may be missing. *)
Definition envValue (settings : option ClaudeSettings) (key : ModelSlotKey) : JsVal :=
  match settings with
  | Some data =>
      match ClaudeSettings.env data with
      | Some env => default JUndefined (env !! slotKeyText key)
      | None => JUndefined
      end
  | None => JUndefined
  end.

Definition originalParsedBySlot (settings : option ClaudeSettings)
  : SlotRecord Parsed.t :=
  fun key => parseModelWithThinking (normalizeText (envValue settings key)).

Definition originalEnv (settings : option ClaudeSettings) : SlotRecord jsstring :=
  fun key => Parsed.baseModel (originalParsedBySlot settings key).

Definition originalThinkingBySlot (settings : option ClaudeSettings)
  : SlotRecord (option ThinkingLevel) :=
  fun key => Parsed.thinking (originalParsedBySlot settings key).


Section Page.

(** What the page takes from the endpoint-provider hook. *)
Variable providerEntries : list EndpointProviderEntry.
Variable modelsByProvider : gmap jsstring ProviderModelsState.

Definition providerById : gmap jsstring EndpointProviderEntry :=
  foldl (fun map entry => <[ Entry.id entry := entry ]> map) ∅ providerEntries.

Definition providerHasModel (entry : EndpointProviderEntry) (modelName : jsstring) : bool :=
  let normalizedModel := JsString.toLowerCase (normalizeText (JStr modelName)) in
  if JsString.isEmpty normalizedModel then false else
  let state := default DEFAULT_MODELS_STATE (modelsByProvider !! Entry.id entry) in
  existsb
    (fun item =>
       let name := JsString.toLowerCase (normalizeText (JStr (ModelInfo.name item))) in
       let alias := JsString.toLowerCase (normalizeText (Js.ofOpt (ModelInfo.alias item))) in
       bool_decide (name = normalizedModel) || bool_decide (alias = normalizedModel))
    (ModelsState.models state).

Definition matchProviderByModel (modelName : jsstring) : option EndpointProviderEntry :=
  let normalizedModel := normalizeText (JStr modelName) in
  if JsString.isEmpty normalizedModel then None else
  find (fun entry => providerHasModel entry normalizedModel) providerEntries.

(** [preferredProviderId || selectedProviderBySlot[slotKey]] *)
Definition selectedProviderId (state : State.t) (slotKey : ModelSlotKey)
  (preferredProviderId : option jsstring) : jsstring :=
  match preferredProviderId with
  | Some id => if JsString.isEmpty id then State.selectedProviderBySlot state slotKey else id
  | None => State.selectedProviderBySlot state slotKey
  end.

(** [providerById[id]] for a selection that is not empty. *)
Definition selectedProvider (state : State.t) (slotKey : ModelSlotKey)
  (preferredProviderId : option jsstring) : option EndpointProviderEntry :=
  let id := selectedProviderId state slotKey preferredProviderId in
  if JsString.isEmpty id then None else providerById !! id.

Definition resolveProviderForModel (state : State.t) (slotKey : ModelSlotKey)
  (modelName : jsstring) (preferredProviderId : option jsstring)
  : option EndpointProviderEntry :=
  let normalizedModel := normalizeText (JStr modelName) in
  if JsString.isEmpty normalizedModel then None else
  let fallback :=
    match matchProviderByModel normalizedModel with
    | Some matchedByModel => Some matchedByModel
    | None => find (fun entry => (0 <? length (Entry.keyOptions entry))%nat) providerEntries
    end in
  match selectedProvider state slotKey preferredProviderId with
  | Some selectedEntry =>
      if providerHasModel selectedEntry normalizedModel
         || (0 <? length (Entry.keyOptions selectedEntry))%nat
      then Some selectedEntry else fallback
  | None => fallback
  end.

Definition resolveThinkingCapability (state : State.t) (slotKey : ModelSlotKey)
  (modelName : jsstring) (preferredProviderId : option jsstring) : ThinkingCapability.t :=
  let normalizedModel := normalizeText (JStr modelName) in
  if JsString.isEmpty normalizedModel then ThinkingCapability.unknown else
  let byModel :=
    match matchProviderByModel normalizedModel with
    | Some matchedProvider =>
        if isCodexProvider (Some matchedProvider)
        then ThinkingCapability.codex else ThinkingCapability.nonCodex
    | None => ThinkingCapability.unknown
    end in
  match selectedProvider state slotKey preferredProviderId with
  | Some selectedProvider =>
      if providerHasModel selectedProvider normalizedModel then
        if isCodexProvider (Some selectedProvider)
        then ThinkingCapability.codex else ThinkingCapability.nonCodex
      else byModel
  | None => byModel
  end.

Definition buildModelValueForSlot (state : State.t) (slotKey : ModelSlotKey)
  (baseModel : jsstring) (preferredProviderId : option jsstring) : jsstring :=
  let normalizedBase := normalizeText (JStr baseModel) in
  if JsString.isEmpty normalizedBase then "" else
  match State.thinkingBySlot state slotKey with
  | None => normalizedBase
  | Some thinking =>
      match resolveThinkingCapability state slotKey normalizedBase preferredProviderId with
      | ThinkingCapability.codex => formatModelWithThinking normalizedBase (Some thinking)
      | _ => normalizedBase
      end
  end.

(** Whether a slot differs from what the settings hold. *)
Definition slotChanged (state : State.t) (key : ModelSlotKey) : bool :=
  negb (bool_decide (State.dirtyEnv state key = originalEnv (State.settings state) key))
  || negb (bool_decide (State.thinkingBySlot state key
                        = originalThinkingBySlot (State.settings state) key)).


(** The callback of [buildMergedSettings] over the slots, on the copy of
    the [env] object. *)
Definition buildMergedSettings_each (state : State.t) (baseSettings : ClaudeSettings)
  (mergedEnv : gmap jsstring JsVal) (slot : ModelSlotConfig.t) : gmap jsstring JsVal :=
  let key := ModelSlotConfig.key slot in
  if negb (slotChanged state key) then
    let originalValue := normalizeText (envValue (Some baseSettings) key) in
    if negb (JsString.isEmpty originalValue)
    then <[ slotKeyText key := JStr originalValue ]> mergedEnv
    else delete (slotKeyText key) mergedEnv
  else
    let value := buildModelValueForSlot state key (State.dirtyEnv state key) None in
    if negb (JsString.isEmpty value)
    then <[ slotKeyText key := JStr value ]> mergedEnv
    else delete (slotKeyText key) mergedEnv.

Definition buildMergedSettings (state : State.t) (baseSettings : ClaudeSettings)
  : ClaudeSettings :=
  let mergedEnv := default ∅ (ClaudeSettings.env baseSettings) in
  {| ClaudeSettings.env :=
       Some (foldl (buildMergedSettings_each state baseSettings) mergedEnv MODEL_SLOTS);
     ClaudeSettings.others := ClaudeSettings.others baseSettings |}.


Definition setThinking (state : State.t) (slotKey : ModelSlotKey)
  (value : option ThinkingLevel) : State.t :=
  {| State.settings := State.settings state;
     State.dirtyEnv := State.dirtyEnv state;
     State.thinkingBySlot := setSlot (State.thinkingBySlot state) slotKey value;
     State.selectedProviderBySlot := State.selectedProviderBySlot state;
     State.pageStatus := State.pageStatus state;
     State.loadError := State.loadError state;
     State.expandedSlot := State.expandedSlot state |}.

Definition setSelectedProvider (state : State.t) (slotKey : ModelSlotKey)
  (providerId : jsstring) : State.t :=
  {| State.settings := State.settings state;
     State.dirtyEnv := State.dirtyEnv state;
     State.thinkingBySlot := State.thinkingBySlot state;
     State.selectedProviderBySlot :=
       setSlot (State.selectedProviderBySlot state) slotKey providerId;
     State.pageStatus := State.pageStatus state;
     State.loadError := State.loadError state;
     State.expandedSlot := State.expandedSlot state |}.

Definition setDirty (state : State.t) (slotKey : ModelSlotKey) (model : jsstring)
  : State.t :=
  {| State.settings := State.settings state;
     State.dirtyEnv := setSlot (State.dirtyEnv state) slotKey model;
     State.thinkingBySlot := State.thinkingBySlot state;
     State.selectedProviderBySlot := State.selectedProviderBySlot state;
     State.pageStatus := State.pageStatus state;
     State.loadError := State.loadError state;
     State.expandedSlot := State.expandedSlot state |}.

Definition handleProviderPick (slotKey : ModelSlotKey) (providerId : jsstring)
  (state : State.t) : State.t :=
  let state1 := setSelectedProvider state slotKey providerId in
  match providerById !! providerId with
  | Some picked =>
      if negb (isCodexProvider (Some picked)) then setThinking state1 slotKey None
      else state1
  | None => state1
  end.


Definition handleModelClear (slotKey : ModelSlotKey) (state : State.t) : State.t :=
  setThinking (setDirty state slotKey "") slotKey None.

Definition handleThinkingChange (slotKey : ModelSlotKey) (value : option ThinkingLevel)
  (state : State.t) : State.t :=
  setThinking state slotKey value.

(** The effect that drops the thinking level of a slot whose selected
    provider is known and is not a Codex provider. *)
Definition dropThinkingOfOtherProviders (state : State.t) : State.t :=
  {| State.settings := State.settings state;
     State.dirtyEnv := State.dirtyEnv state;
     State.thinkingBySlot :=
       foldl (fun next slot =>
                let key := ModelSlotConfig.key slot in
                match State.thinkingBySlot state key with
                | None => next
                | Some _ =>
                    let providerId := State.selectedProviderBySlot state key in
                    if JsString.isEmpty providerId then next else
                    match providerById !! providerId with
                    | None => next
                    | Some provider =>
                        if negb (isCodexProvider (Some provider))
                        then setSlot next key None else next
                    end
                end)
             (State.thinkingBySlot state) MODEL_SLOTS;
     State.selectedProviderBySlot := State.selectedProviderBySlot state;
     State.pageStatus := State.pageStatus state;
     State.loadError := State.loadError state;
     State.expandedSlot := State.expandedSlot state |}.

End Page.

End AgentSettings.

(** ** Settings file permission *)

Module FileSystemAccess.

Module PermissionMode.
Inductive t := read | readwrite.
End PermissionMode.

Module PermissionState.
Inductive t := granted | denied | prompt.
End PermissionState.

(** A file handle, as far as permissions go: the two methods, either of
    which an environment may lack, given by the answers they settle
    with. *)
Module Handle.
Record t := mk {
  queryPermission : option (PermissionMode.t -> Settled PermissionState.t);
  requestPermission : option (PermissionMode.t -> Settled PermissionState.t)
}.
End Handle.

Inductive PermissionCall :=
| Query (mode : PermissionMode.t)
| Request (mode : PermissionMode.t).

(** [ensureHandlePermission]: the answer, and the calls made on the handle
    in their order. *)
Definition ensureHandlePermission (handle : Handle.t) (mode : PermissionMode.t)
  (prompt : bool) : bool * list PermissionCall :=
  match Handle.queryPermission handle, Handle.requestPermission handle with
  | None, None => (true, [])
  | queryPermission, requestPermission =>
      let afterQuery (calls : list PermissionCall) : bool * list PermissionCall :=
        if negb prompt then (false, calls) else
        match requestPermission with
        | None => (false, calls)
        | Some request =>
            match request mode with
            | Fulfilled PermissionState.granted => (true, calls ++ [Request mode])
            | Fulfilled _ => (false, calls ++ [Request mode])
            | Rejected _ => (false, calls ++ [Request mode])
            end
        end in
      match queryPermission with
      | None => afterQuery []
      | Some query =>
          match query mode with
          | Fulfilled PermissionState.granted => (true, [Query mode])
          | Fulfilled _ => afterQuery [Query mode]
          | Rejected _ => (false, [Query mode])
          end
      end
  end.

End FileSystemAccess.

(** ** Agent settings API *)

Module AgentSettingsApi.

Definition SETTINGS_PATH : jsstring := "~/.claude/settings.json".

(** [status === 404] *)
Definition isNotFound (status : JsVal) : bool :=
  match status with
  | JNum code => (code =? 404)%Z
  | _ => false
  end.

Section Client.

(** The [status] property of a thrown value. *)
Variable status : Thrown -> JsVal.

(** [read]: the two requests of the client are given by the answers they
    settle with; the result is the outcome and the paths requested, in
    their order. *)
Definition read (getClaudeSettings getLocalFile : Settled AgentSettings.ClaudeSettings)
  : Settled AgentSettings.ClaudeSettings * list jsstring :=
  match getClaudeSettings with
  | Fulfilled settings => (Fulfilled settings, ["/manage/agent/claude-settings"])
  | Rejected primaryError =>
      if isNotFound (status primaryError) then
        match getLocalFile with
        | Fulfilled settings =>
            (Fulfilled settings, ["/manage/agent/claude-settings"; "/manage/local-file"])
        | Rejected _ =>
            (Rejected primaryError,
             ["/manage/agent/claude-settings"; "/manage/local-file"])
        end
      else (Rejected primaryError, ["/manage/agent/claude-settings"])
  end.

Definition write (putClaudeSettings putLocalFile : Settled unit)
  : Settled unit * list jsstring :=
  match putClaudeSettings with
  | Fulfilled _ => (Fulfilled tt, ["/manage/agent/claude-settings"])
  | Rejected primaryError =>
      if isNotFound (status primaryError) then
        match putLocalFile with
        | Fulfilled _ =>
            (Fulfilled tt, ["/manage/agent/claude-settings"; "/manage/local-file"])
        | Rejected _ =>
            (Rejected primaryError,
             ["/manage/agent/claude-settings"; "/manage/local-file"])
        end
      else (Rejected primaryError, ["/manage/agent/claude-settings"])
  end.

End Client.

End AgentSettingsApi.

(* ################################################################# *)
(** * Part II: the notions in which the properties are stated *)

(** ** First occurrences *)

(** The elements of a list whose key has not occurred before them, in
    their order. *)
Fixpoint firstBy {A K} `{EqDecision K} (key : A -> K) (l : list A) : list A :=
  match l with
  | [] => []
  | x :: r => x :: filter (fun y => key y <> key x) (firstBy key r)
  end.

(** A loop that pushes the value of every element whose key is not yet in
    the set of seen keys, and records the key. *)
Definition pushUnseen {A B} (item : A -> option (jsstring * B))
  (acc : gset jsstring * list B) (x : A) : gset jsstring * list B :=
  match item x with
  | None => acc
  | Some (k, v) =>
      if decide (k ∈ acc.1) then acc else ({[ k ]} ∪ acc.1, acc.2 ++ [v])
  end.

(** ** Texts *)

(** Equal up to letter case. *)
Definition sameUpToCase (a b : jsstring) : Prop :=
  JsString.toLowerCase a = JsString.toLowerCase b.

(** A string that does not begin with white space. *)
Definition noLeadingSpace (s : jsstring) : Prop :=
  match s with
  | [] => True
  | c :: _ => JsString.isWhiteSpace c = false
  end.

(** Every code unit below U+0100. *)
Definition allChars : list ascii := ascii_of_nat <$> seq 0 256.

(** ** What a sequence of terms matches *)

(** The texts that one term can consume. *)
Definition termMatches (ignoreCase : bool) (t : RegExp.term) (g : jsstring) : Prop :=
  Forall (fun c => RegExp.accepts ignoreCase t.1 c = true) g
  /\ match t.2 with
     | RegExp.One => length g = 1
     | RegExp.Star => True
     | RegExp.Plus => 1 <= length g
     end.

(** [matches ic ts s caps]: the text [s] is the concatenation of the texts
    [caps], one for each term of [ts], each matched by its term. *)
Inductive matches (ignoreCase : bool) : list RegExp.term -> jsstring -> list jsstring -> Prop :=
| matches_nil : matches ignoreCase [] [] []
| matches_cons t ts g s caps :
    termMatches ignoreCase t g ->
    matches ignoreCase ts s caps ->
    matches ignoreCase (t :: ts) (g ++ s) (g :: caps).

(** ** Wildcard patterns, as the specification reads them *)

(** [globMatch segments model]: the model is the segments in their order,
    each up to letter case, with any text free of line terminators between
    two consecutive segments, and nothing before the first or after the
    last. *)
Inductive globMatch : list jsstring -> jsstring -> Prop :=
| glob_last segment model :
    sameUpToCase segment model -> globMatch [segment] model
| glob_more segment segments prefix gap rest :
    segments <> [] ->
    sameUpToCase segment prefix ->
    Forall (fun c => JsString.isLineTerminator c = false) gap ->
    globMatch segments rest ->
    globMatch (segment :: segments) (prefix ++ gap ++ rest).

(** The terms of a literal text. *)
Definition literalTerms (s : jsstring) : list RegExp.term :=
  (fun c => (RegExp.Lit c, RegExp.One)) <$> s.

(** The terms of the expression that [matchExcludePattern] builds from the
    segments of a pattern. *)
Fixpoint globTerms (segments : list jsstring) : list RegExp.term :=
  match segments with
  | [] => []
  | [s] => literalTerms s
  | s :: r => literalTerms s ++ (RegExp.Dot, RegExp.Star) :: globTerms r
  end.

(** A text that does not begin with the repetition sign. *)
Definition headNotStar (s : jsstring) : Prop :=
  match s with
  | c :: _ => c <> "*"%char
  | [] => True
  end.

(** ** The normal form of a model *)

(** The key under which [dedupeModels] compares models. *)
Definition modelKey (model : ModelInfo) : jsstring :=
  JsString.toLowerCase (JsString.trim (ModelInfo.name model)).

(** A model as the specification describes the entries of a de-duplicated
    list: trimmed name, the trimmed alias unless it is empty or equals the
    name up to case, the trimmed description unless it is empty. *)
Definition cleanModel (model : ModelInfo) : ModelInfo :=
  let alias := JsString.trim (default [] (ModelInfo.alias model)) in
  let description := JsString.trim (default [] (ModelInfo.description model)) in
  {| ModelInfo.name := JsString.trim (ModelInfo.name model);
     ModelInfo.alias :=
       if decide (alias = [] \/ JsString.toLowerCase alias = modelKey model)
       then None else Some alias;
     ModelInfo.description :=
       if decide (description = []) then None else Some description |}.

(** What [dedupeModels] pushes for a model, with the key it records. *)
Definition dedupeItem (model : ModelInfo) : option (jsstring * ModelInfo) :=
  if decide (modelKey model = []) then None
  else Some (modelKey model, cleanModel model).

(** ** The key read from one element of a key list *)

(** The trimmed text of the key that [normalizeApiKeyList] reads from an
    element; empty when the element carries none. *)
Definition apiKeyText (item : JsVal) : jsstring :=
  normalizeText (apiKeyValue item).

(** What the specification says of [normalizeApiKeyList]: the non-empty
    trimmed keys, each kept at its first exact occurrence. *)
Definition distinctApiKeys (input : JsVal) : list jsstring :=
  match input with
  | JArr items => firstBy id (filter (fun k => k <> []) (apiKeyText <$> items))
  | _ => []
  end.

(** ** Credential files as the entry builder reads them *)

Definition fileRawProvider (file : AuthFileItem) : jsstring :=
  normalizeText (Js.or (AuthFileItem.provider file) (AuthFileItem.type file)).

Definition fileKey (file : AuthFileItem) : jsstring :=
  normalizeProviderKey (JStr (fileRawProvider file)).

Definition fileName (file : AuthFileItem) : jsstring :=
  normalizeText (AuthFileItem.name file).

(** A file marked disabled or unavailable. *)
Definition flagged (file : AuthFileItem) : bool :=
  isTruthyFlag (AuthFileItem.disabled file)
  || isTruthyFlag (AuthFileItem.unavailable file).

(** A file that takes part in the grouping: not flagged, with a provider
    key and a file name. *)
Definition contributes (file : AuthFileItem) : bool :=
  negb (flagged file)
  && negb (JsString.isEmpty (fileKey file))
  && negb (JsString.isEmpty (fileName file)).

(** The contributing files of one provider key. *)
Definition membersOf (k : jsstring) (files : list AuthFileItem) : list AuthFileItem :=
  filter (fun f => fileKey f = k) (filter contributes files).

(** The provider keys of the contributing files, each once, in the order
    of their first file. *)
Definition providerKeys (files : list AuthFileItem) : list jsstring :=
  firstBy id (fileKey <$> filter contributes files).

(** The group of a key, numbered [i]. *)
Definition groupOf (files : list AuthFileItem) (i : nat) (k : jsstring)
  : jsstring * Group.t :=
  (k, {| Group.label := default [] (head (fileRawProvider <$> membersOf k files));
         Group.order := N.of_nat i;
         Group.files := firstBy id (fileName <$> membersOf k files) |}).

Fixpoint groupsFrom (files : list AuthFileItem) (i : nat) (keys : list jsstring)
  : list (jsstring * Group.t) :=
  match keys with
  | [] => []
  | k :: r => groupOf files i k :: groupsFrom files (S i) r
  end.

(** The change that [groupAuthFile] makes to the group of a known key. *)
Definition addFile (fileName : jsstring) (existing : Group.t) : Group.t :=
  {| Group.label := Group.label existing;
     Group.order := Group.order existing;
     Group.files := JsSet.add fileName (Group.files existing) |}.

(** ** Model resolution of a credential-file entry *)

(** Alias lookup and exclusion filtering, the last step of
    [fetchAuthProxyModels]. *)
Definition postProcess (entry : EndpointProviderEntry) (models : list ModelInfo)
  : list ModelInfo :=
  filterExcludedModels (applyAliasLookup models (Entry.aliasLookup entry))
    (Entry.excludedPatterns entry).

(** The models collected from the per-file calls that succeed. *)
Definition modelsFromFiles (getModelsForAuthFile : jsstring -> Settled (list AuthApiModel))
  (names : list jsstring) : list ModelInfo :=
  dedupeModels
    (flat_map (fun name =>
                 match getModelsForAuthFile name with
                 | Fulfilled value => normalizeAuthApiModels value
                 | Rejected _ => []
                 end) names).

(** ** Steps of the page state *)

(** The operations that change the page state. *)
Inductive PageOp :=
| OpStart (entry : EndpointProviderEntry)
| OpSettle (entry : EndpointProviderEntry) (token : N) (outcome : Settled (list ModelInfo))
| OpStartAll (entries : list EndpointProviderEntry).

Definition applyOp (t : jsstring -> jsstring) (page : Page.t) (op : PageOp) : Page.t :=
  match op with
  | OpStart entry => (refreshSingle_start entry page).2
  | OpSettle entry token outcome => refreshSingle_settle t entry token outcome page
  | OpStartAll entries => refreshAll_start entries page
  end.

Definition currentToken (page : Page.t) (id : jsstring) : N :=
  default 0%N (Page.providerFetchTokenRef page !! id).

(** The state published for a provider when a call settles while its token
    is the current one. *)
Definition settledState (t : jsstring -> jsstring)
  (outcome : Settled (list ModelInfo)) (known : list ModelInfo)
  : ProviderModelsState :=
  match outcome with
  | Fulfilled models =>
      {| ModelsState.status := Status.success; ModelsState.models := models;
         ModelsState.error := None |}
  | Rejected error =>
      {| ModelsState.status := Status.error; ModelsState.models := known;
         ModelsState.error := Some (errorMessage t error) |}
  end.

(** ** Sample data *)

Definition sample_model : ModelInfo :=
  {| ModelInfo.name := "gpt-5"; ModelInfo.alias := None;
     ModelInfo.description := None |}.

Definition sample_entry : EndpointProviderEntry :=
  {| Entry.id := "auth:codex"; Entry.sourceKind := AuthProxy;
     Entry.providerKey := "codex"; Entry.name := "codex";
     Entry.baseUrl := "http://localhost:8317"; Entry.keyOptions := [];
     Entry.order := 0;
     Entry.configuredModels := None; Entry.authFileNames := Some ["codex-a.json"];
     Entry.aliasLookup := None; Entry.excludedPatterns := None;
     Entry.realBaseUrl := None; Entry.realKeyOptions := None |}.

Definition sample_page : Page.t :=
  {| Page.providerFetchTokenRef := {[ Entry.id sample_entry := 3%N ]};
     Page.modelsByProvider :=
       {[ Entry.id sample_entry :=
            {| ModelsState.status := Status.success;
               ModelsState.models := [sample_model];
               ModelsState.error := None |} ]} |}.

(** A backend that fails, and one that lists a model. *)
Definition backend_down {A} (_ : jsstring) : Settled A :=
  Rejected (ErrorObject "Network Error").

Definition backend_lists_gpt5 (_ : jsstring) : Settled (list AuthApiModel) :=
  Fulfilled [ {| AuthApiModel.id := "gpt-5"; AuthApiModel.display_name := None |} ].

(** Sample credential files. *)
Definition file_codex_a : AuthFileItem :=
  {| AuthFileItem.name := JStr "codex-a.json"; AuthFileItem.provider := JStr "Codex";
     AuthFileItem.type := JUndefined; AuthFileItem.disabled := JStr "no";
     AuthFileItem.unavailable := JUndefined |}.

Definition file_codex_b : AuthFileItem :=
  {| AuthFileItem.name := JStr "codex-b.json"; AuthFileItem.provider := JUndefined;
     AuthFileItem.type := JStr "codex"; AuthFileItem.disabled := JBool false;
     AuthFileItem.unavailable := JUndefined |}.

Definition file_claude_off : AuthFileItem :=
  {| AuthFileItem.name := JStr "claude.json"; AuthFileItem.provider := JStr "claude";
     AuthFileItem.type := JUndefined; AuthFileItem.disabled := JStr "yes";
     AuthFileItem.unavailable := JUndefined |}.

Definition file_keyless : AuthFileItem :=
  {| AuthFileItem.name := JStr "orphan.json"; AuthFileItem.provider := JUndefined;
     AuthFileItem.type := JUndefined; AuthFileItem.disabled := JUndefined;
     AuthFileItem.unavailable := JUndefined |}.

Definition file_nameless : AuthFileItem :=
  {| AuthFileItem.name := JStr ""; AuthFileItem.provider := JStr "codex";
     AuthFileItem.type := JUndefined; AuthFileItem.disabled := JUndefined;
     AuthFileItem.unavailable := JUndefined |}.

(** The entry that [buildAuthProviderEntries] makes of the two files of
    the provider [codex]. *)
Definition built_entry : EndpointProviderEntry :=
  {| Entry.id := "auth:codex"; Entry.sourceKind := AuthProxy;
     Entry.providerKey := "codex"; Entry.name := "Codex";
     Entry.baseUrl := "http://localhost:8317"; Entry.keyOptions := [];
     Entry.order := 0;
     Entry.configuredModels := None;
     Entry.authFileNames := Some ["codex-a.json"; "codex-b.json"];
     Entry.aliasLookup := Some ∅; Entry.excludedPatterns := Some [];
     Entry.realBaseUrl := None; Entry.realKeyOptions := None |}.

(** A list in the normal form that the de-duplicating loops produce:
    trimmed, non-empty texts, pairwise different up to letter case. *)
Definition distinctTexts (l : list jsstring) : Prop :=
  Forall (fun k => k <> [] /\ JsString.trim k = k) l
  /\ NoDup (JsString.toLowerCase <$> l).

(** The names under which a model is compared with the patterns. *)
Definition candidateNames (model : ModelInfo) : list jsstring :=
  filter (fun s => s <> [])
    [JsString.trim (ModelInfo.name model);
     JsString.trim (default [] (ModelInfo.alias model))].

(** A model that one of the given patterns, trimmed and not blank,
    matches by its name or its alias. *)
Definition excludedBy (patterns : list jsstring) (model : ModelInfo) : Prop :=
  exists pattern candidate,
    pattern ∈ patterns /\ JsString.trim pattern <> []
    /\ candidate ∈ candidateNames model
    /\ matchExcludePattern candidate (JsString.trim pattern) = true.

(** A list as [dedupeModels] leaves it: every model in its normal form
    with a key, and no key twice. *)
Definition deduplicated (models : list ModelInfo) : Prop :=
  Forall (fun m => cleanModel m = m /\ modelKey m <> []) models
  /\ NoDup (modelKey <$> models).

(** The key and the text of an alias entry, and the entries that
    [buildAliasLookup] records for a name. *)
Definition aliasKey (entry : OAuthModelAliasEntry) : jsstring :=
  JsString.toLowerCase (JsString.trim (OAuthModelAliasEntry.name entry)).

Definition aliasText (entry : OAuthModelAliasEntry) : jsstring :=
  JsString.trim (OAuthModelAliasEntry.alias entry).

Definition aliasesOf (name : jsstring) (entries : list OAuthModelAliasEntry)
  : list OAuthModelAliasEntry :=
  filter (fun entry => aliasKey entry = name /\ aliasKey entry <> [] /\ aliasText entry <> [])
    entries.

(** The number of keys of an entry, as the clamping reads it. *)
Definition keyCount (entry : EndpointProviderEntry) : Z :=
  Z.of_nat (length (Entry.keyOptions entry)).

(** The entry that an assignment under [id] in a loop over the entries
    ends with: the last one of that id. *)
Definition lastWithId (id : jsstring) (entries : list EndpointProviderEntry)
  : option EndpointProviderEntry :=
  last (filter (fun entry => Entry.id entry = id) entries).

(** A selection map whose indices are positions in the key lists of the
    entries they are stored for (0 for an entry without keys). *)
Definition validSelection (entries : list EndpointProviderEntry)
  (selection : gmap jsstring Z) : Prop :=
  forall entry index,
    entry ∈ entries ->
    selection !! Entry.id entry = Some index ->
    clampKeyIndex index (keyCount entry) = index.

(** The entries that a loop over a collection pushes: one for each item,
    with the orders counted up from [order] and the indices from
    [index]. *)
Fixpoint pushedEntries {A} (entryOf : N -> A -> nat -> EndpointProviderEntry)
  (order : N) (index : nat) (items : list A) : list EndpointProviderEntry :=
  match items with
  | [] => []
  | item :: rest =>
      entryOf order item index :: pushedEntries entryOf (order + 1)%N (S index) rest
  end.

(** The identifiers of the entries of a collection of [n] items. *)
Definition configuredIds (kind : jsstring) (n : nat) : list jsstring :=
  (fun index => "configured:" ++ kind ++ ":" ++ JsString.ofZ (Z.of_nat index)) <$> seq 0 n.

(** The five collections of a configuration, by their lengths. *)
Definition collectionSizes (config : Config) : list (jsstring * nat) :=
  [ ("openai", length (default [] (Config.openaiCompatibility config)));
    ("codex", length (default [] (Config.codexApiKeys config)));
    ("claude", length (default [] (Config.claudeApiKeys config)));
    ("gemini", length (default [] (Config.geminiApiKeys config)));
    ("vertex", length (default [] (Config.vertexApiKeys config))) ].



(** Pending calls settle one after the other, each with the outcome of the
    model resolution of its entry. *)
Definition settleCalls (t : jsstring -> jsstring)
  (outcome : EndpointProviderEntry -> Settled (list ModelInfo))
  (page : Page.t) (calls : list (EndpointProviderEntry * N)) : Page.t :=
  foldl (fun page call => refreshSingle_settle t call.1 call.2 (outcome call.1) page)
    page calls.


(** A text that does not end in a slash. *)
Definition noTrailingSlash (s : jsstring) : Prop := last s <> Some "/"%char.

(** A text that ends, up to letter case, in the given suffix. *)
Definition endsWithUpToCase (s suffix : jsstring) : Prop :=
  exists stem ending, s = stem ++ ending /\ sameUpToCase suffix ending.

(** The value that [buildMergedSettings] leaves under a slot key. *)
Definition mergedSlotText (providerEntries : list EndpointProviderEntry)
  (modelsByProvider : gmap jsstring ProviderModelsState)
  (state : AgentSettings.State.t) (baseSettings : AgentSettings.ClaudeSettings)
  (key : AgentSettings.ModelSlotKey) : jsstring :=
  if AgentSettings.slotChanged state key
  then AgentSettings.buildModelValueForSlot providerEntries modelsByProvider state key
         (AgentSettings.State.dirtyEnv state key) None
  else normalizeText (AgentSettings.envValue (Some baseSettings) key).

(** A slot value that a settings file holds in the form the page writes:
    a text that is not empty and has no white space around it. *)
Definition plainSlotValue (value : JsVal) : Prop :=
  exists text, value = JStr text /\ text <> [] /\ JsString.trim text = text.

(** A text that has the keyword in it, whatever the letter case. *)
Definition mentions (text keyword : jsstring) : Prop :=
  exists before found rest,
    text = before ++ found ++ rest /\ sameUpToCase keyword found.

(** What the filter of [uniqueModels] keeps of a model: the model itself,
    under its key. *)
Definition uniqueItem (model : ModelInfo) : option (jsstring * ModelInfo) :=
  if decide (modelKey model = []) then None else Some (modelKey model, model).

(** A method of a file handle that is there and answers that the
    permission is granted. *)
Definition answersGranted
  (method : option (FileSystemAccess.PermissionMode.t
                    -> Settled FileSystemAccess.PermissionState.t))
  (mode : FileSystemAccess.PermissionMode.t) : Prop :=
  exists ask, method = Some ask
              /\ ask mode = Fulfilled FileSystemAccess.PermissionState.granted.

(** A method of a file handle that is there and throws. *)
Definition answersThrow
  (method : option (FileSystemAccess.PermissionMode.t
                    -> Settled FileSystemAccess.PermissionState.t))
  (mode : FileSystemAccess.PermissionMode.t) : Prop :=
  exists ask error, method = Some ask /\ ask mode = Rejected error.

(* ################################################################# *)
(** * Part III: properties *)


(** ** Strings *)

Lemma toLowerCase_nil s : JsString.toLowerCase s = [] <-> s = [].
Proof. by destruct s. Qed.

Lemma isEmpty_true s : JsString.isEmpty s = true <-> s = [].
Proof. by destruct s. Qed.

Lemma isEmpty_false s : JsString.isEmpty s = false <-> s <> [].
Proof. by destruct s. Qed.

Lemma trimStart_suffix s :
  exists p, s = p ++ JsString.trimStart s /\ Forall (fun c => JsString.isWhiteSpace c = true) p.
Proof.
  induction s as [|c s (p & Hs & Hp)]; simpl.
  - by exists [].
  - destruct (JsString.isWhiteSpace c) eqn:Hc.
    + exists (c :: p). split; [by rewrite <- app_comm_cons, <- Hs|by constructor].
    + by exists [].
Qed.

Lemma trimStart_noLeadingSpace s : noLeadingSpace (JsString.trimStart s).
Proof.
  induction s as [|c s IH]; simpl; [done|].
  by destruct (JsString.isWhiteSpace c) eqn:Hc.
Qed.

Lemma trimStart_fixed s : noLeadingSpace s -> JsString.trimStart s = s.
Proof. destruct s as [|c s]; simpl; [done|]. by intros ->. Qed.

Lemma trim_idemp s : JsString.trim (JsString.trim s) = JsString.trim s.
Proof.
  unfold JsString.trim, JsString.trimEnd.
  set (u := JsString.trimStart s).
  assert (Hu : noLeadingSpace u) by apply trimStart_noLeadingSpace.
  destruct (trimStart_suffix (rev u)) as (p & Hrev & Hp).
  set (v := JsString.trimStart (rev u)) in *.
  assert (Hv : noLeadingSpace v) by apply trimStart_noLeadingSpace.
  assert (Hrv : noLeadingSpace (rev v)).
  { assert (u = rev v ++ rev p) as Heq.
    { rewrite <- rev_app_distr, <- Hrev. by rewrite rev_involutive. }
    destruct (rev v) as [|c w]; [done|]. rewrite Heq in Hu. done. }
  rewrite (trimStart_fixed (rev v)) by done.
  rewrite rev_involutive. by rewrite (trimStart_fixed v).
Qed.

Lemma trim_fixed s :
  noLeadingSpace s -> noLeadingSpace (rev s) -> JsString.trim s = s.
Proof.
  intros Hs Hr. unfold JsString.trim, JsString.trimEnd.
  rewrite (trimStart_fixed s) by done. rewrite (trimStart_fixed (rev s)) by done.
  apply rev_involutive.
Qed.

Lemma trim_nil : JsString.trim [] = [].
Proof. done. Qed.

Lemma normalizeText_JStr s : normalizeText (JStr s) = JsString.trim s.
Proof. done. Qed.

Lemma normalizeText_ofOpt o : normalizeText (Js.ofOpt o) = JsString.trim (default [] o).
Proof. by destruct o. Qed.

(** ** First occurrences *)

Section FirstBy.

Context {A K : Type} `{EqDecision K} (key : A -> K).

Lemma firstBy_sublist l : firstBy key l `sublist_of` l.
Proof.
  induction l as [|x l IH]; simpl; [done|].
  apply sublist_skip. etrans; [apply sublist_filter|done].
Qed.

Lemma elem_of_firstBy_keys l k :
  k ∈ key <$> firstBy key l <-> k ∈ key <$> l.
Proof.
  induction l as [|x l IH]; simpl; [done|].
  rewrite !elem_of_cons, <- IH, !list_elem_of_fmap.
  split.
  - intros [->|(y & -> & [_ Hy]%list_elem_of_filter)]; [by left|].
    right. eauto.
  - intros [->|(y & -> & Hy)]; [by left|].
    destruct (decide (key y = key x)) as [Heq|Hne]; [by left|].
    right. exists y. split; [done|]. by apply list_elem_of_filter.
Qed.

Lemma firstBy_NoDup l : NoDup (key <$> firstBy key l).
Proof.
  induction l as [|x l IH]; simpl; [constructor|].
  apply NoDup_cons. split.
  - intros (y & Heq & [Hne _]%list_elem_of_filter)%list_elem_of_fmap. congruence.
  - apply (sublist_NoDup _ _ IH), fmap_sublist, sublist_filter.
Qed.

Lemma firstBy_filter_comm (P : A -> Prop) `{!forall x, Decision (P x)} l :
  (forall x y, key x = key y -> P x -> P y) ->
  filter P (firstBy key l) = firstBy key (filter P l).
Proof.
  intros HP. induction l as [|x l IH]; simpl; [done|].
  rewrite filter_cons. rewrite (filter_cons _ x l).
  destruct (decide (P x)) as [Hx|Hx]; simpl.
  - f_equal. rewrite <- IH, !list_filter_filter.
    apply list_filter_iff. intros y. tauto.
  - rewrite <- IH, list_filter_filter.
    apply list_filter_iff. intros y. split; [tauto|].
    intros Hy. split; [done|]. intros Heq. apply Hx. by apply (HP y).
Qed.

Lemma firstBy_snoc l x :
  firstBy key (l ++ [x])
  = if decide (key x ∈ key <$> l) then firstBy key l else firstBy key l ++ [x].
Proof.
  induction l as [|y l IH]; simpl.
  - done.
  - rewrite IH. destruct (decide (key x ∈ key <$> l)) as [Hin|Hout].
    + rewrite decide_True; [done|]. by right.
    + rewrite filter_app, filter_cons, filter_nil.
      destruct (decide (key x = key y)) as [Heq|Hne].
      * rewrite decide_False by tauto.
        rewrite decide_True by (rewrite Heq; by left). by rewrite app_nil_r.
      * rewrite decide_True by done.
        rewrite decide_False; [done|]. by intros [?|?]%elem_of_cons.
Qed.

Lemma filter_all (P : A -> Prop) `{!forall x, Decision (P x)} l :
  Forall P l -> filter P l = l.
Proof.
  induction 1 as [|x l HP _ IH]; [done|].
  by rewrite filter_cons_True, IH.
Qed.

Lemma firstBy_id l : NoDup (key <$> l) -> firstBy key l = l.
Proof.
  induction l as [|x l IH]; simpl; [done|].
  intros [Hx Hl]%NoDup_cons. rewrite IH by done. f_equal.
  apply filter_all, Forall_forall. intros y Hy Heq.
  apply Hx. rewrite <- Heq. by apply list_elem_of_fmap_2.
Qed.

Lemma elem_of_firstBy l x :
  x ∈ firstBy key l
  <-> exists before rest, l = before ++ x :: rest /\ key x ∉ (key <$> before).
Proof.
  induction l as [|y l IH] using rev_ind.
  - split; [by intros ?%elem_of_nil|]. by intros ([|??] & ? & ? & _).
  - rewrite firstBy_snoc. destruct (decide (key y ∈ key <$> l)) as [Hin|Hout].
    + rewrite IH. split.
      * intros (before & rest & -> & Hfirst).
        exists before, (rest ++ [y]). by rewrite <- app_assoc.
      * intros (before & rest & Heq & Hfirst).
        destruct rest as [|r rest _] using rev_ind.
        { apply app_inj_tail in Heq as [-> ->]. done. }
        rewrite app_comm_cons, app_assoc in Heq.
        apply app_inj_tail in Heq as [-> _]. eauto.
    + rewrite elem_of_app, IH, list_elem_of_singleton. split.
      * intros [(before & rest & -> & Hfirst)| ->].
        -- exists before, (rest ++ [y]). by rewrite <- app_assoc.
        -- exists l, []. done.
      * intros (before & rest & Heq & Hfirst).
        destruct rest as [|r rest _] using rev_ind.
        { apply app_inj_tail in Heq as [-> ->]. by right. }
        rewrite app_comm_cons, app_assoc in Heq.
        apply app_inj_tail in Heq as [-> _]. left. eauto.
Qed.

End FirstBy.

Lemma firstBy_fmap {A B K} `{EqDecision K} (key : B -> K) (f : A -> B) (l : list A) :
  firstBy key (f <$> l) = f <$> firstBy (key ∘ f) l.
Proof.
  induction l as [|x l IH]; csimpl; [done|].
  f_equal. rewrite IH. clear IH.
  induction (firstBy (key ∘ f) l) as [|y k IH]; csimpl; [done|].
  rewrite !filter_cons. csimpl. rewrite IH.
  by destruct (decide (key (f y) ≠ key (f x))).
Qed.

Lemma foldl_pointwise {A B} (f g : A -> B -> A) (l : list B) (a : A) :
  (forall a b, f a b = g a b) -> foldl f a l = foldl g a l.
Proof.
  intros Hfg. revert a. induction l as [|b l IH]; intros a; simpl; [done|].
  by rewrite Hfg, IH.
Qed.

Lemma foldl_pushUnseen {A B} (item : A -> option (jsstring * B))
  (seen : gset jsstring) (res : list B) (l : list A) :
  (foldl (pushUnseen item) (seen, res) l).2
  = res ++ (snd <$> filter (fun p => p.1 ∉ seen) (firstBy fst (omap item l))).
Proof.
  revert seen res. induction l as [|x l IH]; intros seen res; simpl.
  { by rewrite app_nil_r. }
  unfold pushUnseen at 2. destruct (item x) as [[k v]|]; simpl; [|apply IH].
  rewrite filter_cons. simpl. destruct (decide (k ∈ seen)) as [Hin|Hout].
  - rewrite decide_False by (intros Hn; by apply Hn). rewrite IH. do 2 f_equal.
    rewrite list_filter_filter. apply list_filter_iff.
    intros [k' v']. simpl. split; [|by intros [??]]. intros Hk'. split; [done|].
    by intros ->.
  - rewrite decide_True by done. rewrite IH, <- app_assoc. simpl. do 3 f_equal.
    rewrite list_filter_filter. apply list_filter_iff.
    intros [k' v']. simpl. rewrite elem_of_union, elem_of_singleton. tauto.
Qed.

Lemma foldl_pushUnseen_all {A B} (item : A -> option (jsstring * B)) (l : list A) :
  (foldl (pushUnseen item) (∅, []) l).2 = snd <$> firstBy fst (omap item l).
Proof.
  rewrite foldl_pushUnseen. simpl. f_equal.
  apply filter_all, Forall_forall. intros p _. apply not_elem_of_empty.
Qed.

(** ** The matcher *)

Section Exec.

Variable ic : bool.

Lemma exec_nil s : RegExp.exec ic [] s = match s with [] => Some [] | _ => None end.
Proof. done. Qed.

Lemma exec_one cs rest s :
  RegExp.exec ic ((cs, RegExp.One) :: rest) s
  = match s with
    | c :: s' =>
        if RegExp.accepts ic cs c then cons [c] <$> RegExp.exec ic rest s' else None
    | [] => None
    end.
Proof. done. Qed.

Lemma exec_star cs rest s :
  RegExp.exec ic ((cs, RegExp.Star) :: rest) s
  = match s with
    | c :: s' =>
        if RegExp.accepts ic cs c then
          match RegExp.exec ic ((cs, RegExp.Star) :: rest) s' with
          | Some (g :: caps) => Some ((c :: g) :: caps)
          | _ => cons [] <$> RegExp.exec ic rest s
          end
        else cons [] <$> RegExp.exec ic rest s
    | [] => cons [] <$> RegExp.exec ic rest s
    end.
Proof. by destruct s. Qed.

Lemma exec_plus cs rest s :
  RegExp.exec ic ((cs, RegExp.Plus) :: rest) s
  = match s with
    | c :: s' =>
        if RegExp.accepts ic cs c then
          match RegExp.exec ic ((cs, RegExp.Star) :: rest) s' with
          | Some (g :: caps) => Some ((c :: g) :: caps)
          | _ => None
          end
        else None
    | [] => None
    end.
Proof. done. Qed.

Lemma exec_star_sound cs rest s caps :
  (forall s' caps', RegExp.exec ic rest s' = Some caps' -> matches ic rest s' caps') ->
  RegExp.exec ic ((cs, RegExp.Star) :: rest) s = Some caps ->
  matches ic ((cs, RegExp.Star) :: rest) s caps.
Proof.
  intros IH. revert caps. induction s as [|c s IHs]; intros caps; rewrite exec_star.
  - destruct (RegExp.exec ic rest []) as [caps'|] eqn:Hrest; [|done].
    intros [= <-]. apply (matches_cons ic _ _ [] []); [by split|by apply IH].
  - assert (Hstop : cons [] <$> RegExp.exec ic rest (c :: s) = Some caps ->
                    matches ic ((cs, RegExp.Star) :: rest) (c :: s) caps).
    { destruct (RegExp.exec ic rest (c :: s)) as [caps'|] eqn:Hrest; [|done].
      intros [= <-]. apply (matches_cons ic _ _ [] (c :: s)); [by split|by apply IH]. }
    destruct (RegExp.accepts ic cs c) eqn:Hc; [|done].
    destruct (RegExp.exec ic ((cs, RegExp.Star) :: rest) s) as [[|g caps']|] eqn:Hstar;
      [done| |done].
    intros [= <-]. specialize (IHs _ eq_refl).
    inversion IHs as [|t ts g' s2 caps2 [Hg _] Hm]; subst.
    apply (matches_cons ic _ _ (c :: g) s2); [|done].
    split; [by constructor|done].
Qed.

Lemma exec_sound ts s caps :
  RegExp.exec ic ts s = Some caps -> matches ic ts s caps.
Proof.
  revert s caps. induction ts as [|[cs q] rest IH]; intros s caps.
  - rewrite exec_nil. destruct s; [|done]. intros [= <-]. constructor.
  - destruct q.
    + rewrite exec_one. destruct s as [|c s]; [done|].
      destruct (RegExp.accepts ic cs c) eqn:Hc; [|done].
      destruct (RegExp.exec ic rest s) as [caps'|] eqn:Hrest; [|done].
      intros [= <-]. apply (matches_cons ic _ _ [c] s); [|by apply IH].
      split; [by repeat constructor|done].
    + by apply exec_star_sound.
    + rewrite exec_plus. destruct s as [|c s]; [done|].
      destruct (RegExp.accepts ic cs c) eqn:Hc; [|done].
      destruct (RegExp.exec ic ((cs, RegExp.Star) :: rest) s) as [[|g caps']|] eqn:Hstar;
        [done| |done].
      intros [= <-]. apply exec_star_sound in Hstar; [|done].
      inversion Hstar as [|t ts g' s2 caps2 [Hg _] Hm]; subst.
      apply (matches_cons ic _ _ (c :: g) s2); [|done].
      split; [by constructor|simpl; lia].
Qed.

Lemma matches_length ts s caps : matches ic ts s caps -> length caps = length ts.
Proof. induction 1; simpl; congruence. Qed.

Lemma exec_star_complete cs rest g s :
  Forall (fun c => RegExp.accepts ic cs c = true) g ->
  is_Some (RegExp.exec ic rest s) ->
  is_Some (RegExp.exec ic ((cs, RegExp.Star) :: rest) (g ++ s)).
Proof.
  intros Hg [caps Hrest].
  assert (Hstop : forall s0, is_Some (RegExp.exec ic rest s0) ->
                    is_Some (RegExp.exec ic ((cs, RegExp.Star) :: rest) s0)).
  { intros s0 [caps0 Hs0]. rewrite exec_star, Hs0.
    destruct s0 as [|c s0]; [done|].
    destruct (RegExp.accepts ic cs c); [|done].
    by destruct (RegExp.exec ic ((cs, RegExp.Star) :: rest) s0) as [[|??]|]. }
  induction Hg as [|c g Hc Hg IH]; cbn [app].
  - apply Hstop. by exists caps.
  - rewrite exec_star, Hc. destruct IH as [caps' Hstar]. rewrite Hstar.
    pose proof (matches_length _ _ _ (exec_sound _ _ _ Hstar)) as Hlen.
    by destruct caps'.
Qed.

Lemma exec_complete ts s caps :
  matches ic ts s caps -> is_Some (RegExp.exec ic ts s).
Proof.
  induction 1 as [|[cs q] ts g s caps [Hg Hq] Hm IH]; [done|].
  cbn [fst snd] in Hg, Hq. destruct q.
  - destruct g as [|c [|??]]; try done. apply Forall_cons in Hg as [Hc _].
    cbn [app]. rewrite exec_one, Hc. destruct IH as [caps' ->]. done.
  - by apply exec_star_complete.
  - destruct g as [|c g]; [simpl in Hq; lia|].
    apply Forall_cons in Hg as [Hc Hg].
    cbn [app]. rewrite exec_plus, Hc.
    destruct (exec_star_complete cs ts g s Hg IH) as [caps' Hstar]. rewrite Hstar.
    pose proof (matches_length _ _ _ (exec_sound _ _ _ Hstar)) as Hlen.
    by destruct caps'.
Qed.

End Exec.

(** ** Key masking *)

Lemma slice_prefix {A} (s : list A) (n : nat) :
  slice s 0 (Some (Z.of_nat n)) = take n s.
Proof.
  unfold slice. simpl.
  destruct (Z.ltb_spec (Z.of_nat n) 0) as [?|_]; [lia|].
  rewrite (Z.min_l 0) by lia. rewrite Z.sub_0_r. change (Z.to_nat 0) with 0.
  rewrite drop_0.
  destruct (Z.min_spec (Z.of_nat n) (Z.of_nat (length s))) as [[? ->]|[? ->]].
  - by rewrite Nat2Z.id.
  - rewrite Nat2Z.id. by rewrite !take_ge by lia.
Qed.

Lemma slice_suffix {A} (s : list A) (n : nat) :
  0 < n -> n <= length s ->
  slice s (- Z.of_nat n) None = drop (length s - n) s.
Proof.
  intros Hpos Hle. unfold slice.
  destruct (Z.ltb_spec (- Z.of_nat n) 0) as [_|?]; [|lia].
  rewrite Z.max_l by lia.
  replace (Z.to_nat (Z.of_nat (length s) + - Z.of_nat n)) with (length s - n) by lia.
  apply take_ge. rewrite length_drop. lia.
Qed.

(** C10. A key of at most eight code units is masked by eight bullets; a
    longer key shows its first five and last four code units around
    [min (length - 8) 16] bullets, so a key of nine code units is shown
    whole, with one bullet after its fifth code unit. *)
Theorem maskKey_discloses (key : list N) :
  (length key <= 8 -> maskKey key = replicate 8 bullet)
  /\ (9 <= length key ->
      maskKey key
      = take 5 key
        ++ replicate (Nat.min (length key - 8) 16) bullet
        ++ drop (length key - 4) key)
  /\ (length key = 9 ->
      maskKey key = take 5 key ++ bullet :: drop 5 key
      /\ take 5 (maskKey key) ++ drop 6 (maskKey key) = key).
Proof.
  assert (Hlong : 9 <= length key ->
      maskKey key
      = take 5 key
        ++ replicate (Nat.min (length key - 8) 16) bullet
        ++ drop (length key - 4) key).
  { intros Hlen. unfold maskKey.
    destruct (Z.leb_spec (Z.of_nat (length key)) 8) as [?|_]; [lia|].
    change 5%Z with (Z.of_nat 5). rewrite slice_prefix.
    change (-4)%Z with (- Z.of_nat 4)%Z. rewrite slice_suffix by lia.
    do 3 f_equal. lia. }
  split; [|split; [exact Hlong|]].
  - intros Hlen. unfold maskKey.
    by destruct (Z.leb_spec (Z.of_nat (length key)) 8) as [_|?]; [|lia].
  - intros Hlen. rewrite Hlong by lia. clear Hlong.
    do 10 (destruct key as [|? key]; simplify_eq/=). done.
Qed.

Lemma maskKey_discloses_witness :
  maskKey [115; 107; 45; 49; 50; 51; 52; 53; 54]%N
  = [115; 107; 45; 49; 50; 8226; 51; 52; 53; 54]%N.
Proof.
  apply (proj1 (proj2 (proj2 (maskKey_discloses [115; 107; 45; 49; 50; 51; 52; 53; 54]%N)) eq_refl)).
Defined.

(** ** [dedupeModels] *)

Lemma alias_choice (a key : jsstring) :
  (if negb (JsString.isEmpty a) && negb (bool_decide (JsString.toLowerCase a = key))
   then Some a else None)
  = (if decide (a = [] \/ JsString.toLowerCase a = key) then None else Some a).
Proof.
  destruct (decide (a = [] \/ JsString.toLowerCase a = key)) as [[->|Heq]|Hn].
  - done.
  - rewrite bool_decide_eq_true_2 by done. by rewrite andb_false_r.
  - destruct a as [|c a]; [exfalso; apply Hn; by left|].
    rewrite bool_decide_eq_false_2; [done|]. intros ?. apply Hn. by right.
Qed.

Lemma description_choice (d : jsstring) :
  (if negb (JsString.isEmpty d) then Some d else None)
  = (if decide (d = []) then None else Some d).
Proof. by destruct (decide (d = [])) as [->|?]; [|destruct d]. Qed.

Lemma dedupeModels_each_pushUnseen acc model :
  dedupeModels_each acc model = pushUnseen dedupeItem acc model.
Proof.
  destruct acc as [seen result].
  unfold dedupeModels_each, pushUnseen, dedupeItem, cleanModel, modelKey.
  rewrite normalizeText_JStr, !normalizeText_ofOpt.
  rewrite alias_choice, description_choice.
  destruct (JsString.isEmpty (JsString.trim (ModelInfo.name model))) eqn:Hname.
  - apply isEmpty_true in Hname. rewrite Hname. done.
  - apply isEmpty_false in Hname.
    destruct (decide (JsString.toLowerCase _ = [])) as [He|_].
    { by apply (proj1 (toLowerCase_nil _)) in He. }
    done.
Qed.

Lemma omap_dedupeItem (models : list ModelInfo) :
  omap dedupeItem models
  = (fun m => (modelKey m, cleanModel m))
      <$> filter (fun m => modelKey m <> []) models.
Proof.
  induction models as [|m models IH]; [done|].
  rewrite filter_cons. csimpl. unfold dedupeItem at 1.
  destruct (decide (modelKey m = [])) as [He|Hne].
  - by rewrite decide_False by (intros Hn; by apply Hn).
  - rewrite decide_True by done. csimpl. by rewrite IH.
Qed.

Lemma dedupeModels_firstBy (models : list ModelInfo) :
  dedupeModels models
  = cleanModel <$> firstBy modelKey (filter (fun m => modelKey m <> []) models).
Proof.
  unfold dedupeModels.
  rewrite (foldl_pointwise _ (pushUnseen dedupeItem))
    by apply dedupeModels_each_pushUnseen.
  rewrite foldl_pushUnseen_all, omap_dedupeItem, firstBy_fmap.
  by rewrite <- list_fmap_compose.
Qed.

Lemma modelKey_cleanModel model : modelKey (cleanModel model) = modelKey model.
Proof. unfold modelKey. simpl. by rewrite trim_idemp. Qed.

Lemma cleanModel_idemp model : cleanModel (cleanModel model) = cleanModel model.
Proof.
  unfold cleanModel at 1. rewrite modelKey_cleanModel.
  unfold cleanModel.
  cbn [ModelInfo.name ModelInfo.alias ModelInfo.description].
  rewrite trim_idemp. f_equal.
  - destruct (decide (JsString.trim (default [] (ModelInfo.alias model)) = [] \/ _))
      as [H|H]; cbn [from_option id].
    + rewrite trim_nil. apply decide_True. by left.
    + rewrite trim_idemp. by apply decide_False.
  - destruct (decide (JsString.trim (default [] (ModelInfo.description model)) = []))
      as [H|H]; cbn [from_option id].
    + rewrite trim_nil. by apply decide_True.
    + rewrite trim_idemp. by apply decide_False.
Qed.

Lemma dedupeModels_filter_firstBy (models : list ModelInfo) :
  dedupeModels models
  = cleanModel <$> filter (fun m => modelKey m <> []) (firstBy modelKey models).
Proof.
  rewrite dedupeModels_firstBy. f_equal. symmetry.
  apply firstBy_filter_comm. by intros x y ->.
Qed.

Lemma elem_of_dedupeModels (models : list ModelInfo) out :
  out ∈ dedupeModels models
  <-> exists before model rest,
        models = before ++ (model :: rest)
        /\ modelKey model <> []
        /\ (modelKey model ∉ modelKey <$> before)
        /\ out = cleanModel model.
Proof.
  rewrite dedupeModels_filter_firstBy, list_elem_of_fmap. split.
  - intros (m & -> & [Hne Hm]%list_elem_of_filter).
    apply elem_of_firstBy in Hm as (before & rest & -> & Hfirst).
    by exists before, m, rest.
  - intros (before & m & rest & -> & Hne & Hfirst & ->).
    exists m. split; [done|]. apply list_elem_of_filter. split; [done|].
    apply elem_of_firstBy. by exists before, rest.
Qed.

Lemma dedupeModels_keys_nonempty (models : list ModelInfo) :
  Forall (fun m => modelKey m <> []) (dedupeModels models).
Proof.
  apply Forall_forall. intros out.
  intros (before & m & rest & _ & Hne & _ & ->)%elem_of_dedupeModels.
  by rewrite modelKey_cleanModel.
Qed.

Lemma dedupeModels_keys_NoDup (models : list ModelInfo) :
  NoDup (modelKey <$> dedupeModels models).
Proof.
  rewrite dedupeModels_firstBy, <- list_fmap_compose.
  erewrite list_fmap_ext; [apply firstBy_NoDup|].
  intros _ m _. apply modelKey_cleanModel.
Qed.

Lemma dedupeModels_idemp (models : list ModelInfo) :
  dedupeModels (dedupeModels models) = dedupeModels models.
Proof.
  rewrite (dedupeModels_firstBy (dedupeModels models)).
  rewrite filter_all by apply dedupeModels_keys_nonempty.
  rewrite firstBy_id by apply dedupeModels_keys_NoDup.
  rewrite dedupeModels_firstBy at 1 2. rewrite <- list_fmap_compose.
  apply list_fmap_ext. intros _ m _. apply cleanModel_idemp.
Qed.

(** C8. [dedupeModels] is idempotent, and its result is the normal form of
    the first model of each non-empty key, in the order of the input: the
    keys of the result are distinct, each entry comes from an input model
    whose key no earlier model has, and every such model has its entry. *)
Theorem dedupeModels_idempotent_first_seen (models : list ModelInfo) :
  dedupeModels (dedupeModels models) = dedupeModels models
  /\ dedupeModels models
     = cleanModel <$> firstBy modelKey (filter (fun m => modelKey m <> []) models)
  /\ NoDup (modelKey <$> dedupeModels models)
  /\ (exists kept, kept `sublist_of` models /\ dedupeModels models = cleanModel <$> kept)
  /\ (forall out,
        out ∈ dedupeModels models
        <-> exists before model rest,
              models = before ++ (model :: rest)
              /\ modelKey model <> []
              /\ (modelKey model ∉ modelKey <$> before)
              /\ out = cleanModel model).
Proof.
  split; [apply dedupeModels_idemp|].
  split; [apply dedupeModels_firstBy|].
  split; [apply dedupeModels_keys_NoDup|].
  split; [|apply elem_of_dedupeModels].
  eexists. split; [|apply dedupeModels_firstBy].
  etrans; [apply firstBy_sublist|apply sublist_filter].
Qed.

(** ** [normalizeApiKeyList] *)

Lemma omap_nonempty {B} (key : jsstring -> B) (text : JsVal -> jsstring)
  (items : list JsVal) :
  omap (fun item => if decide (text item = []) then None
                    else Some (key (text item), text item)) items
  = (fun k => (key k, k)) <$> filter (fun k => k <> []) (text <$> items).
Proof.
  induction items as [|item items IH]; [done|].
  csimpl. rewrite filter_cons.
  destruct (decide (text item = [])) as [He|Hne].
  - by rewrite decide_False by (intros Hn; by apply Hn).
  - rewrite decide_True by done. csimpl. by rewrite IH.
Qed.

Lemma pushUnseen_nonempty_firstBy (key : jsstring -> jsstring)
  (text : JsVal -> jsstring) (items : list JsVal) :
  (foldl (pushUnseen (fun item => if decide (text item = []) then None
                                  else Some (key (text item), text item)))
         (∅, []) items).2
  = firstBy key (filter (fun k => k <> []) (text <$> items)).
Proof.
  rewrite foldl_pushUnseen_all, omap_nonempty, firstBy_fmap.
  rewrite <- list_fmap_compose. apply list_fmap_id.
Qed.

Lemma normalizeApiKeyList_firstBy items :
  normalizeApiKeyList (JArr items)
  = firstBy JsString.toLowerCase (filter (fun k => k <> []) (apiKeyText <$> items)).
Proof.
  unfold normalizeApiKeyList.
  rewrite <- (pushUnseen_nonempty_firstBy JsString.toLowerCase apiKeyText).
  f_equal. apply foldl_pointwise. intros [seen keys] item.
  unfold normalizeApiKeyList_each, pushUnseen. fold (apiKeyText item).
  destruct (decide (apiKeyText item = [])) as [->|Hne]; [done|].
  by apply isEmpty_false in Hne as ->.
Qed.

Lemma EndpointsPage_normalizeApiKeyList_firstBy items :
  EndpointsPage.normalizeApiKeyList (JArr items) = distinctApiKeys (JArr items).
Proof.
  unfold EndpointsPage.normalizeApiKeyList, distinctApiKeys.
  rewrite <- (pushUnseen_nonempty_firstBy id apiKeyText).
  f_equal. apply foldl_pointwise. intros [seen keys] item.
  unfold EndpointsPage.normalizeApiKeyList_each, pushUnseen.
  change (JsString.trim (Js.toString (Js.coalesce (apiKeyValue item) (JStr ""))))
    with (apiKeyText item).
  destruct (decide (apiKeyText item = [])) as [->|Hne]; [done|].
  apply isEmpty_false in Hne as ->. simpl.
  by case_bool_decide; rewrite ?decide_True, ?decide_False by done.
Qed.

(** C2, as far as it holds.  The list produced by the pipeline's
    [normalizeApiKeyList] keeps, in order, the non-empty trimmed keys read
    from the elements, one per key up to letter case (the first spelling);
    the function of the same name in the earlier endpoints page keeps one
    per exact key.  On the example of the specification both give a, b. *)
Theorem normalizeApiKeyList_first_spelling (items : list JsVal) :
  normalizeApiKeyList (JArr items)
  = firstBy JsString.toLowerCase (filter (fun k => k <> []) (apiKeyText <$> items))
  /\ EndpointsPage.normalizeApiKeyList (JArr items)
     = firstBy id (filter (fun k => k <> []) (apiKeyText <$> items))
  /\ normalizeApiKeyList
       (JArr [JObj [("api-key", JStr "a")]; JStr "a"; JObj [("apiKey", JStr "b")]])
     = ["a"; "b"]
  /\ (forall s, apiKeyText (JStr s) = JsString.trim s)
  /\ (forall record,
        apiKeyText (JObj record)
        = normalizeText
            (Js.coalesce (Js.getProp record "api-key")
               (Js.coalesce (Js.getProp record "apiKey")
                  (Js.coalesce (Js.getProp record "key") (Js.getProp record "Key"))))).
Proof.
  split; [apply normalizeApiKeyList_firstBy|].
  split; [apply EndpointsPage_normalizeApiKeyList_firstBy|].
  split; [by vm_compute|]. done.
Qed.

(** C2 as stated fails: two keys that differ only in letter case are kept
    as one, where exact comparison keeps both. *)
Lemma normalizeApiKeyList_folds_case :
  normalizeApiKeyList (JArr [JStr "sk-Ab"; JStr "sk-ab"]) = ["sk-Ab"]
  /\ distinctApiKeys (JArr [JStr "sk-Ab"; JStr "sk-ab"]) = ["sk-Ab"; "sk-ab"]
  /\ normalizeApiKeyList (JArr [JStr "sk-Ab"; JStr "sk-ab"])
     <> distinctApiKeys (JArr [JStr "sk-Ab"; JStr "sk-ab"]).
Proof. by vm_compute. Qed.

(** ** [matchExcludePattern] *)

Lemma allChars_forall (P : ascii -> bool) :
  forallb P allChars = true -> forall c, P c = true.
Proof.
  intros Hall c. rewrite forallb_forall in Hall. apply Hall.
  unfold allChars. apply list_elem_of_In, list_elem_of_fmap.
  exists (nat_of_ascii c). split; [by rewrite ascii_nat_embedding|].
  apply elem_of_seq. pose proof (nat_ascii_bounded c). lia.
Qed.

Lemma isWhiteSpace_lowerChar c :
  JsString.isWhiteSpace (JsString.lowerChar c) = JsString.isWhiteSpace c.
Proof.
  pose proof (allChars_forall (fun c =>
    bool_decide (JsString.isWhiteSpace (JsString.lowerChar c) = JsString.isWhiteSpace c))
    ltac:(by vm_compute) c) as Hc.
  by apply bool_decide_eq_true in Hc.
Qed.

Lemma lowerChar_idemp c : JsString.lowerChar (JsString.lowerChar c) = JsString.lowerChar c.
Proof.
  pose proof (allChars_forall (fun c =>
    bool_decide (JsString.lowerChar (JsString.lowerChar c) = JsString.lowerChar c))
    ltac:(by vm_compute) c) as Hc.
  by apply bool_decide_eq_true in Hc.
Qed.

Lemma toLowerCase_idemp s :
  JsString.toLowerCase (JsString.toLowerCase s) = JsString.toLowerCase s.
Proof.
  unfold JsString.toLowerCase. rewrite map_map. apply map_ext, lowerChar_idemp.
Qed.

Lemma toLowerCase_app a b :
  JsString.toLowerCase (a ++ b) = JsString.toLowerCase a ++ JsString.toLowerCase b.
Proof. apply map_app. Qed.

Lemma trimStart_toLowerCase s :
  JsString.trimStart (JsString.toLowerCase s) = JsString.toLowerCase (JsString.trimStart s).
Proof.
  induction s as [|c s IH]; simpl; [done|].
  rewrite isWhiteSpace_lowerChar. by destruct (JsString.isWhiteSpace c).
Qed.

Lemma trim_toLowerCase s :
  JsString.trim (JsString.toLowerCase s) = JsString.toLowerCase (JsString.trim s).
Proof.
  unfold JsString.trim, JsString.trimEnd. rewrite trimStart_toLowerCase.
  unfold JsString.toLowerCase at 1. rewrite <- map_rev.
  fold (JsString.toLowerCase (rev (JsString.trimStart s))).
  rewrite trimStart_toLowerCase. unfold JsString.toLowerCase. by rewrite map_rev.
Qed.

Lemma normalizeText_idemp value :
  normalizeText (JStr (normalizeText value)) = normalizeText value.
Proof. rewrite normalizeText_JStr. apply trim_idemp. Qed.

Lemma canonicalize_lowerChar a c :
  RegExp.canonicalize true a = RegExp.canonicalize true c
  <-> JsString.lowerChar a = JsString.lowerChar c.
Proof.
  assert (H : forall a c,
             bool_decide (RegExp.canonicalize true a = RegExp.canonicalize true c)
             = bool_decide (JsString.lowerChar a = JsString.lowerChar c)).
  { intros a' c'.
    pose proof (allChars_forall (fun a =>
      forallb (fun c =>
        bool_decide
          (bool_decide (RegExp.canonicalize true a = RegExp.canonicalize true c)
           = bool_decide (JsString.lowerChar a = JsString.lowerChar c))) allChars)) as Hall.
    specialize (Hall ltac:(by vm_compute) a').
    pose proof (allChars_forall _ Hall c') as Hc.
    by apply bool_decide_eq_true in Hc. }
  specialize (H a c). split; intros Heq.
  - rewrite bool_decide_eq_true_2 in H by done. symmetry in H.
    by apply bool_decide_eq_true in H.
  - rewrite (bool_decide_eq_true_2 (JsString.lowerChar a = _)) in H by done.
    by apply bool_decide_eq_true in H.
Qed.

Lemma compile_anchored body :
  RegExp.compile ("^" ++ body ++ "$") = RegExp.parseTerms body.
Proof.
  unfold RegExp.compile. simpl. rewrite rev_app_distr. simpl.
  by rewrite rev_involutive.
Qed.

Lemma headNotStar_escape segment rest :
  headNotStar rest -> headNotStar (escapeRegExp segment ++ rest).
Proof.
  intros Hrest. destruct segment as [|c segment]; [done|].
  unfold escapeRegExp. simpl. destruct (RegExp.isSyntaxChar c) eqn:Hc; simpl; [done|].
  intros ->. done.
Qed.

Lemma parseTerms_escaped c r :
  RegExp.isSyntaxChar c = true -> headNotStar r ->
  RegExp.parseTerms ("\"%char :: c :: r)
  = cons (RegExp.Lit c, RegExp.One) <$> RegExp.parseTerms r.
Proof.
  intros Hc Hr. destruct r as [|q r]; simpl; rewrite Hc; [done|].
  simpl in Hr. by apply Ascii.eqb_neq in Hr as ->.
Qed.

Lemma parseTerms_plain c r :
  RegExp.isSyntaxChar c = false -> headNotStar r ->
  RegExp.parseTerms (c :: r)
  = cons (RegExp.Lit c, RegExp.One) <$> RegExp.parseTerms r.
Proof.
  intros Hc Hr.
  assert (Ascii.eqb c "\" = false) as Hb by (apply Ascii.eqb_neq; by intros ->).
  assert (Ascii.eqb c "." = false) as Hd by (apply Ascii.eqb_neq; by intros ->).
  destruct r as [|q r]; simpl; rewrite Hb, Hc, Hd; [done|].
  simpl in Hr. by apply Ascii.eqb_neq in Hr as ->.
Qed.

Lemma parseTerms_dot_star r :
  RegExp.parseTerms ("." :: "*" :: r)%char
  = cons (RegExp.Dot, RegExp.Star) <$> RegExp.parseTerms r.
Proof. done. Qed.

Lemma parseTerms_escape segment rest :
  headNotStar rest ->
  RegExp.parseTerms (escapeRegExp segment ++ rest)
  = (fun ts => literalTerms segment ++ ts) <$> RegExp.parseTerms rest.
Proof.
  intros Hrest. induction segment as [|c segment IH].
  - simpl. by destruct (RegExp.parseTerms rest).
  - pose proof (headNotStar_escape segment rest Hrest) as Hhead.
    change (escapeRegExp (c :: segment) ++ rest)
      with (((if RegExp.isSyntaxChar c then ["\"; c]%char else [c])
             ++ escapeRegExp segment) ++ rest).
    rewrite <- app_assoc.
    destruct (RegExp.isSyntaxChar c) eqn:Hc; cbn [app].
    + rewrite parseTerms_escaped, IH by done.
      by destruct (RegExp.parseTerms rest).
    + rewrite parseTerms_plain, IH by done.
      by destruct (RegExp.parseTerms rest).
Qed.

Lemma parseTerms_join segments :
  RegExp.parseTerms (JsString.join ".*" (escapeRegExp <$> segments))
  = Some (globTerms segments).
Proof.
  induction segments as [|s [|s' segments] IH].
  - done.
  - csimpl. rewrite <- (app_nil_r (escapeRegExp s)).
    rewrite parseTerms_escape by done. simpl. by rewrite app_nil_r.
  - change (JsString.join ".*" (escapeRegExp <$> s :: s' :: segments))
      with (escapeRegExp s
            ++ "."%char :: "*"%char
               :: JsString.join ".*" (escapeRegExp <$> s' :: segments)).
    rewrite parseTerms_escape by done.
    rewrite parseTerms_dot_star, IH. done.
Qed.

Lemma sameUpToCase_cons a seg c prefix :
  sameUpToCase (a :: seg) (c :: prefix)
  <-> JsString.lowerChar a = JsString.lowerChar c /\ sameUpToCase seg prefix.
Proof.
  unfold sameUpToCase. simpl. split; [by intros [= ? ?]|by intros [-> ->]].
Qed.

Lemma matches_literalTerms segment ts s :
  (exists caps, matches true (literalTerms segment ++ ts) s caps)
  <-> exists prefix rest,
        s = prefix ++ rest /\ sameUpToCase segment prefix
        /\ exists caps, matches true ts rest caps.
Proof.
  revert s. induction segment as [|a segment IH]; intros s.
  - simpl. split.
    + intros [caps Hm]. exists [], s. split; [done|]. split; [done|]. by exists caps.
    + intros ([|??] & rest & -> & Hsame & Hm); [done|]. by inversion Hsame.
  - change (literalTerms (a :: segment) ++ ts)
      with ((RegExp.Lit a, RegExp.One) :: (literalTerms segment ++ ts)).
    split.
    + intros [caps Hm].
      inversion Hm as [|t ts' g s' caps' [Hg Hlen] Hrest]; subst.
      cbn [fst snd] in Hg, Hlen. destruct g as [|c [|??]]; try done.
      apply Forall_cons in Hg as [Hc _]. simpl in Hc.
      apply N.eqb_eq, canonicalize_lowerChar in Hc.
      destruct (proj1 (IH s') (ex_intro _ caps' Hrest))
        as (prefix & rest & -> & Hsame & Hts).
      exists (c :: prefix), rest. split; [done|]. split; [|done].
      by apply sameUpToCase_cons.
    + intros ([|c prefix] & rest & -> & Hsame & Hts); [by inversion Hsame|].
      apply sameUpToCase_cons in Hsame as [Hc Hsame].
      destruct (proj2 (IH (prefix ++ rest))) as [caps Hm].
      { by exists prefix, rest. }
      exists ([c] :: caps). apply (matches_cons true _ _ [c] (prefix ++ rest)); [|done].
      split; [|done]. constructor; [|done]. simpl.
      by apply N.eqb_eq, canonicalize_lowerChar.
Qed.

Lemma matches_dot_star ts s :
  (exists caps, matches true ((RegExp.Dot, RegExp.Star) :: ts) s caps)
  <-> exists gap rest,
        s = gap ++ rest
        /\ Forall (fun c => JsString.isLineTerminator c = false) gap
        /\ exists caps, matches true ts rest caps.
Proof.
  split.
  - intros [caps Hm]. inversion Hm as [|t ts' g s' caps' [Hg _] Hrest]; subst.
    exists g, s'. split; [done|]. split; [|by exists caps'].
    eapply Forall_impl; [exact Hg|]. intros c Hc. simpl in Hc.
    by apply negb_true_iff.
  - intros (gap & rest & -> & Hgap & caps & Hm).
    exists (gap :: caps). apply matches_cons; [|done]. split; [|done].
    eapply Forall_impl; [exact Hgap|]. intros c Hc. simpl. by rewrite Hc.
Qed.

Lemma matches_globTerms segments s :
  segments <> [] ->
  (exists caps, matches true (globTerms segments) s caps) <-> globMatch segments s.
Proof.
  intros Hne. revert s. induction segments as [|seg [|seg' segments] IH]; intros s; [done| |].
  - change (globTerms [seg]) with (literalTerms seg).
    rewrite <- (app_nil_r (literalTerms seg)), matches_literalTerms. split.
    + intros (prefix & rest & -> & Hsame & caps & Hm). inversion Hm; subst.
      rewrite app_nil_r. by constructor.
    + intros Hg. inversion Hg as [seg0 model Hsame|????? Hn]; subst; [|done].
      exists s, []. rewrite app_nil_r. split; [done|]. split; [done|].
      exists []. constructor.
  - change (globTerms (seg :: seg' :: segments))
      with (literalTerms seg ++ (RegExp.Dot, RegExp.Star) :: globTerms (seg' :: segments)).
    rewrite matches_literalTerms. split.
    + intros (prefix & rest & -> & Hsame & Hm).
      apply matches_dot_star in Hm as (gap & rest' & -> & Hgap & Hm).
      apply IH in Hm; [|done]. by constructor.
    + intros Hg. inversion Hg as [|seg0 segs prefix gap rest Hn Hsame Hgap Hrest]; subst.
      exists prefix, (gap ++ rest). split; [done|]. split; [done|].
      apply matches_dot_star. exists gap, rest. split; [done|]. split; [done|].
      by apply IH.
Qed.

Lemma test_true source ts ic s :
  RegExp.compile source = Some ts ->
  RegExp.test source ic s = true <-> exists caps, matches ic ts s caps.
Proof.
  intros Hc. unfold RegExp.test. rewrite Hc, bool_decide_eq_true. split.
  - intros [caps Hcaps]. exists caps. by apply exec_sound.
  - intros [caps Hm]. by eapply exec_complete.
Qed.

Lemma split_nonempty sep s : JsString.split sep s <> [].
Proof.
  destruct s as [|c s]; simpl; [done|].
  destruct (Ascii.eqb c sep); [done|]. by destruct (JsString.split sep s).
Qed.

Lemma join_split sep s : JsString.join [sep] (JsString.split sep s) = s.
Proof.
  induction s as [|c s IH]; simpl; [done|].
  destruct (Ascii.eqb_spec c sep) as [->|Hne].
  - pose proof (split_nonempty sep s).
    destruct (JsString.split sep s) as [|h t] eqn:Hs; [done|].
    simpl. simpl in IH. by rewrite IH.
  - pose proof (split_nonempty sep s).
    destruct (JsString.split sep s) as [|h t] eqn:Hs; [done|].
    destruct t; simpl in *; by rewrite IH.
Qed.

Lemma split_segments sep s : Forall (fun seg => sep ∉ seg) (JsString.split sep s).
Proof.
  induction s as [|c s IH]; simpl.
  - repeat constructor. apply not_elem_of_nil.
  - destruct (Ascii.eqb_spec c sep) as [->|Hne].
    + constructor; [apply not_elem_of_nil|done].
    + destruct (JsString.split sep s) as [|h t]; [repeat constructor|].
      * apply not_elem_of_cons. split; [done|apply not_elem_of_nil].
      * apply Forall_cons in IH as [Hh Ht]. constructor; [|done].
        apply not_elem_of_cons. by split.
Qed.

Lemma includes_elem_of s c : JsString.includes s c = true <-> c ∈ s.
Proof.
  unfold JsString.includes. rewrite existsb_exists. split.
  - intros (x & Hin & <-%Ascii.eqb_eq). by apply list_elem_of_In.
  - intros Hin. exists c. split; [by apply list_elem_of_In|apply Ascii.eqb_refl].
Qed.

(** C6. A pattern without a star matches the models equal to it up to
    letter case.  A pattern with stars is cut at its stars into literal
    segments; the expression built from it is, escaping undone, these
    segments joined by a repetition of any character, and it matches the
    models made of the segments in order, each up to letter case, with
    any text without line terminators in place of each star, and nothing
    before or after. *)
Theorem matchExcludePattern_glob (model pattern : jsstring) :
  let segments := JsString.split "*" pattern in
  (JsString.includes pattern "*" = false ->
     (matchExcludePattern model pattern = true <-> sameUpToCase model pattern))
  /\ (JsString.includes pattern "*" = true ->
        (matchExcludePattern model pattern = true <-> globMatch segments model))
  /\ JsString.join "*" segments = pattern
  /\ Forall (fun segment => "*"%char ∉ segment) segments
  /\ RegExp.compile ("^" ++ JsString.join ".*" (map escapeRegExp segments) ++ "$")
     = Some (globTerms segments)
  /\ matchExcludePattern "GPT-4-Preview" "gpt-*-preview" = true
  /\ matchExcludePattern "gpt-4" "gpt-*-preview" = false.
Proof.
  intros segments.
  assert (Hcompile :
    RegExp.compile ("^" ++ JsString.join ".*" (map escapeRegExp segments) ++ "$")
    = Some (globTerms segments)).
  { rewrite compile_anchored. apply parseTerms_join. }
  split; [|split; [|split; [|split; [|split; [done|by vm_compute]]]]].
  - intros Hstar. unfold matchExcludePattern. rewrite Hstar. simpl.
    by rewrite bool_decide_eq_true.
  - intros Hstar. unfold matchExcludePattern. rewrite Hstar. simpl.
    fold segments. rewrite (test_true _ _ _ _ Hcompile).
    apply matches_globTerms, split_nonempty.
  - apply join_split.
  - apply split_segments.
Qed.

Lemma matchExcludePattern_glob_witness :
  matchExcludePattern "Claude.3-OPUS" "claude.3-opus" = true
  /\ globMatch ["gemini-"; "-pro(exp)"] "Gemini-2.5-PRO(exp)".
Proof.
  split.
  - by apply (proj1 (matchExcludePattern_glob "Claude.3-OPUS" "claude.3-opus") eq_refl).
  - by apply (proj1 (proj2 (matchExcludePattern_glob "Gemini-2.5-PRO(exp)" "gemini-*-pro(exp)"))
                eq_refl).
Defined.

(** ** Model list builder *)

Lemma dedupeModels_singleton model :
  modelKey model <> [] -> dedupeModels [model] = [cleanModel model].
Proof.
  intros Hkey. rewrite dedupeModels_firstBy.
  rewrite filter_cons_True by done. done.
Qed.

Lemma cleanModel_normal (n a : jsstring) :
  JsString.trim n = n -> JsString.trim a = a -> a <> [] ->
  JsString.toLowerCase a <> JsString.toLowerCase n ->
  cleanModel {| ModelInfo.name := n; ModelInfo.alias := Some a;
                ModelInfo.description := None |}
  = {| ModelInfo.name := n; ModelInfo.alias := Some a;
       ModelInfo.description := None |}.
Proof.
  intros Hn Ha Hne Hdiff. unfold cleanModel, modelKey. simpl.
  rewrite Hn, Ha. rewrite decide_False; [done|]. by intros [?|?].
Qed.

Lemma elem_of_dedupeModels_first (before rest : list ModelInfo) model :
  modelKey model <> [] ->
  modelKey model ∉ modelKey <$> before ->
  cleanModel model ∈ dedupeModels (before ++ model :: rest).
Proof.
  intros Hkey Hfirst.
  apply elem_of_dedupeModels. by exists before, model, rest.
Qed.

Lemma convertConfiguredModel_flips (item : ConfiguredModel) :
  let rawName := JsString.trim (ConfiguredModel.name item) in
  let alias := JsString.trim (default [] (ConfiguredModel.alias item)) in
  rawName <> [] -> alias <> [] ->
  JsString.toLowerCase alias <> JsString.toLowerCase rawName ->
  convertConfiguredModel item
  = Some {| ModelInfo.name := alias; ModelInfo.alias := Some rawName;
            ModelInfo.description := None |}.
Proof.
  intros rawName alias Hname Halias Hdiff. unfold convertConfiguredModel.
  rewrite normalizeText_JStr, normalizeText_ofOpt.
  fold rawName alias.
  apply isEmpty_false in Hname as ->. apply isEmpty_false in Halias as ->.
  by rewrite bool_decide_eq_false_2.
Qed.

Lemma normalizeAuthApiModel_keeps (model : AuthApiModel) :
  let id := JsString.trim (AuthApiModel.id model) in
  let alias := JsString.trim (default [] (AuthApiModel.display_name model)) in
  id <> [] -> alias <> [] ->
  JsString.toLowerCase alias <> JsString.toLowerCase id ->
  normalizeAuthApiModel model
  = Some {| ModelInfo.name := id; ModelInfo.alias := Some alias;
            ModelInfo.description := None |}.
Proof.
  intros id alias Hid Halias Hdiff. unfold normalizeAuthApiModel.
  rewrite normalizeText_JStr, normalizeText_ofOpt.
  fold id alias.
  apply isEmpty_false in Hid as ->. apply isEmpty_false in Halias as ->.
  by rewrite bool_decide_eq_false_2.
Qed.

(** An entry with a trimmed name and a trimmed alias that differ up to
    case is produced by a conversion [f] for its item wherever no earlier
    item produces an entry of the same key. *)
Lemma converted_entry_in_output {A} (f : A -> option ModelInfo) (item : A)
  (n a : jsstring) :
  let entry := {| ModelInfo.name := n; ModelInfo.alias := Some a;
                  ModelInfo.description := None |} in
  f item = Some entry ->
  JsString.trim n = n -> JsString.trim a = a -> n <> [] -> a <> [] ->
  JsString.toLowerCase a <> JsString.toLowerCase n ->
  dedupeModels (omap f [item]) = [entry]
  /\ forall before rest,
       (modelKey entry ∉ modelKey <$> omap f before) ->
       entry ∈ dedupeModels (omap f (before ++ item :: rest)).
Proof.
  intros entry Hf Hn Ha Hne Hae Hdiff.
  assert (Hclean : cleanModel entry = entry) by by apply cleanModel_normal.
  assert (Hkey : modelKey entry <> []).
  { unfold modelKey, entry. simpl. rewrite Hn. by rewrite toLowerCase_nil. }
  split.
  - csimpl. rewrite Hf. csimpl. by rewrite dedupeModels_singleton, Hclean.
  - intros before rest Hfirst. rewrite omap_app. csimpl. rewrite Hf. csimpl.
    rewrite <- Hclean at 1. by apply elem_of_dedupeModels_first.
Qed.

(** C4, as far as it holds.  A configured model with a non-empty name
    whose alias is non-empty and differs from the name up to case becomes
    the entry named by the alias, with the name as its alias; a model of a
    credential-file listing with a non-empty id whose display name is
    non-empty and differs from the id up to case becomes the entry named
    by the id, with the display name as its alias (all texts trimmed).
    That entry is the whole result for a one-element list, and is in the
    result for a longer list when no earlier element yields an entry of
    the same name up to case. *)
Theorem alias_conventions_are_inverse :
  (forall item : ConfiguredModel,
     let rawName := JsString.trim (ConfiguredModel.name item) in
     let alias := JsString.trim (default [] (ConfiguredModel.alias item)) in
     let flipped := {| ModelInfo.name := alias; ModelInfo.alias := Some rawName;
                       ModelInfo.description := None |} in
     rawName <> [] -> alias <> [] ->
     JsString.toLowerCase alias <> JsString.toLowerCase rawName ->
     convertConfiguredModels (Some [item]) = [flipped]
     /\ forall before rest,
          (modelKey flipped ∉ modelKey <$> omap convertConfiguredModel before) ->
          flipped ∈ convertConfiguredModels (Some (before ++ item :: rest)))
  /\ (forall model : AuthApiModel,
        let id := JsString.trim (AuthApiModel.id model) in
        let alias := JsString.trim (default [] (AuthApiModel.display_name model)) in
        let kept := {| ModelInfo.name := id; ModelInfo.alias := Some alias;
                       ModelInfo.description := None |} in
        id <> [] -> alias <> [] ->
        JsString.toLowerCase alias <> JsString.toLowerCase id ->
        normalizeAuthApiModels [model] = [kept]
        /\ forall before rest,
             (modelKey kept ∉ modelKey <$> omap normalizeAuthApiModel before) ->
             kept ∈ normalizeAuthApiModels (before ++ model :: rest))
  /\ convertConfiguredModels
       (Some [ {| ConfiguredModel.name := "gpt-4";
                  ConfiguredModel.alias := Some "GPT-4 Turbo" |} ])
     = [ {| ModelInfo.name := "GPT-4 Turbo"; ModelInfo.alias := Some "gpt-4";
            ModelInfo.description := None |} ]
  /\ normalizeAuthApiModels
       [ {| AuthApiModel.id := "gpt-4";
            AuthApiModel.display_name := Some "GPT-4 Turbo" |} ]
     = [ {| ModelInfo.name := "gpt-4"; ModelInfo.alias := Some "GPT-4 Turbo";
            ModelInfo.description := None |} ].
Proof.
  split; [|split; [|split; by vm_compute]].
  - intros item rawName alias flipped Hname Halias Hdiff.
    unfold convertConfiguredModels.
    apply (converted_entry_in_output convertConfiguredModel item alias rawName);
      [by apply convertConfiguredModel_flips|apply trim_idemp|apply trim_idemp
      |done|done|congruence].
  - intros model id alias kept Hid Halias Hdiff.
    unfold normalizeAuthApiModels.
    apply (converted_entry_in_output normalizeAuthApiModel model id alias);
      [by apply normalizeAuthApiModel_keeps|apply trim_idemp|apply trim_idemp
      |done|done|done].
Qed.

Lemma alias_conventions_are_inverse_witness :
  convertConfiguredModels
    (Some [ {| ConfiguredModel.name := " claude-3-opus ";
               ConfiguredModel.alias := Some "Opus" |} ])
  = [ {| ModelInfo.name := "Opus"; ModelInfo.alias := Some "claude-3-opus";
         ModelInfo.description := None |} ]
  /\ normalizeAuthApiModels
       [ {| AuthApiModel.id := "claude-3-opus";
            AuthApiModel.display_name := Some "Opus " |} ]
     = [ {| ModelInfo.name := "claude-3-opus"; ModelInfo.alias := Some "Opus";
            ModelInfo.description := None |} ].
Proof.
  split.
  - apply (proj1 alias_conventions_are_inverse
             {| ConfiguredModel.name := " claude-3-opus ";
                ConfiguredModel.alias := Some "Opus" |}); by vm_compute.
  - apply (proj1 (proj2 alias_conventions_are_inverse)
             {| AuthApiModel.id := "claude-3-opus";
                AuthApiModel.display_name := Some "Opus " |}); by vm_compute.
Defined.

(** C4 as stated fails where the guard on the name applies: an item with
    an empty name is dropped although its alias is non-empty and differs
    from the name.  Nor does every item of a longer list have its entry:
    of two items whose aliases agree up to case only the first has. *)
Lemma nameless_item_is_dropped :
  convertConfiguredModels
    (Some [ {| ConfiguredModel.name := ""; ConfiguredModel.alias := Some "GPT-4 Turbo" |} ])
  = []
  /\ normalizeAuthApiModels
       [ {| AuthApiModel.id := ""; AuthApiModel.display_name := Some "GPT-4 Turbo" |} ]
     = []
  /\ convertConfiguredModels
       (Some [ {| ConfiguredModel.name := "gpt-4"; ConfiguredModel.alias := Some "Fast" |};
               {| ConfiguredModel.name := "gpt-5"; ConfiguredModel.alias := Some "FAST" |} ])
     = [ {| ModelInfo.name := "Fast"; ModelInfo.alias := Some "gpt-4";
            ModelInfo.description := None |} ].
Proof. by vm_compute. Qed.

(** ** Provider entry builder *)

Lemma elem_of_firstBy_id {K} `{EqDecision K} (l : list K) (k : K) :
  k ∈ firstBy id l <-> k ∈ l.
Proof.
  pose proof (elem_of_firstBy_keys id l k) as H. by rewrite !list_fmap_id in H.
Qed.

Lemma firstBy_id_NoDup {K} `{EqDecision K} (l : list K) : NoDup (firstBy id l).
Proof. pose proof (firstBy_NoDup id l) as H. by rewrite list_fmap_id in H. Qed.

Lemma sortBy_sorted {A} (key : A -> N) (l : list A) :
  StronglySorted (fun a b => (key a <= key b)%N) l -> JsMap.sortBy key l = l.
Proof.
  induction 1 as [|x l Hl IH Hx]; [done|].
  unfold JsMap.sortBy in *. simpl. rewrite IH.
  destruct l as [|y r]; [done|]. simpl.
  apply Forall_cons in Hx as [Hxy _].
  by apply N.leb_le in Hxy as ->.
Qed.

Lemma groupsFrom_snoc files i keys k :
  groupsFrom files i (keys ++ [k])
  = groupsFrom files i keys ++ [groupOf files (i + length keys) k].
Proof.
  revert i. induction keys as [|k' keys IH]; intros i; simpl.
  - by rewrite Nat.add_0_r.
  - rewrite IH. by rewrite Nat.add_succ_r.
Qed.

Lemma groupsFrom_keys files i keys : (groupsFrom files i keys).*1 = keys.
Proof. revert i. induction keys as [|k keys IH]; intros i; csimpl; [done|]. by rewrite IH. Qed.

Lemma groupsFrom_ext files files' i keys :
  (forall k, k ∈ keys -> membersOf k files' = membersOf k files) ->
  groupsFrom files' i keys = groupsFrom files i keys.
Proof.
  revert i. induction keys as [|k keys IH]; intros i Hsame; simpl; [done|].
  rewrite IH by (intros k' ?; apply Hsame; by right).
  unfold groupOf. rewrite Hsame by by left. done.
Qed.

Lemma groupsFrom_sorted files i keys :
  StronglySorted (fun a b => (Group.order a.2 <= Group.order b.2)%N)
    (groupsFrom files i keys)
  /\ Forall (fun a => (N.of_nat i <= Group.order a.2)%N) (groupsFrom files i keys).
Proof.
  revert i. induction keys as [|k keys IH]; intros i; simpl.
  - split; constructor.
  - destruct (IH (S i)) as [Hs Hf]. split.
    + constructor; [done|]. eapply Forall_impl; [exact Hf|].
      intros a Ha. simpl in *. lia.
    + constructor; [simpl; lia|]. eapply Forall_impl; [exact Hf|].
      intros a Ha. simpl in *. lia.
Qed.

Lemma JsMap_get_groupsFrom files i keys k :
  JsMap.get (groupsFrom files i keys) k = None <-> k ∉ keys.
Proof.
  revert i. induction keys as [|k' keys IH]; intros i; simpl.
  - split; [intros _; apply not_elem_of_nil|done].
  - rewrite not_elem_of_cons. destruct (decide (k' = k)) as [->|Hne].
    + split; [done|]. by intros [? _].
    + rewrite IH. split; [by intros ?; split|by intros [_ ?]].
Qed.

Lemma membersOf_snoc k files f :
  membersOf k (files ++ [f])
  = if decide (contributes f /\ fileKey f = k)
    then membersOf k files ++ [f] else membersOf k files.
Proof.
  unfold membersOf. rewrite !filter_app.
  rewrite (filter_cons _ f []), filter_nil.
  destruct (decide (contributes f)) as [Hc|Hc]; simpl.
  - rewrite (filter_cons _ f []), filter_nil.
    destruct (decide (fileKey f = k)) as [Hk|Hk].
    + by rewrite decide_True.
    + rewrite decide_False by tauto. by rewrite app_nil_r.
  - rewrite decide_False by tauto. by rewrite filter_nil, app_nil_r.
Qed.

Lemma membersOf_nil k files :
  membersOf k files = [] <-> k ∉ providerKeys files.
Proof.
  unfold membersOf, providerKeys.
  rewrite elem_of_firstBy_id, list_elem_of_fmap. split.
  - intros Hnil (f & -> & Hf). by eapply (filter_nil_not_elem_of _ _ f).
  - intros Hout.
    destruct (filter (fun f => fileKey f = k) (filter contributes files))
      as [|f l] eqn:Heq; [done|].
    exfalso. apply Hout. exists f.
    assert (f ∈ f :: l) as Hin by by left.
    rewrite <- Heq in Hin. by apply list_elem_of_filter in Hin as [<- ?].
Qed.

Lemma JsSet_add_firstBy (names : list jsstring) x :
  JsSet.add x (firstBy id names) = firstBy id (names ++ [x]).
Proof.
  unfold JsSet.add. rewrite firstBy_snoc, list_fmap_id.
  destruct (decide (x ∈ firstBy id names)) as [H1|H1];
    destruct (decide (id x ∈ names)) as [H2|H2]; try done; exfalso.
  - by apply H2, elem_of_firstBy_id.
  - by apply H1, elem_of_firstBy_id.
Qed.

Lemma update_groupsFrom files f i keys :
  contributes f -> NoDup keys ->
  (forall k, k ∈ keys -> membersOf k files <> []) ->
  JsMap.update (groupsFrom files i keys) (fileKey f) (addFile (fileName f))
  = groupsFrom (files ++ [f]) i keys.
Proof.
  intros Hc. revert i. induction keys as [|k keys IH]; intros i Hdup Hmem; simpl; [done|].
  apply NoDup_cons in Hdup as [Hk Hdup].
  destruct (decide (k = fileKey f)) as [->|Hne].
  - f_equal.
    + unfold groupOf, addFile. simpl. rewrite membersOf_snoc, decide_True by done.
      rewrite !fmap_app. simpl. rewrite JsSet_add_firstBy. do 2 f_equal.
      specialize (Hmem (fileKey f) ltac:(by left)).
      by destruct (membersOf (fileKey f) files).
    + symmetry. apply groupsFrom_ext. intros k' Hk'.
      rewrite membersOf_snoc, decide_False; [done|].
      intros [_ Heq]. apply Hk. by rewrite Heq.
  - f_equal.
    + unfold groupOf. rewrite membersOf_snoc, decide_False; [done|].
      intros [_ ?]. by apply Hne.
    + apply IH; [done|]. intros k' Hk'. apply Hmem. by right.
Qed.

Lemma providerKeys_snoc files f :
  providerKeys (files ++ [f])
  = if decide (contributes f /\ fileKey f ∉ providerKeys files)
    then providerKeys files ++ [fileKey f] else providerKeys files.
Proof.
  unfold providerKeys. rewrite filter_app, (filter_cons _ f []), filter_nil.
  destruct (decide (contributes f)) as [Hc|Hc]; simpl.
  - rewrite fmap_app. simpl. rewrite firstBy_snoc, list_fmap_id.
    destruct (decide (id (fileKey f) ∈ _)) as [Hin|Hout].
    + rewrite decide_False; [done|]. intros [_ Hn]. apply Hn.
      by apply elem_of_firstBy_id.
    + rewrite decide_True; [done|]. split; [done|]. by rewrite elem_of_firstBy_id.
  - rewrite app_nil_r. rewrite decide_False; [done|]. tauto.
Qed.

Lemma groupAuthFile_skip acc f :
  ¬ contributes f -> groupAuthFile acc f = acc.
Proof.
  destruct acc as [grouped order]. unfold contributes, groupAuthFile.
  fold (flagged f) (fileRawProvider f). fold (fileKey f) (fileName f).
  destruct (flagged f); [done|].
  destruct (JsString.isEmpty (fileKey f)); [done|].
  destruct (JsString.isEmpty (fileName f)); [done|]. simpl. tauto.
Qed.

Lemma groupAuthFile_contributes grouped order f :
  contributes f ->
  groupAuthFile (grouped, order) f
  = match JsMap.get grouped (fileKey f) with
    | Some _ => (JsMap.update grouped (fileKey f) (addFile (fileName f)), order)
    | None =>
        (grouped ++ [(fileKey f,
                      {| Group.label := fileRawProvider f; Group.order := order;
                         Group.files := [fileName f] |})],
         (order + 1)%N)
    end.
Proof.
  unfold contributes, groupAuthFile.
  fold (flagged f) (fileRawProvider f). fold (fileKey f) (fileName f).
  destruct (flagged f); [done|].
  destruct (JsString.isEmpty (fileKey f)); [done|].
  destruct (JsString.isEmpty (fileName f)); done.
Qed.

Lemma foldl_groupAuthFile files :
  foldl groupAuthFile ([], 0%N) files
  = (groupsFrom files 0 (providerKeys files),
     N.of_nat (length (providerKeys files))).
Proof.
  induction files as [|f files IH] using rev_ind; [done|].
  rewrite foldl_snoc, IH, providerKeys_snoc.
  destruct (decide (contributes f)) as [Hc|Hc].
  - rewrite groupAuthFile_contributes by done.
    destruct (JsMap.get _ _) as [g|] eqn:Hget.
    + assert (fileKey f ∈ providerKeys files) as Hin.
      { destruct (decide (fileKey f ∈ providerKeys files)) as [|Hout]; [done|].
        apply (proj2 (JsMap_get_groupsFrom files 0 _ _)) in Hout. congruence. }
      rewrite decide_False by tauto.
      rewrite update_groupsFrom; [done|done|apply firstBy_id_NoDup|].
      intros k Hk Hnil. by apply (proj1 (membersOf_nil _ _)) in Hnil.
    + apply (proj1 (JsMap_get_groupsFrom _ _ _ _)) in Hget.
      rewrite decide_True by done.
      rewrite groupsFrom_snoc, length_app. simpl. f_equal; [|lia].
      f_equal.
      * symmetry. apply groupsFrom_ext. intros k Hk.
        rewrite membersOf_snoc, decide_False; [done|]. intros [_ <-]. done.
      * unfold groupOf. rewrite membersOf_snoc, decide_True by done.
        apply (proj2 (membersOf_nil _ _)) in Hget as ->. done.
  - rewrite groupAuthFile_skip by done. rewrite decide_False by tauto.
    f_equal. symmetry. apply groupsFrom_ext. intros k _.
    rewrite membersOf_snoc, decide_False; [done|]. tauto.
Qed.

Lemma elem_of_groupsFrom files i keys kv :
  kv ∈ groupsFrom files i keys -> exists j, kv = groupOf files j kv.1 /\ kv.1 ∈ keys.
Proof.
  revert i. induction keys as [|k keys IH]; intros i; simpl.
  - by intros ?%elem_of_nil.
  - intros [->|Hin]%elem_of_cons.
    + exists i. split; [done|by left].
    + destruct (IH _ Hin) as (j & ? & ?). exists j. split; [done|by right].
Qed.

Lemma buildAuthProviderEntries_groupsFrom files aliasMap excludedMap baseUrl keyOptions :
  buildAuthProviderEntries files aliasMap excludedMap baseUrl keyOptions
  = (fun '(providerKey, data) =>
       {| Entry.id := "auth:" ++ providerKey;
          Entry.sourceKind := AuthProxy;
          Entry.providerKey := providerKey;
          Entry.name := Group.label data;
          Entry.baseUrl := baseUrl;
          Entry.keyOptions := keyOptions;
          Entry.order := Group.order data;
          Entry.configuredModels := None;
          Entry.authFileNames := Some (Group.files data);
          Entry.aliasLookup := Some (buildAliasLookup (aliasMap !! providerKey));
          Entry.excludedPatterns :=
            Some (normalizeExcludedPatterns (excludedMap !! providerKey));
          Entry.realBaseUrl := None;
          Entry.realKeyOptions := None |})
      <$> groupsFrom files 0 (providerKeys files).
Proof.
  unfold buildAuthProviderEntries. rewrite foldl_groupAuthFile. simpl.
  rewrite sortBy_sorted by apply groupsFrom_sorted. done.
Qed.

Lemma buildAuthProviderEntries_keys files aliasMap excludedMap baseUrl keyOptions :
  Entry.providerKey
    <$> buildAuthProviderEntries files aliasMap excludedMap baseUrl keyOptions
  = providerKeys files.
Proof.
  rewrite buildAuthProviderEntries_groupsFrom, <- list_fmap_compose.
  rewrite <- (groupsFrom_keys files 0 (providerKeys files)) at 2.
  apply list_fmap_ext. by intros _ [k g] _.
Qed.

Lemma buildAuthProviderEntries_entry files aliasMap excludedMap baseUrl keyOptions entry :
  entry ∈ buildAuthProviderEntries files aliasMap excludedMap baseUrl keyOptions ->
  Entry.authFileNames entry
  = Some (firstBy id (fileName <$> membersOf (Entry.providerKey entry) files))
  /\ Entry.id entry = "auth:" ++ Entry.providerKey entry
  /\ Entry.sourceKind entry = AuthProxy
  /\ membersOf (Entry.providerKey entry) files <> [].
Proof.
  rewrite buildAuthProviderEntries_groupsFrom.
  intros ([k g] & -> & Hkv)%list_elem_of_fmap.
  apply elem_of_groupsFrom in Hkv as (j & Hkv & Hk). simpl in Hkv, Hk.
  unfold groupOf in Hkv. injection Hkv as Hg. subst g. simpl.
  split; [done|]. split; [done|]. split; [done|].
  intros Hnil. by apply (proj1 (membersOf_nil _ _)) in Hnil.
Qed.

Lemma buildAuthProviderEntries_flagged before file after aliasMap excludedMap
  baseUrl keyOptions :
  flagged file = true ->
  buildAuthProviderEntries (before ++ file :: after) aliasMap excludedMap baseUrl keyOptions
  = buildAuthProviderEntries (before ++ after) aliasMap excludedMap baseUrl keyOptions.
Proof.
  intros Hflag. unfold buildAuthProviderEntries.
  rewrite !foldl_app. simpl. rewrite groupAuthFile_skip; [done|].
  unfold contributes. rewrite Hflag. simpl. tauto.
Qed.

Lemma isTruthyFlag_cases v :
  isTruthyFlag v = true
  <-> v = JBool true
      \/ (exists z, v = JNum z /\ z <> 0%Z)
      \/ (exists s, v = JStr s
                    /\ JsString.toLowerCase (JsString.trim s)
                         ∈ ["true"; "1"; "yes"; "y"; "on"]).
Proof.
  destruct v as [| |[]|z|s|items|props]; simpl.
  - split; [done|]. by intros [?|[(?&?&?)|(?&?&?)]].
  - split; [done|]. by intros [?|[(?&?&?)|(?&?&?)]].
  - split; [by left|done].
  - split; [done|]. by intros [?|[(?&?&?)|(?&?&?)]].
  - rewrite negb_true_iff, Z.eqb_neq. split.
    + intros Hz. right. left. by exists z.
    + intros [?|[(z' & [= <-] & ?)|(?&?&?)]]; done.
  - rewrite bool_decide_eq_true. split.
    + intros Hs. right. right. by exists s.
    + intros [?|[(?&?&?)|(s' & [= <-] & ?)]]; done.
  - split; [done|]. by intros [?|[(?&?&?)|(?&?&?)]].
  - split; [done|]. by intros [?|[(?&?&?)|(?&?&?)]].
Qed.

(** C5, as far as it holds.  The entries stand for the provider keys of
    the files that take part (not flagged, with a provider key and a file
    name), one entry per key in the order of the first such file; the
    [authFileNames] of an entry are the names of the files of its key that
    take part, each once; a flagged file changes nothing, a flag being
    set when it is [true], a number other than zero, or one of the texts
    true, 1, yes, y, on up to case and surrounding white space; and every
    file that takes part has its name in the entry of its key. *)
Theorem buildAuthProviderEntries_groups (files : list AuthFileItem)
  (aliasMap : gmap jsstring (list OAuthModelAliasEntry))
  (excludedMap : gmap jsstring (list jsstring))
  (baseUrl : jsstring) (keyOptions : list ProviderKeyOption) :
  let build fs := buildAuthProviderEntries fs aliasMap excludedMap baseUrl keyOptions in
  Entry.providerKey <$> build files = providerKeys files
  /\ NoDup (Entry.providerKey <$> build files)
  /\ (forall entry,
        entry ∈ build files ->
        Entry.authFileNames entry
        = Some (firstBy id (fileName <$> membersOf (Entry.providerKey entry) files))
        /\ Entry.id entry = "auth:" ++ Entry.providerKey entry
        /\ Entry.sourceKind entry = AuthProxy)
  /\ (forall file,
        file ∈ files -> contributes file ->
        exists entry names,
          entry ∈ build files
          /\ Entry.providerKey entry = fileKey file
          /\ Entry.authFileNames entry = Some names
          /\ fileName file ∈ names)
  /\ (forall before file after,
        flagged file = true ->
        build (before ++ file :: after) = build (before ++ after))
  /\ (forall v,
        isTruthyFlag v = true
        <-> v = JBool true
            \/ (exists z, v = JNum z /\ z <> 0%Z)
            \/ (exists s, v = JStr s
                          /\ JsString.toLowerCase (JsString.trim s)
                               ∈ ["true"; "1"; "yes"; "y"; "on"]))
  /\ (fun e => (Entry.providerKey e, Entry.name e, Entry.authFileNames e))
       <$> build [file_claude_off; file_codex_a; file_codex_b]
     = [("codex", "Codex", Some ["codex-a.json"; "codex-b.json"])].
Proof.
  intros build. unfold build.
  split; [apply buildAuthProviderEntries_keys|].
  split; [rewrite buildAuthProviderEntries_keys; apply firstBy_id_NoDup|].
  split.
  { intros entry Hin.
    destruct (buildAuthProviderEntries_entry _ _ _ _ _ _ Hin) as (? & ? & ? & _).
    done. }
  split.
  { intros file Hfile Hc.
    assert (fileKey file ∈ providerKeys files) as Hkey.
    { apply elem_of_firstBy_id, list_elem_of_fmap. exists file. split; [done|].
      by apply list_elem_of_filter. }
    rewrite <- (buildAuthProviderEntries_keys files aliasMap excludedMap baseUrl keyOptions)
      in Hkey.
    apply list_elem_of_fmap in Hkey as (entry & Hk & Hentry).
    destruct (buildAuthProviderEntries_entry _ _ _ _ _ _ Hentry) as (Hnames & _).
    exists entry, (firstBy id (fileName <$> membersOf (Entry.providerKey entry) files)).
    split; [done|]. split; [done|]. split; [done|].
    apply elem_of_firstBy_id, list_elem_of_fmap. exists file. split; [done|].
    unfold membersOf. apply list_elem_of_filter. split; [done|].
    by apply list_elem_of_filter. }
  split; [intros; by apply buildAuthProviderEntries_flagged|].
  split; [apply isTruthyFlag_cases|]. by vm_compute.
Qed.

Lemma buildAuthProviderEntries_groups_witness :
  exists entry names,
    entry ∈ buildAuthProviderEntries [file_claude_off; file_codex_a; file_codex_b] ∅ ∅ "" []
    /\ Entry.providerKey entry = fileKey file_codex_b
    /\ Entry.authFileNames entry = Some names
    /\ fileName file_codex_b ∈ names.
Proof.
  apply (proj1 (proj2 (proj2 (proj2
           (buildAuthProviderEntries_groups
              [file_claude_off; file_codex_a; file_codex_b] ∅ ∅ "" []))))
           file_codex_b).
  - apply list_elem_of_further, list_elem_of_further, list_elem_of_here.
  - by vm_compute.
Defined.

(** C5 as stated fails where the guards on the provider key and on the
    file name apply: a file that is not flagged and names the provider
    [codex], but has no file name, yields no entry; nor does a file that
    is not flagged and has a name, but names no provider. *)
Lemma nameless_file_has_no_entry :
  (flagged file_nameless = false
   /\ fileKey file_nameless = "codex"
   /\ buildAuthProviderEntries [file_nameless] ∅ ∅ "" [] = [])
  /\ (flagged file_keyless = false
      /\ fileName file_keyless = "orphan.json"
      /\ buildAuthProviderEntries [file_keyless] ∅ ∅ "" [] = []).
Proof. by vm_compute. Qed.

(** ** [fetchAuthProxyModels] *)

Lemma foldl_collectSettled (settled : list (Settled (list AuthApiModel)))
  (collected : list ModelInfo) (hasFulfilled : bool) :
  foldl collectSettled (collected, hasFulfilled) settled
  = (collected
     ++ flat_map (fun r => match r with
                           | Fulfilled value => normalizeAuthApiModels value
                           | Rejected _ => []
                           end) settled,
     hasFulfilled || existsb isFulfilled settled).
Proof.
  revert collected hasFulfilled.
  induction settled as [|r settled IH]; intros collected hasFulfilled; simpl.
  - by rewrite app_nil_r, orb_false_r.
  - destruct r as [value|reason]; simpl; rewrite IH.
    + by rewrite <- app_assoc, orb_true_r.
    + done.
Qed.

Lemma fetchAuthProxyModels_cases
  (getModelDefinitions getModelsForAuthFile : jsstring -> Settled (list AuthApiModel))
  (entry : EndpointProviderEntry) :
  let key := normalizeProviderKey (JStr (Entry.providerKey entry)) in
  let names := default [] (Entry.authFileNames entry) in
  let fromFiles := modelsFromFiles getModelsForAuthFile names in
  key <> [] ->
  fetchAuthProxyModels getModelDefinitions getModelsForAuthFile entry
  = match getModelDefinitions key with
    | Fulfilled definitionModels =>
        match normalizeAuthApiModels definitionModels with
        | [] => Fulfilled (postProcess entry fromFiles)
        | models => Fulfilled (postProcess entry models)
        end
    | Rejected error =>
        if bool_decide (names <> [])
           && forallb (fun name => negb (isFulfilled (getModelsForAuthFile name))) names
           && thrownTruthy error
        then Rejected error
        else Fulfilled (postProcess entry fromFiles)
    end.
Proof.
  intros key names fromFiles Hkey. unfold fetchAuthProxyModels.
  fold key. apply isEmpty_false in Hkey as ->. fold names.
  assert (Hfold : foldl collectSettled ([], false) (map getModelsForAuthFile names)
                  = (flat_map (fun name =>
                                 match getModelsForAuthFile name with
                                 | Fulfilled value => normalizeAuthApiModels value
                                 | Rejected _ => []
                                 end) names,
                     existsb (fun name => isFulfilled (getModelsForAuthFile name)) names)).
  { rewrite foldl_collectSettled. simpl. f_equal.
    - clear. induction names as [|n names IH]; simpl; [done|]. by rewrite IH.
    - clear. induction names as [|n names IH]; simpl; [done|]. by rewrite IH. }
  assert (Hall : forallb (fun name => negb (isFulfilled (getModelsForAuthFile name))) names
                 = negb (existsb (fun name => isFulfilled (getModelsForAuthFile name)) names)).
  { clear. induction names as [|n names IH]; simpl; [done|].
    rewrite IH. by destruct (isFulfilled _). }
  destruct (getModelDefinitions key) as [definitionModels|error].
  - destruct (normalizeAuthApiModels definitionModels) as [|m models] eqn:Hmodels.
    + simpl. destruct names as [|n names']; [done|].
      cbn [length Nat.eqb negb]. rewrite Hfold. done.
    + done.
  - simpl. destruct names as [|n names']; [done|].
    cbn [length Nat.eqb negb]. rewrite Hfold, Hall.
    rewrite bool_decide_eq_true_2 by done. simpl.
    by destruct (existsb _ _), (thrownTruthy error).
Qed.

(** The outcomes of [fetchAuthProxyModels] for any entry and any backend. *)
Lemma fetchAuthProxyModels_outcomes
  (getModelDefinitions getModelsForAuthFile : jsstring -> Settled (list AuthApiModel))
  (entry : EndpointProviderEntry) :
  let key := normalizeProviderKey (JStr (Entry.providerKey entry)) in
  let names := default [] (Entry.authFileNames entry) in
  let fetched := fetchAuthProxyModels getModelDefinitions getModelsForAuthFile entry in
  (key = [] -> fetched = Fulfilled [])
  /\ (forall definitionModels,
        key <> [] ->
        getModelDefinitions key = Fulfilled definitionModels ->
        normalizeAuthApiModels definitionModels <> [] ->
        fetched = Fulfilled (postProcess entry (normalizeAuthApiModels definitionModels)))
  /\ (key <> [] ->
      (forall definitionModels,
         getModelDefinitions key = Fulfilled definitionModels ->
         normalizeAuthApiModels definitionModels = []) ->
      (exists name, name ∈ names /\ isFulfilled (getModelsForAuthFile name) = true) ->
      fetched
      = Fulfilled (postProcess entry (modelsFromFiles getModelsForAuthFile names)))
  /\ (forall error,
        fetched = Rejected error
        <-> key <> []
            /\ getModelDefinitions key = Rejected error
            /\ thrownTruthy error = true
            /\ names <> []
            /\ forall name, name ∈ names -> isFulfilled (getModelsForAuthFile name) = false)
  /\ (forall models,
        key <> [] ->
        (forall definitionModels,
           getModelDefinitions key = Fulfilled definitionModels ->
           normalizeAuthApiModels definitionModels = []) ->
        fetched = Fulfilled models ->
        models = postProcess entry (modelsFromFiles getModelsForAuthFile names)).
Proof.
  intros key names fetched.
  assert (Hempty : key = [] -> fetched = Fulfilled []).
  { intros Hkey. unfold fetched, fetchAuthProxyModels. fold key. by rewrite Hkey. }
  split; [done|].
  destruct (decide (key = [])) as [Hkey|Hkey].
  { split; [done|]. split; [done|]. split; [|done]. intros error.
    rewrite Hempty by done. split; [done|]. by intros [? _]. }
  unfold fetched. rewrite fetchAuthProxyModels_cases by done. fold key names.
  split; [|split; [|split]]; cycle 3.
  { intros models _ Hzero.
    destruct (getModelDefinitions key) as [ds|error].
    - rewrite (Hzero ds eq_refl). by intros [= <-].
    - destruct (_ && _ && _); [done|]. by intros [= <-]. }
  - intros ds _ -> Hne. by destruct (normalizeAuthApiModels ds).
  - intros _ Hzero (name & Hin & Hok).
    destruct (getModelDefinitions key) as [ds|error].
    + by rewrite (Hzero ds eq_refl).
    + assert (forallb (fun name => negb (isFulfilled (getModelsForAuthFile name))) names
              = false) as ->; [|by rewrite andb_false_r].
      apply not_true_is_false. intros Hall.
      rewrite forallb_forall in Hall. apply list_elem_of_In in Hin.
      specialize (Hall name Hin). by rewrite Hok in Hall.
  - intros error. destruct (getModelDefinitions key) as [ds|error'].
    + split; [by destruct (normalizeAuthApiModels ds)|by intros (_ & ? & _)].
    + destruct (_ && _ && _) eqn:Hthrow.
      * apply andb_prop in Hthrow as [[Hnames Hall]%andb_prop Htruthy].
        apply bool_decide_eq_true in Hnames. rewrite forallb_forall in Hall.
        split.
        -- intros [= <-]. split; [done|]. split; [done|]. split; [done|].
           split; [done|].
           intros name Hin%list_elem_of_In. apply Hall in Hin.
           by apply negb_true_iff.
        -- by intros (_ & [= <-] & _).
      * split; [done|]. intros (_ & [= <-] & Htruthy & Hnames & Hall).
        rewrite Htruthy, bool_decide_eq_true_2 in Hthrow by done.
        rewrite andb_true_r, andb_true_l in Hthrow.
        apply not_true_iff_false in Hthrow. exfalso. apply Hthrow.
        apply forallb_forall. intros name Hin%list_elem_of_In.
        by rewrite Hall.
Qed.

Lemma normalizeProviderKey_idemp value :
  normalizeProviderKey (JStr (normalizeProviderKey value)) = normalizeProviderKey value.
Proof.
  unfold normalizeProviderKey. rewrite normalizeText_JStr, trim_toLowerCase.
  by rewrite toLowerCase_idemp, <- normalizeText_JStr, normalizeText_idemp.
Qed.

(** An entry that [buildAuthProviderEntries] makes has a provider key, in
    its normal form, and at least one backing file. *)
Lemma buildAuthProviderEntries_backed files aliasMap excludedMap baseUrl keyOptions entry :
  entry ∈ buildAuthProviderEntries files aliasMap excludedMap baseUrl keyOptions ->
  normalizeProviderKey (JStr (Entry.providerKey entry)) = Entry.providerKey entry
  /\ Entry.providerKey entry <> []
  /\ default [] (Entry.authFileNames entry) <> [].
Proof.
  intros Hin.
  destruct (buildAuthProviderEntries_entry _ _ _ _ _ _ Hin) as (Hnames & _ & _ & Hmembers).
  destruct (membersOf (Entry.providerKey entry) files) as [|file members] eqn:Hfiles;
    [done|].
  assert (Hfile : file ∈ membersOf (Entry.providerKey entry) files)
    by (rewrite Hfiles; by left).
  unfold membersOf in Hfile.
  apply list_elem_of_filter in Hfile as [Hkey [Hcontributes _]%list_elem_of_filter].
  unfold contributes in Hcontributes.
  apply Is_true_true in Hcontributes.
  apply andb_prop in Hcontributes as [[_ Hk]%andb_prop _].
  apply negb_true_iff, isEmpty_false in Hk. rewrite Hkey in Hk.
  split; [|split; [done|]].
  - rewrite <- Hkey. apply normalizeProviderKey_idemp.
  - by rewrite Hnames.
Qed.

(** C3.  For an entry that the page builds from the credential files, and
    a client whose failures carry an error, model resolution uses the
    models of the definitions call when it yields any.  When that call
    yields none, or fails while some per-file call succeeds, the result
    is made of the models of the per-file calls that succeed, and a
    failure of the definitions call is not reported.  The resolution
    throws exactly when the definitions call failed and every per-file
    call failed too, and what it throws is the error of the definitions
    call. *)
Theorem fetchAuthProxyModels_fallback
  (getModelDefinitions getModelsForAuthFile : jsstring -> Settled (list AuthApiModel))
  (authFiles : list AuthFileItem)
  (aliasMap : gmap jsstring (list OAuthModelAliasEntry))
  (excludedMap : gmap jsstring (list jsstring))
  (baseUrl : jsstring) (keyOptions : list ProviderKeyOption)
  (entry : EndpointProviderEntry) :
  entry ∈ buildAuthProviderEntries authFiles aliasMap excludedMap baseUrl keyOptions ->
  (forall key error, getModelDefinitions key = Rejected error -> thrownTruthy error = true) ->
  let key := normalizeProviderKey (JStr (Entry.providerKey entry)) in
  let names := default [] (Entry.authFileNames entry) in
  let fetched := fetchAuthProxyModels getModelDefinitions getModelsForAuthFile entry in
  let fromFiles := postProcess entry (modelsFromFiles getModelsForAuthFile names) in
  (forall definitionModels,
     getModelDefinitions key = Fulfilled definitionModels ->
     normalizeAuthApiModels definitionModels <> [] ->
     fetched = Fulfilled (postProcess entry (normalizeAuthApiModels definitionModels)))
  /\ (forall definitionModels,
        getModelDefinitions key = Fulfilled definitionModels ->
        normalizeAuthApiModels definitionModels = [] ->
        fetched = Fulfilled fromFiles)
  /\ (forall error name,
        getModelDefinitions key = Rejected error ->
        name ∈ names -> isFulfilled (getModelsForAuthFile name) = true ->
        fetched = Fulfilled fromFiles)
  /\ (forall error,
        fetched = Rejected error
        <-> getModelDefinitions key = Rejected error
            /\ forall name, name ∈ names -> isFulfilled (getModelsForAuthFile name) = false).
Proof.
  intros Hbuilt Htruthy key names fetched fromFiles.
  destruct (buildAuthProviderEntries_backed _ _ _ _ _ _ Hbuilt) as (Hnormal & Hkey & Hnames).
  assert (Hne : key <> []) by (unfold key; by rewrite Hnormal).
  unfold fetched, fromFiles. rewrite fetchAuthProxyModels_cases by done. fold key names.
  split; [|split; [|split]].
  - intros ds -> Hfound. by destruct (normalizeAuthApiModels ds).
  - by intros ds -> ->.
  - intros error name Herror Hin Hok. rewrite Herror.
    assert (forallb (fun name => negb (isFulfilled (getModelsForAuthFile name))) names
            = false) as ->; [|by rewrite andb_false_r].
    apply not_true_is_false. intros Hall.
    rewrite forallb_forall in Hall. apply list_elem_of_In in Hin.
    specialize (Hall name Hin). by rewrite Hok in Hall.
  - intros error. destruct (getModelDefinitions key) as [ds|error'] eqn:Hdefinitions.
    { split; [by destruct (normalizeAuthApiModels ds)|by intros [? _]]. }
    rewrite (Htruthy key error' Hdefinitions), andb_true_r.
    rewrite bool_decide_eq_true_2 by done. cbn [andb].
    destruct (forallb _ names) eqn:Hall.
    + rewrite forallb_forall in Hall. split.
      * intros [= <-]. split; [done|].
        intros name Hin%list_elem_of_In. apply Hall in Hin. by apply negb_true_iff.
      * by intros [[= <-] _].
    + split; [done|]. intros [_ Hfail].
      apply not_true_iff_false in Hall. exfalso. apply Hall.
      apply forallb_forall. intros name Hin%list_elem_of_In. by rewrite Hfail.
Qed.

Lemma fetchAuthProxyModels_fallback_witness :
  fetchAuthProxyModels backend_down backend_lists_gpt5 built_entry
  = Fulfilled (postProcess built_entry
                 (modelsFromFiles backend_lists_gpt5
                    (default [] (Entry.authFileNames built_entry)))).
Proof.
  refine (proj1 (proj2 (proj2 (fetchAuthProxyModels_fallback backend_down
                                backend_lists_gpt5
                                [file_claude_off; file_codex_a; file_codex_b] ∅ ∅
                                "http://localhost:8317" [] built_entry _ _)))
           (ErrorObject "Network Error") "codex-b.json" _ _ _).
  - vm_compute. apply list_elem_of_here.
  - by intros key error [= <-].
  - reflexivity.
  - apply list_elem_of_further, list_elem_of_here.
  - reflexivity.
Defined.

(** ** Refresh orchestrator: loading transitions and start-order tokens *)

Lemma startAll_lookup (entries : list EndpointProviderEntry)
  (prev acc : gmap jsstring ProviderModelsState) (id : jsstring) :
  foldl (fun next entry =>
           <[ Entry.id entry :=
                {| ModelsState.status := Status.loading;
                   ModelsState.models := previousModels prev (Entry.id entry);
                   ModelsState.error := None |} ]> next) acc entries !! id
  = if decide (id ∈ map Entry.id entries)
    then Some {| ModelsState.status := Status.loading;
                 ModelsState.models := previousModels prev id;
                 ModelsState.error := None |}
    else acc !! id.
Proof.
  revert acc. induction entries as [|e entries IH]; intros acc; simpl; [done|].
  rewrite IH, lookup_insert.
  destruct (decide (id ∈ map Entry.id entries)) as [Hin|Hout].
  - rewrite decide_True; [done|by right].
  - destruct (decide (Entry.id e = id)) as [->|Hne].
    + rewrite decide_True; [done|by left].
    + rewrite decide_False; [done|]. by intros [?|?]%elem_of_cons.
Qed.

Section RefreshFacts.

Variable t : jsstring -> jsstring.

Lemma refreshSingle_start_token entry page :
  (refreshSingle_start entry page).1 = (currentToken page (Entry.id entry) + 1)%N.
Proof. done. Qed.

Lemma currentToken_start entry page id :
  currentToken (refreshSingle_start entry page).2 id
  = if decide (Entry.id entry = id) then (currentToken page id + 1)%N
    else currentToken page id.
Proof.
  unfold currentToken. simpl. rewrite lookup_insert.
  case_decide; [by subst|done].
Qed.

Lemma tokens_settle entry token outcome page :
  Page.providerFetchTokenRef (refreshSingle_settle t entry token outcome page)
  = Page.providerFetchTokenRef page.
Proof.
  unfold refreshSingle_settle. case_decide; [|done]. by destruct outcome.
Qed.

Lemma tokens_startAll entries page :
  Page.providerFetchTokenRef (refreshAll_start entries page)
  = Page.providerFetchTokenRef page.
Proof. by destruct entries. Qed.

Lemma currentToken_applyOp op page id :
  (currentToken page id <= currentToken (applyOp t page op) id)%N.
Proof.
  destruct op as [entry|entry token outcome|entries]; unfold applyOp.
  - rewrite currentToken_start. case_decide; lia.
  - unfold currentToken. by rewrite tokens_settle.
  - unfold currentToken. by rewrite tokens_startAll.
Qed.

Lemma currentToken_run ops page id :
  (currentToken page id <= currentToken (foldl (applyOp t) page ops) id)%N.
Proof.
  revert page. induction ops as [|op ops IH]; intros page; simpl; [lia|].
  etrans; [apply (currentToken_applyOp op)|apply IH].
Qed.

Lemma refreshSingle_settle_stale entry token outcome page :
  (token < currentToken page (Entry.id entry))%N ->
  refreshSingle_settle t entry token outcome page = page.
Proof.
  intros Hlt. unfold refreshSingle_settle. case_decide as Heq; [|done].
  unfold currentToken in Hlt. rewrite Heq in Hlt. simpl in Hlt. lia.
Qed.

End RefreshFacts.

(** C7. Whatever puts a provider into the loading state keeps the models
    known for it before: the start of a single refresh and the start of a
    refresh of all entries publish the previous models of the provider
    (none if it was unknown), and no other step produces a loading state. *)
Theorem loading_retains_models (t : jsstring -> jsstring) (page : Page.t) :
  (forall entry,
     Page.modelsByProvider (refreshSingle_start entry page).2 !! Entry.id entry
     = Some {| ModelsState.status := Status.loading;
               ModelsState.models :=
                 previousModels (Page.modelsByProvider page) (Entry.id entry);
               ModelsState.error := None |})
  /\ (forall entries entry,
        entry ∈ entries ->
        Page.modelsByProvider (refreshAll_start entries page) !! Entry.id entry
        = Some {| ModelsState.status := Status.loading;
                  ModelsState.models :=
                    previousModels (Page.modelsByProvider page) (Entry.id entry);
                  ModelsState.error := None |})
  /\ (forall op id st,
        Page.modelsByProvider (applyOp t page op) !! id = Some st ->
        ModelsState.status st = Status.loading ->
        ModelsState.models st = previousModels (Page.modelsByProvider page) id).
Proof.
  split; [|split].
  - intros entry. simpl. by rewrite lookup_insert_eq.
  - intros entries entry Hin. destruct entries as [|e0 entries]; [by inversion Hin|].
    unfold refreshAll_start. cbn [Page.modelsByProvider].
    rewrite startAll_lookup. rewrite decide_True; [done|].
    by apply list_elem_of_fmap_2.
  - intros op id st Hst Hloading.
    destruct op as [entry|entry token outcome|entries]; unfold applyOp in Hst.
    + simpl in Hst. rewrite lookup_insert in Hst. case_decide as Hid.
      * subst id. by simplify_eq.
      * unfold previousModels. by rewrite Hst.
    + unfold refreshSingle_settle in Hst. case_decide as Htok.
      * destruct outcome; simpl in Hst; rewrite lookup_insert in Hst;
          (case_decide; [simplify_eq; done|]);
          unfold previousModels; by rewrite Hst.
      * unfold previousModels. by rewrite Hst.
    + destruct entries as [|e0 entries]; [done|].
      unfold refreshAll_start in Hst. cbn [Page.modelsByProvider] in Hst.
      rewrite startAll_lookup in Hst. case_decide; [by simplify_eq|done].
Qed.

Lemma loading_retains_models_witness :
  ModelsState.models
    {| ModelsState.status := Status.loading;
       ModelsState.models := [sample_model];
       ModelsState.error := None |}
  = previousModels (Page.modelsByProvider sample_page) "auth:codex".
Proof.
  apply (proj2 (proj2 (loading_retains_models (fun k => k) sample_page))
           (OpStart sample_entry) "auth:codex").
  - vm_compute. reflexivity.
  - reflexivity.
Defined.

Lemma refreshSingle_settle_current t entry token outcome page :
  Page.providerFetchTokenRef page !! Entry.id entry = Some token ->
  refreshSingle_settle t entry token outcome page
  = {| Page.providerFetchTokenRef := Page.providerFetchTokenRef page;
       Page.modelsByProvider :=
         <[ Entry.id entry :=
              settledState t outcome
                (previousModels (Page.modelsByProvider page) (Entry.id entry)) ]>
           (Page.modelsByProvider page) |}.
Proof.
  intros Htok. unfold refreshSingle_settle. rewrite decide_True by done.
  by destruct outcome.
Qed.

Lemma previousModels_start entry page :
  previousModels (Page.modelsByProvider (refreshSingle_start entry page).2)
    (Entry.id entry)
  = previousModels (Page.modelsByProvider page) (Entry.id entry).
Proof. unfold previousModels. simpl. by rewrite lookup_insert_eq. Qed.

(** C1. Two refreshes of one provider: once the second call has started,
    the first call's outcome is dropped whenever it arrives, whatever
    happened in between and since; either order of completion of the two
    calls leaves the page in the state that the second call's outcome
    alone produces, which shows that outcome together with the models
    known when the second call started (those known before the first call
    when the two calls follow each other directly). *)
Theorem later_started_refresh_wins (t : jsstring -> jsstring) (page : Page.t)
  (first second : EndpointProviderEntry)
  (outcome1 outcome2 : Settled (list ModelInfo)) (between after : list PageOp) :
  Entry.id first = Entry.id second ->
  let '(token1, page1) := refreshSingle_start first page in
  let before2 := foldl (applyOp t) page1 between in
  let '(token2, page2) := refreshSingle_start second before2 in
  let later := foldl (applyOp t) page2 after in
  let final := refreshSingle_settle t second token2 outcome2 page2 in
  refreshSingle_settle t first token1 outcome1 later = later
  /\ refreshSingle_settle t second token2 outcome2
       (refreshSingle_settle t first token1 outcome1 page2) = final
  /\ refreshSingle_settle t first token1 outcome1
       (refreshSingle_settle t second token2 outcome2 page2) = final
  /\ Page.modelsByProvider final !! Entry.id second
     = Some (settledState t outcome2
               (previousModels (Page.modelsByProvider before2) (Entry.id second)))
  /\ (between = [] ->
      previousModels (Page.modelsByProvider before2) (Entry.id second)
      = previousModels (Page.modelsByProvider page) (Entry.id second)).
Proof.
  intros Hid.
  destruct (refreshSingle_start first page) as [token1 page1] eqn:Hstart1.
  cbv zeta. set (before2 := foldl (applyOp t) page1 between).
  destruct (refreshSingle_start second before2) as [token2 page2] eqn:Hstart2.
  assert (Hpage1 : page1 = (refreshSingle_start first page).2) by by rewrite Hstart1.
  assert (Hpage2 : page2 = (refreshSingle_start second before2).2) by by rewrite Hstart2.
  assert (Htok1 : token1 = (currentToken page (Entry.id first) + 1)%N).
  { by rewrite <- refreshSingle_start_token, Hstart1. }
  assert (Hcur1 : currentToken page1 (Entry.id first) = token1).
  { rewrite Hpage1, currentToken_start, decide_True by done. done. }
  assert (Hcur2 : (token1 < currentToken page2 (Entry.id first))%N).
  { rewrite Hpage2, currentToken_start, decide_True by done.
    pose proof (currentToken_run t between page1 (Entry.id first)).
    fold before2 in H. lia. }
  assert (Hstale : forall ops,
            refreshSingle_settle t first token1 outcome1 (foldl (applyOp t) page2 ops)
            = foldl (applyOp t) page2 ops).
  { intros ops. apply refreshSingle_settle_stale.
    pose proof (currentToken_run t ops page2 (Entry.id first)). lia. }
  assert (Htoken2 : Page.providerFetchTokenRef page2 !! Entry.id second = Some token2).
  { rewrite Hpage2. replace token2 with (refreshSingle_start second before2).1
      by by rewrite Hstart2.
    simpl. by rewrite lookup_insert_eq. }
  split; [apply Hstale|].
  split; [f_equal; apply (Hstale [])|]. split; [|split].
  - apply refreshSingle_settle_stale.
    unfold currentToken. rewrite tokens_settle, Hid, Htoken2. simpl.
    unfold currentToken in Hcur2. rewrite Hid, Htoken2 in Hcur2. done.
  - rewrite refreshSingle_settle_current by done. simpl.
    rewrite lookup_insert_eq. do 2 f_equal.
    rewrite Hpage2. apply previousModels_start.
  - intros ->. unfold before2. simpl. rewrite Hpage1, <- Hid.
    apply previousModels_start.
Qed.

Lemma later_started_refresh_wins_witness :
  let page2 :=
    (refreshSingle_start sample_entry
       (refreshSingle_start sample_entry sample_page).2).2 in
  refreshSingle_settle (fun k => k) sample_entry 4
    (Rejected (ErrorObject "timeout"))
    (refreshSingle_settle (fun k => k) sample_entry 5 (Fulfilled []) page2)
  = refreshSingle_settle (fun k => k) sample_entry 5 (Fulfilled []) page2.
Proof.
  exact (proj1 (proj2 (proj2 (later_started_refresh_wins (fun k => k) sample_page
                sample_entry sample_entry
                (Rejected (ErrorObject "timeout")) (Fulfilled []) [] []
                eq_refl)))).
Defined.

(** ** Thinking-level suffix *)

Lemma code_inj a c : JsString.code a = JsString.code c -> a = c.
Proof.
  unfold JsString.code. intros H.
  by rewrite <- (ascii_N_embedding a), <- (ascii_N_embedding c), H.
Qed.

Lemma accepts_Lit_exact a c : RegExp.accepts false (RegExp.Lit a) c = true <-> c = a.
Proof.
  simpl. rewrite N.eqb_eq. split; [by intros ?%code_inj|by intros ->].
Qed.

Lemma accepts_NoneOf_exact l c :
  RegExp.accepts false (RegExp.NoneOf l) c = true <-> c ∉ l.
Proof.
  simpl. rewrite negb_true_iff. induction l as [|a l IH]; simpl.
  - split; [intros _; apply not_elem_of_nil|done].
  - rewrite orb_false_iff, IH, not_elem_of_cons, N.eqb_neq.
    split; intros [Ha Hl]; (split; [|done]); intros He; apply Ha; [by subst|].
    by apply code_inj.
Qed.

Lemma app_inj_pivot {A} (x : A) (l1 l2 k1 k2 : list A) :
  l1 ++ x :: l2 = k1 ++ x :: k2 -> x ∉ l2 -> x ∉ k2 -> l1 = k1 /\ l2 = k2.
Proof.
  intros Heq Hl Hk.
  assert (rev l2 ++ x :: rev l1 = rev k2 ++ x :: rev k1) as Hrev.
  { apply (f_equal (@rev A)) in Heq. rewrite !rev_app_distr in Heq. simpl in Heq.
    by rewrite <- !app_assoc in Heq. }
  assert (Hl' : x ∉ rev l2).
  { intros Hin. apply Hl, list_elem_of_In, in_rev. by apply list_elem_of_In. }
  assert (Hk' : x ∉ rev k2).
  { intros Hin. apply Hk, list_elem_of_In, in_rev. by apply list_elem_of_In. }
  clear Heq Hl Hk. revert Hrev Hl' Hk'.
  generalize (rev l2) (rev k2) (rev_involutive l2) (rev_involutive k2).
  intros a b Ha Hb Heq Hxa Hxb.
  assert (a = b /\ rev l1 = rev k1) as [-> Hr].
  { clear Ha Hb. revert b Heq Hxb. induction a as [|y a IH]; intros [|z b] Heq Hxb; simpl in *.
    - by injection Heq.
    - injection Heq as -> _. exfalso. apply Hxb. by left.
    - injection Heq as -> _. exfalso. apply Hxa. by left.
    - injection Heq as -> Heq. apply not_elem_of_cons in Hxa as [_ Hxa].
      apply not_elem_of_cons in Hxb as [_ Hxb].
      destruct (IH Hxa b Heq Hxb) as [-> ?]. done. }
  split.
  - by rewrite <- (rev_involutive l1), Hr, rev_involutive.
  - by rewrite <- Ha, <- Hb.
Qed.

Lemma thinkingPattern_matches base lvl :
  lvl <> [] -> "("%char ∉ lvl -> ")"%char ∉ lvl ->
  forall caps,
    matches false thinkingPattern (base ++ "(" ++ lvl ++ ")") caps
    <-> caps = [base; "("; lvl; ")"]
        /\ Forall (fun c => JsString.isLineTerminator c = false) base.
Proof.
  intros Hne Hopen Hclose caps. split.
  - intros Hm. unfold thinkingPattern in Hm.
    inversion Hm as [|t1 ts1 g1 s1 caps1 [Hg1 _] Hm1 E1 E2 E3]; subst; clear Hm.
    inversion Hm1 as [|t2 ts2 g2 s2 caps2 [Hg2 Hl2] Hm2]; subst; clear Hm1.
    inversion Hm2 as [|t3 ts3 g3 s3 caps3 [Hg3 Hl3] Hm3]; subst; clear Hm2.
    inversion Hm3 as [|t4 ts4 g4 s4 caps4 [Hg4 Hl4] Hm4]; subst; clear Hm3.
    inversion Hm4; subst; clear Hm4.
    cbn [fst snd] in *.
    destruct g2 as [|c2 [|??]]; try done. destruct g4 as [|c4 [|??]]; try done.
    apply Forall_cons in Hg2 as [Hc2%accepts_Lit_exact _].
    apply Forall_cons in Hg4 as [Hc4%accepts_Lit_exact _]. subst c2 c4.
    rewrite app_nil_r in E2.
    assert (Hg3' : Forall (fun c => c ∉ ["("; ")"]%char) g3).
    { eapply Forall_impl; [exact Hg3|]. intros c. apply accepts_NoneOf_exact. }
    assert (g1 ++ "(" ++ g3 = base ++ "(" ++ lvl) as Heq.
    { refine (proj1 (app_inj_tail _ _ ")"%char ")"%char _)).
      rewrite <- !app_assoc. simpl. simpl in E2. exact E2. }
    apply app_inj_pivot in Heq as [-> ->]; [| |done].
    + split; [done|]. eapply Forall_impl; [exact Hg1|].
      intros c Hc. simpl in Hc. by apply negb_true_iff.
    + intros Hin. eapply Forall_forall in Hg3'; [|exact Hin]. apply Hg3'. by left.
  - intros [-> Hbase]. unfold thinkingPattern.
    apply matches_cons.
    { split; [|done]. eapply Forall_impl; [exact Hbase|].
      intros c Hc. simpl. by rewrite Hc. }
    apply (matches_cons false _ _ "(" (lvl ++ ")")).
    { split; [|done]. by repeat constructor. }
    apply (matches_cons false _ _ lvl ")").
    { split; [|destruct lvl; [done|simpl; lia]].
      apply Forall_forall. intros c Hc. apply accepts_NoneOf_exact.
      apply not_elem_of_cons. split; [by intros ->|].
      apply not_elem_of_cons. split; [by intros ->|]. apply not_elem_of_nil. }
    apply (matches_cons false _ _ ")" []).
    { split; [|done]. by repeat constructor. }
    constructor.
Qed.

Lemma trim_bounds s :
  noLeadingSpace (JsString.trim s) /\ noLeadingSpace (rev (JsString.trim s)).
Proof.
  unfold JsString.trim, JsString.trimEnd.
  set (u := JsString.trimStart s).
  assert (Hu : noLeadingSpace u) by apply trimStart_noLeadingSpace.
  destruct (trimStart_suffix (rev u)) as (p & Hrev & Hp).
  set (v := JsString.trimStart (rev u)) in *.
  assert (Hv : noLeadingSpace v) by apply trimStart_noLeadingSpace.
  split; [|by rewrite rev_involutive].
  assert (u = rev v ++ rev p) as Heq.
  { rewrite <- rev_app_distr, <- Hrev. by rewrite rev_involutive. }
  destruct (rev v) as [|c w]; [done|]. rewrite Heq in Hu. done.
Qed.

Lemma trim_suffixed base tail c :
  base <> [] -> JsString.trim base = base -> JsString.isWhiteSpace c = false ->
  JsString.trim (base ++ tail ++ [c]) = base ++ tail ++ [c].
Proof.
  intros Hne Htrim Hc. apply trim_fixed.
  - destruct (trim_bounds base) as [Hlead _]. rewrite Htrim in Hlead.
    by destruct base.
  - by rewrite !rev_app_distr.
Qed.

Lemma levelText_plain level :
  levelText level <> []
  /\ ("("%char ∉ levelText level) /\ (")"%char ∉ levelText level)
  /\ JsString.toLowerCase (JsString.trim (levelText level)) = levelText level
  /\ thinkingLevelOf (levelText level) = Some level.
Proof.
  destruct level; (split; [done|]);
    (split; [by apply (bool_decide_unpack _); vm_compute|]);
    (split; [by apply (bool_decide_unpack _); vm_compute|]);
    by vm_compute.
Qed.

Lemma exec_thinkingPattern base lvl :
  lvl <> [] -> "("%char ∉ lvl -> ")"%char ∉ lvl ->
  RegExp.exec false thinkingPattern (base ++ "(" ++ lvl ++ ")")
  = if decide (Forall (fun c => JsString.isLineTerminator c = false) base)
    then Some [base; "("; lvl; ")"] else None.
Proof.
  intros Hne Hopen Hclose.
  pose proof (thinkingPattern_matches base lvl Hne Hopen Hclose) as Hiff.
  destruct (decide (Forall _ base)) as [Hbase|Hbase].
  - destruct (exec_complete false thinkingPattern (base ++ "(" ++ lvl ++ ")")
                [base; "("; lvl; ")"]) as [caps Hcaps]; [by apply Hiff|].
    rewrite Hcaps. f_equal. by apply Hiff, exec_sound.
  - destruct (RegExp.exec _ _ _) as [caps|] eqn:Hcaps; [|done].
    apply exec_sound, Hiff in Hcaps as [_ ?]. done.
Qed.

Lemma formatModelWithThinking_suffix base level :
  base <> [] -> JsString.trim base = base ->
  formatModelWithThinking base (Some level) = base ++ "(" ++ levelText level ++ ")".
Proof.
  intros Hne Htrim. unfold formatModelWithThinking.
  rewrite normalizeText_JStr, Htrim. by apply isEmpty_false in Hne as ->.
Qed.

Lemma parse_format base level :
  base <> [] -> JsString.trim base = base ->
  parseModelWithThinking (formatModelWithThinking base (Some level))
  = if decide (Forall (fun c => JsString.isLineTerminator c = false) base)
    then {| Parsed.baseModel := base; Parsed.thinking := Some level |}
    else {| Parsed.baseModel := base ++ "(" ++ levelText level ++ ")";
            Parsed.thinking := None |}.
Proof.
  intros Hne Htrim. rewrite formatModelWithThinking_suffix by done.
  destruct (levelText_plain level) as (Hl & Hopen & Hclose & Hlow & Hof).
  unfold parseModelWithThinking. rewrite normalizeText_JStr.
  change (base ++ "(" ++ levelText level ++ ")")
    with (base ++ ("(" ++ levelText level) ++ [")"%char]).
  rewrite (trim_suffixed base ("(" ++ levelText level) ")"%char) by done.
  change (base ++ ("(" ++ levelText level) ++ [")"%char])
    with (base ++ "(" ++ levelText level ++ ")").
  assert (JsString.isEmpty (base ++ "(" ++ levelText level ++ ")") = false) as ->.
  { by destruct base. }
  rewrite exec_thinkingPattern by done.
  destruct (decide (Forall _ base)) as [Hbase|Hbase]; [|done].
  rewrite !normalizeText_JStr, Htrim, Hlow, Hof.
  by apply isEmpty_false in Hne as ->.
Qed.

(** C9, as far as it holds.  The literal of the specification parses and
    formats as stated; and for a non-empty trimmed base name and any of
    the four levels, parsing the formatted text gives back the base name
    and the level exactly when the base name contains no line
    terminator. *)
Theorem thinking_suffix_roundtrip :
  parseModelWithThinking "gpt-5(high)"
  = {| Parsed.baseModel := "gpt-5"; Parsed.thinking := Some high |}
  /\ formatModelWithThinking "gpt-5" (Some high) = "gpt-5(high)"
  /\ forall base level,
       base <> [] -> JsString.trim base = base ->
       parseModelWithThinking (formatModelWithThinking base (Some level))
       = {| Parsed.baseModel := base; Parsed.thinking := Some level |}
       <-> Forall (fun c => JsString.isLineTerminator c = false) base.
Proof.
  split; [by vm_compute|]. split; [by vm_compute|].
  intros base level Hne Htrim. rewrite parse_format by done.
  destruct (decide (Forall _ base)) as [Hbase|Hbase]; [done|].
  split; [|done]. by intros [=].
Qed.

Lemma thinking_suffix_roundtrip_witness :
  parseModelWithThinking (formatModelWithThinking "claude-opus-4 (1m)" (Some xhigh))
  = {| Parsed.baseModel := "claude-opus-4 (1m)"; Parsed.thinking := Some xhigh |}.
Proof.
  apply (proj2 (proj2 thinking_suffix_roundtrip) "claude-opus-4 (1m)" xhigh);
    [done|by vm_compute|].
  apply Forall_forall. intros c Hc.
  apply list_elem_of_In in Hc. simpl in Hc.
  repeat (destruct Hc as [<-|Hc]; [reflexivity|]). destruct Hc.
Defined.

(** C9 as stated fails for a base name with an inner line break: the
    formatted text no longer parses into base name and level. *)
Lemma thinking_suffix_lost_on_line_break :
  let base := "gpt" ++ ["010"%char] ++ "5" in
  base <> [] /\ JsString.trim base = base
  /\ parseModelWithThinking (formatModelWithThinking base (Some high))
     = {| Parsed.baseModel := base ++ "(high)"; Parsed.thinking := None |}.
Proof. by vm_compute. Qed.


(** ** Normalised texts *)

(** X1.  normalizeText and normalizeProviderKey are idempotent:
    normalising a normalised text changes nothing, a provider key is the
    same whether it is computed from a value or from its normalised
    text, the key is empty exactly when the normalised text is, and null
    and undefined normalise to the empty text. *)
Theorem normalizeProviderKey_stable (value : JsVal) :
  normalizeText (JStr (normalizeText value)) = normalizeText value
  /\ normalizeProviderKey (JStr (normalizeProviderKey value)) = normalizeProviderKey value
  /\ normalizeProviderKey (JStr (normalizeText value)) = normalizeProviderKey value
  /\ (normalizeProviderKey value = [] <-> normalizeText value = [])
  /\ (Js.nullish value = true -> normalizeText value = []).
Proof.
  split; [apply normalizeText_idemp|].
  split.
  { unfold normalizeProviderKey. rewrite normalizeText_JStr, trim_toLowerCase.
    rewrite <- (normalizeText_JStr (normalizeText value)).
    by rewrite normalizeText_idemp, toLowerCase_idemp. }
  split; [unfold normalizeProviderKey; by rewrite normalizeText_idemp|].
  split; [apply toLowerCase_nil|].
  by destruct value.
Qed.

(** ** Lists of distinct trimmed texts *)

Lemma omap_text {A B} (key : jsstring -> B) (text : A -> jsstring) (items : list A) :
  omap (fun item => if decide (text item = []) then None
                    else Some (key (text item), text item)) items
  = (fun k => (key k, k)) <$> filter (fun k => k <> []) (text <$> items).
Proof.
  induction items as [|item items IH]; [done|].
  csimpl. rewrite filter_cons.
  destruct (decide (text item = [])) as [He|Hne].
  - by rewrite decide_False by (intros Hn; by apply Hn).
  - rewrite decide_True by done. csimpl. by rewrite IH.
Qed.

Lemma pushUnseen_text {A} (key : jsstring -> jsstring)
  (text : A -> jsstring) (items : list A) :
  (foldl (pushUnseen (fun item => if decide (text item = []) then None
                                  else Some (key (text item), text item)))
         (∅, []) items).2
  = firstBy key (filter (fun k => k <> []) (text <$> items)).
Proof.
  rewrite foldl_pushUnseen_all, omap_text, firstBy_fmap.
  rewrite <- list_fmap_compose. apply list_fmap_id.
Qed.

Lemma firstBy_trimmed_distinct {A} (text : A -> jsstring) (items : list A) :
  (forall item, JsString.trim (text item) = text item) ->
  distinctTexts
    (firstBy JsString.toLowerCase (filter (fun k => k <> []) (text <$> items))).
Proof.
  intros Htrim. split; [|apply firstBy_NoDup].
  apply Forall_forall. intros k Hk.
  apply (fun H => elem_of_sublist _ _ _ H (firstBy_sublist _ _)) in Hk.
  apply list_elem_of_filter in Hk as [Hne Hk].
  apply list_elem_of_fmap in Hk as (item & -> & _). by split.
Qed.

Lemma distinctTexts_fixed (l : list jsstring) :
  distinctTexts l ->
  firstBy JsString.toLowerCase (filter (fun k => k <> []) (JsString.trim <$> l)) = l.
Proof.
  intros [Hall Hnodup].
  assert (JsString.trim <$> l = l) as ->.
  { clear Hnodup. induction Hall as [|k l [_ Hk] _ IH]; [done|]. csimpl. by rewrite Hk, IH. }
  rewrite filter_all; [by apply firstBy_id|].
  eapply Forall_impl; [exact Hall|]. by intros k [? _].
Qed.

(** ** [normalizeExcludedPatterns] *)

Lemma normalizeExcludedPatterns_firstBy (patterns : option (list jsstring)) :
  normalizeExcludedPatterns patterns
  = firstBy JsString.toLowerCase
      (filter (fun p => p <> []) (JsString.trim <$> default [] patterns)).
Proof.
  destruct patterns as [[|p ps]|]; [done| |done].
  unfold normalizeExcludedPatterns. cbn [default].
  rewrite <- (pushUnseen_text JsString.toLowerCase JsString.trim).
  f_equal. apply foldl_pointwise. intros [seen normalized] pattern.
  unfold normalizeExcludedPatterns_each, pushUnseen. rewrite normalizeText_JStr.
  destruct (decide (JsString.trim pattern = [])) as [->|Hne]; [done|].
  by apply isEmpty_false in Hne as ->.
Qed.

Lemma normalizeExcludedPatterns_distinct patterns :
  distinctTexts (normalizeExcludedPatterns patterns).
Proof.
  rewrite normalizeExcludedPatterns_firstBy.
  apply firstBy_trimmed_distinct. intros p. apply trim_idemp.
Qed.

Lemma normalizeExcludedPatterns_idemp patterns :
  normalizeExcludedPatterns (Some (normalizeExcludedPatterns patterns))
  = normalizeExcludedPatterns patterns.
Proof.
  rewrite (normalizeExcludedPatterns_firstBy (Some _)). cbn [default].
  apply distinctTexts_fixed, normalizeExcludedPatterns_distinct.
Qed.

(** X2.  normalizeExcludedPatterns returns the trimmed non-empty
    patterns in input order, keeping the first of those that are equal
    up to letter case; every pattern it returns is non-empty and
    trimmed, no two are equal up to case, and normalising its result
    again returns the result unchanged. *)
Theorem normalizeExcludedPatterns_normal (patterns : option (list jsstring)) :
  let normalized := normalizeExcludedPatterns patterns in
  normalized
  = firstBy JsString.toLowerCase
      (filter (fun p => p <> []) (JsString.trim <$> default [] patterns))
  /\ Forall (fun p => p <> [] /\ JsString.trim p = p) normalized
  /\ NoDup (JsString.toLowerCase <$> normalized)
  /\ normalized `sublist_of` (JsString.trim <$> default [] patterns)
  /\ normalizeExcludedPatterns (Some normalized) = normalized.
Proof.
  intros normalized. split; [apply normalizeExcludedPatterns_firstBy|].
  destruct (normalizeExcludedPatterns_distinct patterns) as [Hall Hnodup].
  split; [done|]. split; [done|].
  split; [|apply normalizeExcludedPatterns_idemp].
  unfold normalized. rewrite normalizeExcludedPatterns_firstBy.
  etrans; [apply firstBy_sublist|apply sublist_filter].
Qed.

(** ** [normalizeApiKeyList], continued *)

Lemma apiKeyText_JStr s : apiKeyText (JStr s) = JsString.trim s.
Proof. done. Qed.

Lemma apiKeyText_trimmed item : JsString.trim (apiKeyText item) = apiKeyText item.
Proof. apply trim_idemp. Qed.

Lemma normalizeApiKeyList_distinct input : distinctTexts (normalizeApiKeyList input).
Proof.
  destruct input as [| | | | |items|]; try (split; constructor).
  rewrite normalizeApiKeyList_firstBy.
  apply firstBy_trimmed_distinct, apiKeyText_trimmed.
Qed.

Lemma normalizeApiKeyList_fixed keys :
  distinctTexts keys -> normalizeApiKeyList (JArr (JStr <$> keys)) = keys.
Proof.
  intros Hkeys. rewrite normalizeApiKeyList_firstBy, <- list_fmap_compose.
  by apply distinctTexts_fixed.
Qed.

(** X4.  Every key that normalizeApiKeyList returns is non-empty and
    trimmed, and no two are equal up to letter case; normalising the
    returned keys again returns them unchanged; buildKeyOptions of them
    is one option per key in the same order; and an input that is not an
    array gives no key. *)
Theorem normalizeApiKeyList_normal (input : JsVal) :
  let keys := normalizeApiKeyList input in
  Forall (fun k => k <> [] /\ JsString.trim k = k) keys
  /\ NoDup (JsString.toLowerCase <$> keys)
  /\ normalizeApiKeyList (JArr (JStr <$> keys)) = keys
  /\ buildKeyOptions keys = ProviderKeyOption.mk <$> keys
  /\ ((forall items, input <> JArr items) -> keys = []).
Proof.
  intros keys. destruct (normalizeApiKeyList_distinct input) as [Hall Hnodup].
  split; [done|]. split; [done|].
  assert (Hfixed : normalizeApiKeyList (JArr (JStr <$> keys)) = keys)
    by by apply normalizeApiKeyList_fixed.
  split; [done|]. split.
  - unfold buildKeyOptions. change (map JStr keys) with (JStr <$> keys).
    by rewrite Hfixed.
  - intros Hother. unfold keys. destruct input; try done. by destruct (Hother items).
Qed.

(** ** [matchExcludePattern], continued: letter case *)

Lemma matchExcludePattern_true model pattern :
  matchExcludePattern model pattern = true
  <-> if JsString.includes pattern "*"
      then globMatch (JsString.split "*" pattern) model
      else sameUpToCase model pattern.
Proof.
  assert (Hcompile :
    RegExp.compile
      ("^" ++ JsString.join ".*" (map escapeRegExp (JsString.split "*" pattern)) ++ "$")
    = Some (globTerms (JsString.split "*" pattern))).
  { rewrite compile_anchored. apply parseTerms_join. }
  unfold matchExcludePattern. destruct (JsString.includes pattern "*"); cbn [negb].
  - rewrite (test_true _ _ _ _ Hcompile).
    apply matches_globTerms, split_nonempty.
  - by rewrite bool_decide_eq_true.
Qed.

Lemma lowerChar_star c : Ascii.eqb (JsString.lowerChar c) "*" = Ascii.eqb c "*".
Proof.
  pose proof (allChars_forall (fun c =>
    bool_decide (Ascii.eqb (JsString.lowerChar c) "*" = Ascii.eqb c "*"))
    ltac:(by vm_compute) c) as Hc.
  by apply bool_decide_eq_true in Hc.
Qed.

Lemma lowerChar_lineTerminator c :
  JsString.isLineTerminator (JsString.lowerChar c) = JsString.isLineTerminator c.
Proof.
  pose proof (allChars_forall (fun c =>
    bool_decide (JsString.isLineTerminator (JsString.lowerChar c)
                 = JsString.isLineTerminator c))
    ltac:(by vm_compute) c) as Hc.
  by apply bool_decide_eq_true in Hc.
Qed.

Lemma includes_toLowerCase_star s :
  JsString.includes (JsString.toLowerCase s) "*" = JsString.includes s "*".
Proof.
  unfold JsString.includes, JsString.toLowerCase.
  induction s as [|c s IH]; [done|]. cbn [map existsb]. rewrite IH. f_equal.
  rewrite !(Ascii.eqb_sym "*"%char). apply lowerChar_star.
Qed.

Lemma split_toLowerCase_star s :
  JsString.split "*" (JsString.toLowerCase s)
  = JsString.toLowerCase <$> JsString.split "*" s.
Proof.
  induction s as [|c s IH]; [done|].
  cbn [JsString.toLowerCase map JsString.split].
  fold (JsString.toLowerCase s). rewrite lowerChar_star, IH.
  destruct (Ascii.eqb c "*"); [done|]. by destruct (JsString.split "*" s).
Qed.

Lemma sameUpToCase_toLowerCase_l a b :
  sameUpToCase (JsString.toLowerCase a) b <-> sameUpToCase a b.
Proof. unfold sameUpToCase. by rewrite toLowerCase_idemp. Qed.

Lemma sameUpToCase_toLowerCase_r a b :
  sameUpToCase a (JsString.toLowerCase b) <-> sameUpToCase a b.
Proof. unfold sameUpToCase. by rewrite toLowerCase_idemp. Qed.

Lemma globMatch_segments_toLowerCase segments model :
  globMatch (JsString.toLowerCase <$> segments) model <-> globMatch segments model.
Proof.
  revert model. induction segments as [|seg segments IH]; intros model.
  { split; inversion 1. }
  csimpl. split.
  - inversion 1 as [seg0 m Hsame|seg0 segs prefix gap rest Hne Hsame Hgap Hrest].
    + match goal with
      | Hnil : [] = _ <$> _ |- _ => symmetry in Hnil; apply fmap_nil_inv in Hnil as ->
      end.
      constructor. by apply (proj1 (sameUpToCase_toLowerCase_l _ _)).
    + subst. constructor; [by destruct segments|by apply (proj1 (sameUpToCase_toLowerCase_l _ _))
                          |done|by apply IH].
  - inversion 1 as [seg0 m Hsame|seg0 segs prefix gap rest Hne Hsame Hgap Hrest]; subst.
    + constructor. by apply (proj2 (sameUpToCase_toLowerCase_l _ _)).
    + constructor; [by destruct segments|by apply (proj2 (sameUpToCase_toLowerCase_l _ _))
                   |done|by apply IH].
Qed.

Lemma toLowerCase_app_inv s a b :
  JsString.toLowerCase s = a ++ b ->
  exists s1 s2, s = s1 ++ s2 /\ JsString.toLowerCase s1 = a /\ JsString.toLowerCase s2 = b.
Proof.
  intros Heq. change (JsString.lowerChar <$> s = a ++ b) in Heq.
  apply fmap_app_inv in Heq as (s1 & s2 & -> & -> & ->). by exists s1, s2.
Qed.

Lemma globMatch_model_toLowerCase segments model :
  globMatch segments (JsString.toLowerCase model) <-> globMatch segments model.
Proof.
  split.
  - intros Hm. remember (JsString.toLowerCase model) as lowered eqn:Hl.
    revert model Hl. induction Hm as [seg m Hsame|seg segs prefix gap rest Hne Hsame Hgap _ IH];
      intros model Hl; subst.
    + constructor. by apply (proj1 (sameUpToCase_toLowerCase_r _ _)).
    + symmetry in Hl. apply toLowerCase_app_inv in Hl as (p & r & -> & <- & Hr).
      apply toLowerCase_app_inv in Hr as (g & r' & -> & <- & <-).
      constructor; [done|by apply (proj1 (sameUpToCase_toLowerCase_r _ _))| |by apply IH].
      apply Forall_forall. intros c Hc. rewrite <- lowerChar_lineTerminator.
      rewrite Forall_forall in Hgap. apply Hgap.
      by apply (list_elem_of_fmap_2 JsString.lowerChar).
  - induction 1 as [seg m Hsame|seg segs prefix gap rest Hne Hsame Hgap _ IH].
    + constructor. by apply (proj2 (sameUpToCase_toLowerCase_r _ _)).
    + rewrite !toLowerCase_app.
      constructor; [done|by apply (proj2 (sameUpToCase_toLowerCase_r _ _))| |done].
      apply Forall_forall. intros c (c' & -> & Hc')%list_elem_of_fmap.
      rewrite lowerChar_lineTerminator. rewrite Forall_forall in Hgap. by apply Hgap.
Qed.

Lemma matchExcludePattern_toLowerCase model pattern :
  matchExcludePattern (JsString.toLowerCase model) (JsString.toLowerCase pattern) = true
  <-> matchExcludePattern model pattern = true.
Proof.
  rewrite !matchExcludePattern_true, includes_toLowerCase_star, split_toLowerCase_star.
  destruct (JsString.includes pattern "*").
  - by rewrite globMatch_segments_toLowerCase, globMatch_model_toLowerCase.
  - by rewrite sameUpToCase_toLowerCase_l, sameUpToCase_toLowerCase_r.
Qed.

(** X3.  matchExcludePattern depends on the model name and on the
    pattern only up to letter case: two model names equal up to case and
    two patterns equal up to case give the same answer, with or without
    wildcards in the pattern. *)
Theorem matchExcludePattern_ignores_case (model model' pattern pattern' : jsstring) :
  sameUpToCase model model' ->
  sameUpToCase pattern pattern' ->
  matchExcludePattern model pattern = matchExcludePattern model' pattern'.
Proof.
  intros Hm Hp. apply eq_true_iff_eq.
  rewrite <- (matchExcludePattern_toLowerCase model pattern).
  rewrite <- (matchExcludePattern_toLowerCase model' pattern').
  unfold sameUpToCase in Hm, Hp. by rewrite Hm, Hp.
Qed.

Lemma matchExcludePattern_ignores_case_witness :
  matchExcludePattern "GPT-4o-Mini" "gpt-*-MINI" = matchExcludePattern "gpt-4o-mini" "GPT-*-mini".
Proof. by apply matchExcludePattern_ignores_case. Defined.

(** ** [filterExcludedModels] *)

Lemma normalized_pattern_matches patterns candidate :
  (exists pattern, pattern ∈ normalizeExcludedPatterns patterns
                   /\ matchExcludePattern candidate pattern = true)
  <-> exists pattern, pattern ∈ default [] patterns /\ JsString.trim pattern <> []
                      /\ matchExcludePattern candidate (JsString.trim pattern) = true.
Proof.
  rewrite normalizeExcludedPatterns_firstBy.
  set (texts := filter (fun p => p <> []) (JsString.trim <$> default [] patterns)).
  split.
  - intros (pattern & Hin & Hmatch).
    apply (fun H => elem_of_sublist _ _ _ H (firstBy_sublist _ _)) in Hin.
    apply list_elem_of_filter in Hin as [Hne Hin].
    apply list_elem_of_fmap in Hin as (raw & -> & Hraw). by exists raw.
  - intros (raw & Hraw & Hne & Hmatch).
    assert (Hkey : JsString.toLowerCase (JsString.trim raw)
                   ∈ JsString.toLowerCase <$> firstBy JsString.toLowerCase texts).
    { apply elem_of_firstBy_keys, list_elem_of_fmap_2, list_elem_of_filter.
      split; [done|]. by apply list_elem_of_fmap_2. }
    apply list_elem_of_fmap in Hkey as (pattern & Hsame & Hin).
    exists pattern. split; [done|]. rewrite <- Hmatch. apply eq_true_iff_eq.
    rewrite <- (matchExcludePattern_toLowerCase candidate pattern).
    rewrite <- (matchExcludePattern_toLowerCase candidate (JsString.trim raw)).
    by rewrite Hsame.
Qed.

Lemma filterExcludedModels_filter models patterns :
  filterExcludedModels models patterns
  = List.filter
      (fun model =>
         negb (existsb
                 (fun candidate =>
                    existsb (fun pattern => matchExcludePattern candidate pattern)
                      (normalizeExcludedPatterns patterns))
                 (candidateNames model)))
      models.
Proof.
  unfold filterExcludedModels.
  assert (Hcand : forall model,
    List.filter (fun s => negb (JsString.isEmpty s))
      [normalizeText (JStr (ModelInfo.name model));
       normalizeText (Js.ofOpt (ModelInfo.alias model))]
    = candidateNames model).
  { intros model. unfold candidateNames.
    rewrite normalizeText_JStr, normalizeText_ofOpt.
    set (a := JsString.trim (ModelInfo.name model)).
    set (b := JsString.trim (default [] (ModelInfo.alias model))).
    rewrite !filter_cons, filter_nil. simpl.
    by destruct a, b. }
  destruct (normalizeExcludedPatterns patterns) as [|p ps] eqn:Hps.
  - symmetry. induction models as [|model models IH]; [done|]. cbn [List.filter].
    assert (existsb (fun candidate : jsstring =>
                       existsb (fun pattern => matchExcludePattern candidate pattern) [])
              (candidateNames model) = false) as ->.
    { by induction (candidateNames model). }
    cbn [negb]. by rewrite IH.
  - apply filter_ext. intros model. rewrite Hcand.
    by destruct (candidateNames model).
Qed.

Lemma filterExcludedModels_elem_of models patterns model :
  model ∈ filterExcludedModels models patterns
  <-> model ∈ models /\ ~ excludedBy (default [] patterns) model.
Proof.
  rewrite filterExcludedModels_filter, list_elem_of_In, filter_In, <- list_elem_of_In.
  apply and_iff_compat_l. rewrite negb_true_iff, <- not_true_iff_false.
  apply not_iff_compat. rewrite existsb_exists. split.
  - intros (candidate & Hc & Hex). apply list_elem_of_In in Hc.
    apply existsb_exists in Hex as (pattern & Hp & Hmatch). apply list_elem_of_In in Hp.
    destruct (proj1 (normalized_pattern_matches patterns candidate))
      as (raw & Hraw & Hne & Hm); [by exists pattern|].
    by exists raw, candidate.
  - intros (raw & candidate & Hraw & Hne & Hc & Hm).
    destruct (proj2 (normalized_pattern_matches patterns candidate))
      as (pattern & Hp & Hmatch); [by exists raw|].
    exists candidate. split; [by apply list_elem_of_In|].
    apply existsb_exists. exists pattern. split; [by apply list_elem_of_In|done].
Qed.

Lemma List_filter_sublist {A} (f : A -> bool) (l : list A) : List.filter f l `sublist_of` l.
Proof.
  induction l as [|x l IH]; simpl; [done|].
  destruct (f x); [by apply sublist_skip|by apply sublist_cons].
Qed.

(** X5.  filterExcludedModels returns the models in their order without
    the excluded ones: a model is dropped exactly when its trimmed name
    or its trimmed alias, if not empty, matches one of the patterns
    after trimming, blank patterns not counting. With blank patterns
    only nothing is dropped, and a model whose name and alias are both
    blank is always kept. *)
Theorem filterExcludedModels_keeps (models : list ModelInfo)
  (patterns : option (list jsstring)) :
  let kept := filterExcludedModels models patterns in
  kept `sublist_of` models
  /\ (forall model,
        model ∈ kept <-> model ∈ models /\ ~ excludedBy (default [] patterns) model)
  /\ ((forall pattern, pattern ∈ default [] patterns -> JsString.trim pattern = []) ->
      kept = models)
  /\ (forall model,
        model ∈ models ->
        JsString.trim (ModelInfo.name model) = [] ->
        JsString.trim (default [] (ModelInfo.alias model)) = [] ->
        model ∈ kept).
Proof.
  intros kept. split; [|split; [|split]].
  - unfold kept. rewrite filterExcludedModels_filter. apply List_filter_sublist.
  - apply filterExcludedModels_elem_of.
  - intros Hblank. unfold kept, filterExcludedModels.
    rewrite normalizeExcludedPatterns_firstBy.
    assert (filter (fun p => p <> []) (JsString.trim <$> default [] patterns) = []) as ->;
      [|done].
    induction (default [] patterns) as [|p ps IH]; [done|].
    csimpl. rewrite filter_cons, decide_False.
    + apply IH. intros q Hq. apply Hblank. by right.
    + intros Hne. apply Hne, Hblank. by left.
  - intros model Hin Hname Halias. apply filterExcludedModels_elem_of. split; [done|].
    intros (pattern & candidate & _ & _ & Hc & _). unfold candidateNames in Hc.
    rewrite Hname, Halias in Hc. by inversion Hc.
Qed.

(** ** De-duplicated lists of models *)

Lemma dedupeModels_deduplicated models : deduplicated (dedupeModels models).
Proof.
  split; [|apply dedupeModels_keys_NoDup].
  apply Forall_forall. intros out Hout. split.
  - apply elem_of_dedupeModels in Hout as (before & m & rest & _ & _ & _ & ->).
    apply cleanModel_idemp.
  - pose proof (dedupeModels_keys_nonempty models) as Hne.
    rewrite Forall_forall in Hne. by apply Hne.
Qed.

Lemma deduplicated_fixed models : deduplicated models <-> dedupeModels models = models.
Proof.
  split.
  - intros [Hall Hnodup]. rewrite dedupeModels_firstBy.
    rewrite filter_all by (eapply Forall_impl; [exact Hall|]; by intros m [_ ?]).
    rewrite firstBy_id by done.
    clear Hnodup. induction Hall as [|m l [Hm _] _ IH]; [done|]. csimpl. by rewrite Hm, IH.
  - intros <-. apply dedupeModels_deduplicated.
Qed.

Lemma deduplicated_sublist kept models :
  kept `sublist_of` models -> deduplicated models -> deduplicated kept.
Proof.
  intros Hsub [Hall Hnodup]. split.
  - apply Forall_forall. intros m Hm. rewrite Forall_forall in Hall.
    apply Hall. by apply (elem_of_sublist _ _ _ Hm).
  - by apply (sublist_NoDup _ _ Hnodup), fmap_sublist.
Qed.

(** ** Alias lookup *)

Lemma applyAliasLookup_deduplicated models lookup :
  deduplicated (applyAliasLookup models lookup).
Proof.
  unfold applyAliasLookup. destruct lookup as [lk|]; [|apply dedupeModels_deduplicated].
  destruct (PlainObject.keyCount lk =? 0)%nat; apply dedupeModels_deduplicated.
Qed.

Lemma postProcess_deduplicated entry models : deduplicated (postProcess entry models).
Proof.
  unfold postProcess. eapply deduplicated_sublist; [|apply applyAliasLookup_deduplicated].
  rewrite filterExcludedModels_filter. apply List_filter_sublist.
Qed.

Lemma postProcess_not_excluded entry models model :
  model ∈ postProcess entry models ->
  ~ excludedBy (default [] (Entry.excludedPatterns entry)) model.
Proof. unfold postProcess. by intros [_ ?]%filterExcludedModels_elem_of. Qed.

Lemma fetchAuthProxyModels_postProcess
  (getModelDefinitions getModelsForAuthFile : jsstring -> Settled (list AuthApiModel))
  (entry : EndpointProviderEntry) (models : list ModelInfo) :
  fetchAuthProxyModels getModelDefinitions getModelsForAuthFile entry = Fulfilled models ->
  models = [] \/ exists found, models = postProcess entry found.
Proof.
  destruct (decide (normalizeProviderKey (JStr (Entry.providerKey entry)) = [])) as [Hkey|Hkey].
  { unfold fetchAuthProxyModels. rewrite Hkey. cbn [JsString.isEmpty]. intros [= <-]. by left. }
  rewrite fetchAuthProxyModels_cases by done. cbv zeta.
  destruct (getModelDefinitions _) as [ds|error].
  - destruct (normalizeAuthApiModels ds) as [|m ms]; intros [= <-]; right; eauto.
  - destruct (_ && _ && _); [done|]. intros [= <-]. right. eauto.
Qed.

(** X6.  Whenever fetchAuthProxyModels resolves, its list is in the form
    that dedupeModels leaves: de-duplicating it again changes nothing,
    no two models share a name up to case, every name is trimmed and
    non-empty, and no model of the list is matched by an exclusion
    pattern of the entry. *)
Theorem fetchAuthProxyModels_result
  (getModelDefinitions getModelsForAuthFile : jsstring -> Settled (list AuthApiModel))
  (entry : EndpointProviderEntry) (models : list ModelInfo) :
  fetchAuthProxyModels getModelDefinitions getModelsForAuthFile entry = Fulfilled models ->
  dedupeModels models = models
  /\ NoDup (modelKey <$> models)
  /\ Forall (fun model => JsString.trim (ModelInfo.name model) = ModelInfo.name model
                          /\ ModelInfo.name model <> []) models
  /\ forall model,
       model ∈ models ->
       ~ excludedBy (default [] (Entry.excludedPatterns entry)) model.
Proof.
  intros [->|[found ->]]%fetchAuthProxyModels_postProcess.
  { split; [done|]. split; [constructor|]. split; [constructor|]. by intros ? ?%elem_of_nil. }
  pose proof (postProcess_deduplicated entry found) as Hd.
  split; [by apply deduplicated_fixed|]. destruct Hd as [Hall Hnodup].
  split; [done|]. split; [|apply postProcess_not_excluded].
  eapply Forall_impl; [exact Hall|]. intros m [Hclean Hkey]. split.
  - by rewrite <- Hclean at 2.
  - intros Hname. apply Hkey. unfold modelKey. by rewrite Hname.
Qed.

Lemma fetchAuthProxyModels_result_witness :
  dedupeModels (postProcess sample_entry (modelsFromFiles backend_lists_gpt5 ["codex-a.json"]))
  = postProcess sample_entry (modelsFromFiles backend_lists_gpt5 ["codex-a.json"]).
Proof.
  apply (fetchAuthProxyModels_result backend_down backend_lists_gpt5 sample_entry).
  by vm_compute.
Defined.

Lemma PlainObject_set_lookup (o : PlainObject.t) (key text name : jsstring) :
  o !! ("__proto__" : jsstring) = None ->
  PlainObject.set o key text !! name
  = if decide (name = "__proto__") then None
    else if decide (key = name) then Some text else o !! name.
Proof.
  intros Hproto. unfold PlainObject.set.
  destruct (decide (key = "__proto__")) as [->|Hkey].
  - rewrite Hproto. destruct (decide (name = "__proto__")) as [->|Hname]; [done|].
    by rewrite decide_False.
  - destruct (decide (name = "__proto__")) as [->|Hname].
    + by rewrite lookup_insert_ne.
    + destruct (decide (key = name)) as [->|Hne].
      * apply lookup_insert_eq.
      * by apply lookup_insert_ne.
Qed.

Lemma buildAliasLookup_lookup entries (name : jsstring) :
  buildAliasLookup (Some entries) !! name
  = if decide (name = "__proto__") then None
    else aliasText <$> last (aliasesOf name entries).
Proof.
  unfold buildAliasLookup, aliasesOf. revert name.
  induction entries as [|entry entries IH] using rev_ind; intros name.
  { cbn [foldl]. rewrite lookup_empty. by destruct (decide _). }
  rewrite foldl_app, filter_app. cbn [foldl].
  rewrite !normalizeText_JStr. fold (aliasKey entry) (aliasText entry).
  rewrite filter_cons, filter_nil.
  assert (Hproto : foldl
            (fun aliasLookup entry0 =>
               if JsString.isEmpty
                    (JsString.toLowerCase
                       (normalizeText (JStr (OAuthModelAliasEntry.name entry0))))
                  || JsString.isEmpty
                       (normalizeText (JStr (OAuthModelAliasEntry.alias entry0)))
               then aliasLookup
               else PlainObject.set aliasLookup
                      (JsString.toLowerCase
                         (normalizeText (JStr (OAuthModelAliasEntry.name entry0))))
                      (normalizeText (JStr (OAuthModelAliasEntry.alias entry0))))
            ∅ entries !! ("__proto__" : jsstring) = None).
  { rewrite IH. by rewrite decide_True. }
  destruct (decide (aliasKey entry = name /\ aliasKey entry <> [] /\ aliasText entry <> []))
    as [(Hname & Hk & Ha)|Hn].
  - rewrite (proj2 (isEmpty_false _) Hk), (proj2 (isEmpty_false _) Ha). cbn [orb].
    rewrite PlainObject_set_lookup by done.
    destruct (decide (name = "__proto__")); [done|].
    rewrite decide_True by done. by rewrite last_snoc.
  - rewrite app_nil_r.
    destruct (JsString.isEmpty (aliasKey entry)) eqn:Hk; [apply IH|].
    destruct (JsString.isEmpty (aliasText entry)) eqn:Ha; [apply IH|]. cbn [orb].
    rewrite PlainObject_set_lookup by done.
    destruct (decide (name = "__proto__")) as [Hp|Hp].
    + done.
    + rewrite decide_False, IH; [by rewrite decide_False|].
      intros Heq. apply Hn. by rewrite isEmpty_false in Hk, Ha.
Qed.

(** X7.  buildAliasLookup stores under each lower-cased trimmed name,
    other than __proto__, the trimmed alias of the last entry with that
    name among the entries whose name and alias are both non-blank; an
    assignment under __proto__ is ignored by the object, so nothing is
    ever stored under it. Stored names are non-empty, trimmed and
    lower-case, stored aliases non-empty and trimmed, and the lookup is
    empty exactly when every entry has a blank name, a blank alias or
    the name __proto__. *)
Theorem buildAliasLookup_last_wins (entries : option (list OAuthModelAliasEntry))
  (name : jsstring) :
  let lookup := buildAliasLookup entries in
  lookup !! name
  = (if decide (name = "__proto__") then None
     else aliasText <$> last (aliasesOf name (default [] entries)))
  /\ (forall alias : jsstring,
        lookup !! name = Some alias ->
        name <> [] /\ JsString.toLowerCase (JsString.trim name) = name
        /\ alias <> [] /\ JsString.trim alias = alias)
  /\ (lookup = ∅
      <-> forall entry,
            entry ∈ default [] entries ->
            aliasKey entry = [] \/ aliasText entry = [] \/ aliasKey entry = "__proto__").
Proof.
  intros lookup.
  assert (Hlookup : forall name : jsstring,
            lookup !! name
            = if decide (name = "__proto__") then None
              else aliasText <$> last (aliasesOf name (default [] entries))).
  { intros name'. unfold lookup.
    destruct entries as [entries|]; [apply buildAliasLookup_lookup|].
    cbn. rewrite lookup_empty. by destruct (decide _). }
  split; [done|]. split.
  - intros alias. rewrite Hlookup. destruct (decide _); [done|].
    destruct (last _) as [entry|] eqn:Hlast; [|done]. intros [= <-].
    apply last_Some_elem_of, list_elem_of_filter in Hlast as [(<- & Hk & Ha) _].
    split; [done|]. split.
    + unfold aliasKey. by rewrite trim_toLowerCase, trim_idemp, toLowerCase_idemp.
    + split; [done|apply trim_idemp].
  - split.
    + intros Hempty entry Hin.
      destruct (decide (aliasKey entry = [])) as [|Hk]; [by left|].
      destruct (decide (aliasText entry = [])) as [|Ha]; [by right; left|].
      destruct (decide (aliasKey entry = "__proto__")) as [|Hp]; [by right; right|].
      exfalso. pose proof (Hlookup (aliasKey entry)) as Hown.
      rewrite Hempty, lookup_empty, decide_False in Hown by done.
      symmetry in Hown. apply fmap_None, last_None in Hown.
      assert (Hmember : entry ∈ aliasesOf (aliasKey entry) (default [] entries))
        by (by apply list_elem_of_filter).
      rewrite Hown in Hmember. by apply elem_of_nil in Hmember.
    + intros Hnone. apply map_eq. intros name'. rewrite Hlookup, lookup_empty.
      destruct (decide _) as [|Hp]; [done|].
      destruct (last _) as [entry|] eqn:Hlast; [|done]. exfalso.
      apply last_Some_elem_of, list_elem_of_filter in Hlast as [(Hname & Hk & Ha) Hin].
      destruct (Hnone entry Hin) as [?|[?|?]]; [done|done|]. congruence.
Qed.

Lemma PlainObject_keyCount_zero (o : PlainObject.t) :
  (PlainObject.keyCount o =? 0)%nat = true <-> o = ∅.
Proof. unfold PlainObject.keyCount. rewrite Nat.eqb_eq. apply map_size_empty_iff. Qed.

Lemma applyAliasLookup_empty models lookup :
  default ∅ lookup = ∅ -> applyAliasLookup models lookup = dedupeModels models.
Proof.
  unfold applyAliasLookup. destruct lookup as [lk|]; [|done]. simpl.
  intros ->. done.
Qed.

Lemma PlainObject_normalizeText_trimmed value :
  JsString.trim (PlainObject.normalizeText value) = PlainObject.normalizeText value.
Proof. apply trim_idemp. Qed.

(** X8.  applyAliasLookup returns a list that dedupeModels leaves
    unchanged; with no lookup or an empty one it is dedupeModels of the
    input; otherwise every model of the result is the cleaned form of an
    input model, or an input model renamed to the non-empty trimmed text
    that the lookup object gives for its lower-cased trimmed name (an
    alias of its own, or a member it inherits from Object.prototype, as
    under constructor), with the old trimmed name as alias, the
    description kept, and the new name differing from the old one up to
    case. A name that the object neither holds nor inherits gives no
    renaming. *)
Theorem applyAliasLookup_renames (models : list ModelInfo)
  (lookup : option PlainObject.t) :
  let result := applyAliasLookup models lookup in
  let table := default ∅ lookup in
  dedupeModels result = result
  /\ (table = ∅ -> result = dedupeModels models)
  /\ (forall out,
        out ∈ result ->
        exists model,
          model ∈ models
          /\ (out = cleanModel model
              \/ (let mapped :=
                    PlainObject.normalizeText (PlainObject.get table (modelKey model)) in
                  table <> ∅
                  /\ mapped <> []
                  /\ ModelInfo.name out = mapped
                  /\ ModelInfo.alias out = Some (JsString.trim (ModelInfo.name model))
                  /\ ModelInfo.description out
                     = ModelInfo.description (cleanModel model)
                  /\ ~ sameUpToCase mapped (JsString.trim (ModelInfo.name model)))))
  /\ (forall name alias : jsstring,
        table !! name = Some alias ->
        PlainObject.normalizeText (PlainObject.get table name) = JsString.trim alias)
  /\ (forall name : jsstring,
        table !! name = None ->
        name <> "__proto__" -> name <> "constructor" -> name ∉ PlainObject.methods ->
        PlainObject.normalizeText (PlainObject.get table name) = []).
Proof.
  intros result table. split; [apply deduplicated_fixed, applyAliasLookup_deduplicated|].
  split; [apply applyAliasLookup_empty|].
  split; [|split].
  2:{ intros name alias Hown. unfold PlainObject.get. by rewrite Hown. }
  2:{ intros name Hown Hproto Hconstructor Hmethod.
      unfold PlainObject.get, PlainObject.inherited. rewrite Hown.
      by rewrite !decide_False. }
  intros out. unfold result, table, applyAliasLookup.
  destruct lookup as [lk|]; cbn [from_option id].
  2:{ intros (before & m & rest & -> & _ & _ & ->)%elem_of_dedupeModels.
      exists m. split; [|by left]. apply elem_of_app. right. by left. }
  destruct (PlainObject.keyCount lk =? 0)%nat eqn:Hcount.
  { intros (before & m & rest & -> & _ & _ & ->)%elem_of_dedupeModels.
    exists m. split; [|by left]. apply elem_of_app. right. by left. }
  assert (Hlk : lk <> ∅).
  { intros Hempty%PlainObject_keyCount_zero. by rewrite Hempty in Hcount. }
  intros (before & m' & rest & Hmapped & Hkey & _ & ->)%elem_of_dedupeModels.
  assert (Hin : m' ∈ before ++ m' :: rest) by (apply elem_of_app; right; by left).
  rewrite <- Hmapped in Hin.
  apply list_elem_of_In, in_map_iff in Hin as (model & Hm' & Hin%list_elem_of_In).
  exists model. split; [done|]. cbv zeta in Hm'.
  rewrite normalizeText_JStr in Hm'.
  destruct (JsString.isEmpty (JsString.trim (ModelInfo.name model))) eqn:Hname;
    [left; by subst|].
  fold (modelKey model) in Hm'.
  set (mapped := PlainObject.normalizeText (PlainObject.get lk (modelKey model))) in *.
  destruct (JsString.isEmpty mapped) eqn:Hmappedne; [left; by subst|].
  case_bool_decide as Hsame; [left; by subst|].
  right. cbv zeta. fold mapped. subst m'. split; [done|].
  split; [by apply isEmpty_false|].
  unfold cleanModel.
  cbn [ModelInfo.name ModelInfo.alias ModelInfo.description from_option id].
  rewrite !trim_idemp.
  assert (Htrimmed : JsString.trim mapped = mapped)
    by apply PlainObject_normalizeText_trimmed.
  rewrite Htrimmed. split; [done|]. split; [|split; [done|]].
  - apply decide_False. unfold modelKey. cbn [ModelInfo.name]. rewrite Htrimmed.
    apply isEmpty_false in Hname. intros [?|Heq]; [done|]. by apply Hsame.
  - done.
Qed.

(** The members that a lookup object inherits: with a lookup that holds
    an alias, a model named [constructor] takes the text of the function
    [Object] for its name, and one named [__proto__] the text of a plain
    object; and an alias entry for the name [__proto__] leaves the lookup
    as it is. *)
Lemma applyAliasLookup_inherited :
  let lookup := buildAliasLookup (Some [ {| OAuthModelAliasEntry.name := "gpt-5";
                                            OAuthModelAliasEntry.alias := "GPT 5" |} ]) in
  let named name :=
    {| ModelInfo.name := name; ModelInfo.alias := None; ModelInfo.description := None |} in
  applyAliasLookup [named "constructor"; named "__proto__"] (Some lookup)
  = [ {| ModelInfo.name := "function Object() { [native code] }";
         ModelInfo.alias := Some "constructor"; ModelInfo.description := None |};
      {| ModelInfo.name := "[object Object]";
         ModelInfo.alias := Some "__proto__"; ModelInfo.description := None |} ]
  /\ buildAliasLookup (Some [ {| OAuthModelAliasEntry.name := "__proto__";
                                 OAuthModelAliasEntry.alias := "GPT 5" |} ])
     = ∅.
Proof. by vm_compute. Qed.

(** ** Key selection *)

Lemma clampKeyIndex_range index count :
  (0 < count)%Z -> (0 <= clampKeyIndex index count < count)%Z.
Proof. unfold clampKeyIndex. intros Hc. rewrite (proj2 (Z.leb_gt _ _)) by done. lia. Qed.

Lemma clampKeyIndex_idemp index count :
  clampKeyIndex (clampKeyIndex index count) count = clampKeyIndex index count.
Proof. unfold clampKeyIndex. destruct (count <=? 0)%Z eqn:Hc; [done|]. lia. Qed.

Lemma clampKeyIndex_fixed index count :
  (0 < count)%Z -> clampKeyIndex index count = index <-> (0 <= index < count)%Z.
Proof. unfold clampKeyIndex. intros Hc. rewrite (proj2 (Z.leb_gt _ _)) by done. lia. Qed.

(** X9.  For a positive key count clampKeyIndex returns an index from 0
    to count-1: the index itself exactly when it is in that range, 0 for
    a negative index and count-1 for an index that is too large;
    clamping a clamped index changes nothing. *)
Theorem clampKeyIndex_valid (index keyCount : Z) :
  (0 < keyCount)%Z ->
  (0 <= clampKeyIndex index keyCount < keyCount)%Z
  /\ (clampKeyIndex index keyCount = index <-> (0 <= index < keyCount)%Z)
  /\ ((index < 0)%Z -> clampKeyIndex index keyCount = 0%Z)
  /\ ((keyCount <= index)%Z -> clampKeyIndex index keyCount = (keyCount - 1)%Z)
  /\ clampKeyIndex (clampKeyIndex index keyCount) keyCount = clampKeyIndex index keyCount.
Proof.
  intros Hc. split; [by apply clampKeyIndex_range|].
  split; [by apply clampKeyIndex_fixed|].
  split; [|split; [|apply clampKeyIndex_idemp]];
    unfold clampKeyIndex; rewrite (proj2 (Z.leb_gt _ _)) by done; lia.
Qed.

Lemma clampKeyIndex_valid_witness :
  (0 <= clampKeyIndex 7 3 < 3)%Z.
Proof. apply (clampKeyIndex_valid 7 3). lia. Defined.

Lemma JsArray_get_lookup {A} (l : list A) (i : Z) :
  (0 <= i)%Z -> JsArray.get l i = l !! Z.to_nat i.
Proof. unfold JsArray.get. intros Hi. by rewrite (proj2 (Z.ltb_ge _ _)). Qed.

(** X10.  The key that a provider card uses (currentKey) is one of the
    provider's keys whenever the provider has any: the key at the
    selected index when that index is in range, the first key for a
    negative index and the last key for an index that is too large; it
    is the empty text when the provider has no key. *)
Theorem currentKey_is_listed (provider : EndpointProviderEntry) (selectedKeyIdx : Z) :
  let keys := ProviderKeyOption.apiKey <$> Entry.keyOptions provider in
  (keys = [] -> currentKey provider selectedKeyIdx = "")
  /\ (keys <> [] -> currentKey provider selectedKeyIdx ∈ keys)
  /\ (forall key : jsstring,
        (0 <= selectedKeyIdx)%Z ->
        keys !! Z.to_nat selectedKeyIdx = Some key ->
        currentKey provider selectedKeyIdx = key)
  /\ ((selectedKeyIdx < 0)%Z -> currentKey provider selectedKeyIdx = default "" (head keys))
  /\ ((Z.of_nat (length keys) <= selectedKeyIdx)%Z ->
      currentKey provider selectedKeyIdx = default "" (last keys)).
Proof.
  intros keys. unfold currentKey.
  assert (Hlen : length keys = length (Entry.keyOptions provider)) by apply length_fmap.
  set (count := Z.of_nat (length (Entry.keyOptions provider))).
  assert (Hcount : count = Z.of_nat (length keys)) by (unfold count; by rewrite Hlen).
  clearbody count.
  assert (Hget : forall i, (0 <= i)%Z ->
            match JsArray.get (Entry.keyOptions provider) i with
            | Some selectedKey => ProviderKeyOption.apiKey selectedKey
            | None => ""
            end = default "" (keys !! Z.to_nat i)).
  { intros i Hi. rewrite JsArray_get_lookup by done. unfold keys.
    rewrite list_lookup_fmap. by destruct (Entry.keyOptions provider !! Z.to_nat i). }
  clearbody keys. clear Hlen. subst count.
  destruct keys as [|key0 keys'].
  { split; [intros _; by rewrite Hget|]. split; [done|]. split; [by intros key _ ?|].
    split; intros _; by rewrite Hget. }
  set (keys := key0 :: keys') in *.
  set (count := Z.of_nat (length keys)).
  assert (Hpos : (0 < count)%Z) by (unfold count, keys; cbn [length]; lia).
  pose proof (clampKeyIndex_range selectedKeyIdx count Hpos) as Hrange.
  rewrite Hget by lia.
  split; [done|]. split; [|split; [|split]].
  - intros _.
    destruct (keys !! Z.to_nat (clampKeyIndex selectedKeyIdx count)) as [key|] eqn:Hkey.
    + by apply list_elem_of_lookup_2 in Hkey.
    + apply lookup_ge_None in Hkey. subst count. unfold jsstring in *. lia.
  - intros key Hidx Hkey.
    rewrite (proj2 (clampKeyIndex_fixed selectedKeyIdx count Hpos));
      [unfold jsstring in *; by rewrite Hkey|].
    apply lookup_lt_Some in Hkey. subst count. unfold jsstring in *. lia.
  - intros Hneg. unfold clampKeyIndex. rewrite (proj2 (Z.leb_gt _ _)) by done.
    replace (Z.min (Z.max selectedKeyIdx 0) (count - 1)) with 0%Z by lia. done.
  - intros Hbig. unfold clampKeyIndex. rewrite (proj2 (Z.leb_gt _ _)) by done.
    replace (Z.min (Z.max selectedKeyIdx 0) (count - 1)) with (count - 1)%Z
      by (subst count; unfold jsstring in *; lia).
    rewrite last_lookup. do 2 f_equal. subst count. unfold jsstring in *. lia.
Qed.

Lemma buildSelectionMap_lookup entries previous id :
  buildSelectionMap entries previous !! id
  = (fun entry => clampKeyIndex (default 0%Z (previous !! id)) (keyCount entry))
      <$> lastWithId id entries.
Proof.
  unfold buildSelectionMap, lastWithId.
  induction entries as [|entry entries IH] using rev_ind; [done|].
  rewrite foldl_app, filter_app, filter_cons, filter_nil. cbn [foldl].
  destruct (decide (Entry.id entry = id)) as [<-|Hne].
  - rewrite lookup_insert_eq. by rewrite last_snoc.
  - rewrite lookup_insert_ne by done. by rewrite app_nil_r.
Qed.

Lemma lastWithId_Some id entries entry :
  lastWithId id entries = Some entry -> entry ∈ entries /\ Entry.id entry = id.
Proof.
  intros Hlast%last_Some_elem_of. by apply list_elem_of_filter in Hlast as [? ?].
Qed.

Lemma lastWithId_is_Some id entries :
  is_Some (lastWithId id entries) <-> id ∈ Entry.id <$> entries.
Proof.
  unfold lastWithId. split.
  - intros [entry [Hin <-]%lastWithId_Some]. by apply list_elem_of_fmap_2.
  - intros (entry & -> & Hin)%list_elem_of_fmap.
    destruct (filter (fun e => Entry.id e = Entry.id entry) entries) as [|x l] eqn:Hf.
    + assert (entry ∈ filter (fun e => Entry.id e = Entry.id entry) entries)
        by by apply list_elem_of_filter.
      rewrite Hf in *. by apply elem_of_nil in H.
    + rewrite last_cons. destruct (last l); eauto.
Qed.

Lemma lastWithId_unique entries entry :
  NoDup (Entry.id <$> entries) -> entry ∈ entries ->
  lastWithId (Entry.id entry) entries = Some entry.
Proof.
  intros Hnodup Hin.
  destruct (proj2 (lastWithId_is_Some (Entry.id entry) entries)) as [other Hother].
  { by apply list_elem_of_fmap_2. }
  rewrite Hother. f_equal.
  apply lastWithId_Some in Hother as [Hin' Hid].
  apply list_elem_of_lookup in Hin as [i Hi], Hin' as [j Hj].
  assert (i = j) as ->; [|congruence].
  apply (NoDup_lookup _ i j (Entry.id entry) Hnodup).
  - by rewrite list_lookup_fmap, Hi.
  - by rewrite list_lookup_fmap, Hj, <- Hid.
Qed.

Lemma buildSelectionMap_unique (entries : list EndpointProviderEntry) (previous : gmap jsstring Z) entry :
  NoDup (Entry.id <$> entries) -> entry ∈ entries ->
  buildSelectionMap entries previous !! Entry.id entry
  = Some (clampKeyIndex (default 0%Z (previous !! Entry.id entry)) (keyCount entry)).
Proof. intros Hnodup Hin. by rewrite buildSelectionMap_lookup, lastWithId_unique. Qed.

Lemma buildSelectionMap_validSelection (entries : list EndpointProviderEntry) (previous : gmap jsstring Z) :
  NoDup (Entry.id <$> entries) ->
  validSelection entries (buildSelectionMap entries previous).
Proof.
  intros Hnodup entry index Hin. rewrite buildSelectionMap_unique by done.
  intros [= <-]. apply clampKeyIndex_idemp.
Qed.

(** X11.  buildSelectionMap gives an index to exactly the ids of the
    entries; each index is the previous index of that id (0 if there is
    none) clamped to the key count of an entry with that id; when the
    ids are distinct every entry gets its own clamped index, which is in
    range for it; and building the map again from its own result changes
    nothing. *)
Theorem buildSelectionMap_valid (entries : list EndpointProviderEntry)
  (previous : gmap jsstring Z) :
  let next := buildSelectionMap entries previous in
  (forall id, is_Some (next !! id) <-> id ∈ Entry.id <$> entries)
  /\ (forall id index,
        next !! id = Some index ->
        exists entry,
          entry ∈ entries /\ Entry.id entry = id
          /\ index = clampKeyIndex (default 0%Z (previous !! id)) (keyCount entry))
  /\ (NoDup (Entry.id <$> entries) ->
      forall entry,
        entry ∈ entries ->
        next !! Entry.id entry
        = Some (clampKeyIndex (default 0%Z (previous !! Entry.id entry)) (keyCount entry)))
  /\ (NoDup (Entry.id <$> entries) -> validSelection entries next)
  /\ buildSelectionMap entries next = next.
Proof.
  intros next.
  split; [|split; [|split; [intros; by apply buildSelectionMap_unique|split]]].
  - intros id. unfold next. rewrite buildSelectionMap_lookup, <- lastWithId_is_Some.
    by rewrite fmap_is_Some.
  - intros id index. unfold next. rewrite buildSelectionMap_lookup.
    destruct (lastWithId id entries) as [entry|] eqn:Hlast; [|done].
    intros [= <-]. apply lastWithId_Some in Hlast as [? ?]. by exists entry.
  - apply buildSelectionMap_validSelection.
  - apply map_eq. intros id. rewrite buildSelectionMap_lookup. unfold next at 1 2.
    rewrite buildSelectionMap_lookup.
    destruct (lastWithId id entries) as [entry|]; [|done]. simpl.
    by rewrite clampKeyIndex_idemp.
Qed.

Lemma find_id_Some (entries : list EndpointProviderEntry) id entry :
  find (fun item => bool_decide (Entry.id item = id)) entries = Some entry ->
  entry ∈ entries /\ Entry.id entry = id.
Proof.
  intros [Hin Hid]%find_some. split; [by apply list_elem_of_In|].
  by apply bool_decide_eq_true in Hid.
Qed.

Lemma find_id_None (entries : list EndpointProviderEntry) id :
  find (fun item => bool_decide (Entry.id item = id)) entries = None
  <-> id ∉ Entry.id <$> entries.
Proof.
  split.
  - intros Hnone (entry & -> & Hin)%list_elem_of_fmap.
    apply list_elem_of_In in Hin.
    pose proof (find_none _ _ Hnone entry Hin) as Hf. simpl in Hf.
    by rewrite bool_decide_eq_true_2 in Hf.
  - intros Hout. destruct (find _ entries) as [entry|] eqn:Hfind; [|done].
    apply find_id_Some in Hfind as [Hin <-]. exfalso. apply Hout.
    by apply list_elem_of_fmap_2.
Qed.

(** X12.  With distinct provider ids, handleSelectKey leaves the
    selection as it is for an id that no provider has; otherwise it
    stores the given index, clamped to the key count of that provider,
    under that id and changes no other id; and a selection in which
    every index is in range for its provider stays so. *)
Theorem handleSelectKey_valid (providerEntries : list EndpointProviderEntry)
  (providerId : jsstring) (keyIndex : Z) (prev : gmap jsstring Z) :
  NoDup (Entry.id <$> providerEntries) ->
  let next := handleSelectKey providerEntries providerId keyIndex prev in
  (providerId ∉ Entry.id <$> providerEntries -> next = prev)
  /\ (forall entry,
        entry ∈ providerEntries -> Entry.id entry = providerId ->
        next !! providerId = Some (clampKeyIndex keyIndex (keyCount entry)))
  /\ (forall id, id <> providerId -> next !! id = prev !! id)
  /\ (validSelection providerEntries prev -> validSelection providerEntries next).
Proof.
  intros Hnodup next. unfold next, handleSelectKey.
  destruct (find _ providerEntries) as [found|] eqn:Hfind.
  - apply find_id_Some in Hfind as [Hfound <-].
    assert (Hsame : forall entry, entry ∈ providerEntries ->
                      Entry.id entry = Entry.id found -> entry = found).
    { intros entry Hin Hid.
      pose proof (lastWithId_unique _ _ Hnodup Hin) as H1.
      pose proof (lastWithId_unique _ _ Hnodup Hfound) as H2.
      rewrite Hid in H1. congruence. }
    split; [intros Hout; exfalso; apply Hout; by apply list_elem_of_fmap_2|].
    split; [|split].
    + intros entry Hin Hid. rewrite (Hsame entry Hin Hid). apply lookup_insert_eq.
    + intros id Hne. by apply lookup_insert_ne.
    + intros Hvalid entry index Hin.
      destruct (decide (Entry.id entry = Entry.id found)) as [Hid|Hid].
      * rewrite (Hsame entry Hin Hid), lookup_insert_eq. intros [= <-].
        apply clampKeyIndex_idemp.
      * rewrite lookup_insert_ne by done. by apply Hvalid.
  - apply find_id_None in Hfind.
    split; [done|]. split; [|done].
    intros entry Hin Hid. exfalso. apply Hfind. rewrite <- Hid.
    by apply list_elem_of_fmap_2.
Qed.

Lemma handleSelectKey_valid_witness :
  handleSelectKey [sample_entry] "auth:codex" 5 ∅ !! "auth:codex"
  = Some (clampKeyIndex 5 (keyCount sample_entry)).
Proof.
  apply (handleSelectKey_valid [sample_entry] "auth:codex" 5 ∅).
  - repeat constructor. by intros ?%elem_of_nil.
  - by left.
  - reflexivity.
Defined.

(** ** Configured entries *)

Lemma ofZ_inj z z' : JsString.ofZ z = JsString.ofZ z' -> z = z'.
Proof.
  unfold JsString.ofZ. intros Heq.
  apply (f_equal String.string_of_list_ascii) in Heq.
  rewrite !String.string_of_list_ascii_of_string in Heq.
  apply DecimalZ.to_int_inj.
  assert (Hisi : forall z, NilZero.int_of_string (NilZero.string_of_int (Z.to_int z))
                           = Some (Z.to_int z)).
  { intros [|p|p]; [done| |]; apply NilZero.isi; try done; simpl; intros [= Hp];
      by apply DecimalPos.Unsigned.to_uint_nonnil in Hp. }
  pose proof (Hisi z) as H1. rewrite Heq, Hisi in H1. congruence.
Qed.

Lemma forEachFrom_push {A} (entryOf : N -> A -> nat -> EndpointProviderEntry)
  (items : list A) (index : nat) (entries : list EndpointProviderEntry) (order : N) :
  JsArray.forEachFrom (buildConfiguredEntries_push entryOf) index items (entries, order)
  = (entries ++ pushedEntries entryOf order index items,
     (order + N.of_nat (length items))%N).
Proof.
  revert index entries order.
  induction items as [|item items IH]; intros index entries order.
  { simpl. by rewrite app_nil_r, N.add_0_r. }
  cbn [JsArray.forEachFrom buildConfiguredEntries_push pushedEntries length].
  rewrite IH, <- app_assoc. f_equal. lia.
Qed.

Lemma pushedEntries_length {A} (entryOf : N -> A -> nat -> EndpointProviderEntry)
  order index items :
  length (pushedEntries entryOf order index items) = length items.
Proof.
  revert order index. induction items as [|item items IH]; intros order index; simpl; [done|].
  by rewrite IH.
Qed.

Lemma pushedEntries_orders {A} (entryOf : N -> A -> nat -> EndpointProviderEntry)
  order index items :
  (forall o item i, Entry.order (entryOf o item i) = o) ->
  Entry.order <$> pushedEntries entryOf order index items
  = N.of_nat <$> seq (N.to_nat order) (length items).
Proof.
  intros Horder. revert order index.
  induction items as [|item items IH]; intros order index; [done|].
  cbn [pushedEntries length seq]. csimpl. rewrite Horder, IH, N2Nat.id.
  by replace (N.to_nat (order + 1)) with (S (N.to_nat order)) by lia.
Qed.

Lemma pushedEntries_ids {A} (entryOf : N -> A -> nat -> EndpointProviderEntry)
  (kind : jsstring) order index items :
  (forall o item i,
     Entry.id (entryOf o item i) = "configured:" ++ kind ++ ":" ++ JsString.ofZ (Z.of_nat i)) ->
  Entry.id <$> pushedEntries entryOf order index items
  = (fun i => "configured:" ++ kind ++ ":" ++ JsString.ofZ (Z.of_nat i))
      <$> seq index (length items).
Proof.
  intros Hid. revert order index.
  induction items as [|item items IH]; intros order index; [done|].
  cbn [pushedEntries length seq]. csimpl. by rewrite Hid, IH.
Qed.

Lemma pushedEntries_Forall {A} (entryOf : N -> A -> nat -> EndpointProviderEntry)
  (P : EndpointProviderEntry -> Prop) order index items :
  (forall o item i, P (entryOf o item i)) ->
  Forall P (pushedEntries entryOf order index items).
Proof.
  intros HP. revert order index.
  induction items as [|item items IH]; intros order index; simpl; [done|].
  constructor; [apply HP|apply IH].
Qed.

Lemma buildConfiguredEntries_sections baseUrl keyOptions config :
  let openai := default [] (Config.openaiCompatibility config) in
  let codex := default [] (Config.codexApiKeys config) in
  let claude := default [] (Config.claudeApiKeys config) in
  let gemini := default [] (Config.geminiApiKeys config) in
  let vertex := default [] (Config.vertexApiKeys config) in
  let n1 := N.of_nat (length openai) in
  let n2 := (n1 + N.of_nat (length codex))%N in
  let n3 := (n2 + N.of_nat (length claude))%N in
  let n4 := (n3 + N.of_nat (length gemini))%N in
  buildConfiguredEntries baseUrl keyOptions (Some config)
  = pushedEntries (buildConfiguredEntries_openaiEntry baseUrl keyOptions) 0 0 openai
    ++ pushedEntries (buildConfiguredEntries_keyEntry baseUrl keyOptions "codex") n1 0 codex
    ++ pushedEntries (buildConfiguredEntries_keyEntry baseUrl keyOptions "claude") n2 0 claude
    ++ pushedEntries (buildConfiguredEntries_keyEntry baseUrl keyOptions "gemini") n3 0 gemini
    ++ pushedEntries (buildConfiguredEntries_keyEntry baseUrl keyOptions "vertex") n4 0 vertex.
Proof.
  intros. unfold buildConfiguredEntries, JsArray.forEach. cbv zeta.
  rewrite !forEachFrom_push. cbn [fst]. by rewrite !app_nil_l, <- !app_assoc.
Qed.

Lemma app_inj_first {A} (x : A) (l1 l2 k1 k2 : list A) :
  l1 ++ x :: l2 = k1 ++ x :: k2 -> x ∉ l1 -> x ∉ k1 -> l1 = k1 /\ l2 = k2.
Proof.
  revert k1. induction l1 as [|a l1 IH]; intros [|b k1] Heq Hl Hk; simpl in Heq.
  - by injection Heq as ->.
  - injection Heq as -> _. exfalso. apply Hk. by left.
  - injection Heq as -> _. exfalso. apply Hl. by left.
  - injection Heq as -> Heq. apply not_elem_of_cons in Hl as [_ Hl], Hk as [_ Hk].
    destruct (IH k1 Heq Hl Hk) as [-> ->]. done.
Qed.

Lemma configuredId_inj (kind kind' : jsstring) (i j : nat) :
  ":"%char ∉ kind -> ":"%char ∉ kind' ->
  "configured:" ++ kind ++ ":" ++ JsString.ofZ (Z.of_nat i)
  = "configured:" ++ kind' ++ ":" ++ JsString.ofZ (Z.of_nat j) ->
  kind = kind' /\ i = j.
Proof.
  intros Hk Hk' Heq. apply app_inv_head in Heq.
  apply app_inj_first in Heq as [-> Hij]; [|done|done].
  split; [done|]. apply ofZ_inj in Hij. lia.
Qed.

Lemma configuredIds_NoDup kind n : NoDup (configuredIds kind n).
Proof.
  unfold configuredIds. apply NoDup_fmap_2; [|apply NoDup_seq].
  intros i j Heq. do 3 apply app_inv_head in Heq. apply ofZ_inj in Heq. lia.
Qed.

Lemma configuredIds_disjoint kind kind' n n' id :
  ":"%char ∉ kind -> ":"%char ∉ kind' -> kind <> kind' ->
  id ∈ configuredIds kind n -> id ∉ configuredIds kind' n'.
Proof.
  intros Hk Hk' Hne (i & -> & _)%list_elem_of_fmap (j & Heq & _)%list_elem_of_fmap.
  by apply configuredId_inj in Heq as [? _].
Qed.

Lemma configuredIds_concat_NoDup (sizes : list (jsstring * nat)) :
  NoDup sizes.*1 ->
  Forall (fun size => ":"%char ∉ size.1) sizes ->
  NoDup (mjoin ((fun size => configuredIds size.1 size.2) <$> sizes)).
Proof.
  induction sizes as [|[kind n] sizes IH]; [constructor|].
  csimpl. intros [Hkind Hnodup]%NoDup_cons [Hcolon Hcolons]%Forall_cons.
  apply NoDup_app. split; [apply configuredIds_NoDup|]. split; [|by apply IH].
  intros id Hid (ids & Hin & Hids)%list_elem_of_join.
  apply list_elem_of_fmap in Hids as ([kind' n'] & -> & Hsize).
  revert Hin. apply (configuredIds_disjoint kind kind' n n'); try done.
  - rewrite Forall_forall in Hcolons. by apply (Hcolons (kind', n')).
  - intros ->. apply Hkind. by apply (list_elem_of_fmap_2 fst _ (kind', n')).
Qed.

Lemma resolveSimpleProviderName_nonempty fallbackName index item :
  resolveSimpleProviderName fallbackName index item <> [].
Proof.
  unfold resolveSimpleProviderName.
  destruct (JsString.isEmpty (normalizeText (Js.ofOpt (ProviderKeyConfig.prefix item))))
    eqn:Hp; cbn [negb].
  - destruct (JsString.isEmpty (normalizeText (Js.ofOpt (ProviderKeyConfig.baseUrl item))))
      eqn:Hb; cbn [negb].
    + by destruct fallbackName.
    + by apply isEmpty_false.
  - by apply isEmpty_false.
Qed.

Lemma convertConfiguredModels_deduplicated models :
  deduplicated (convertConfiguredModels models).
Proof.
  destruct models as [ms|]; [apply dedupeModels_deduplicated|].
  split; constructor.
Qed.

Lemma buildConfiguredEntries_ids baseUrl keyOptions config :
  Entry.id <$> buildConfiguredEntries baseUrl keyOptions (Some config)
  = mjoin ((fun size => configuredIds size.1 size.2) <$> collectionSizes config).
Proof.
  rewrite buildConfiguredEntries_sections. cbv zeta.
  rewrite !fmap_app.
  rewrite (pushedEntries_ids _ "openai") by done.
  rewrite (pushedEntries_ids _ "codex") by done.
  rewrite (pushedEntries_ids _ "claude") by done.
  rewrite (pushedEntries_ids _ "gemini") by done.
  rewrite (pushedEntries_ids _ "vertex") by done.
  unfold collectionSizes, configuredIds. simpl. by rewrite app_nil_r.
Qed.

Lemma buildConfiguredEntries_length baseUrl keyOptions config :
  length (buildConfiguredEntries baseUrl keyOptions (Some config))
  = foldr (fun size total => size.2 + total) 0 (collectionSizes config).
Proof.
  rewrite buildConfiguredEntries_sections. cbv zeta.
  rewrite !length_app, !pushedEntries_length. simpl. lia.
Qed.

Lemma buildConfiguredEntries_orders baseUrl keyOptions config :
  let entries := buildConfiguredEntries baseUrl keyOptions (Some config) in
  Entry.order <$> entries = N.of_nat <$> seq 0 (length entries).
Proof.
  intros entries. unfold entries at 2. rewrite buildConfiguredEntries_length.
  unfold entries. rewrite buildConfiguredEntries_sections. cbv zeta.
  rewrite !fmap_app, !pushedEntries_orders by done. simpl.
  set (a := length (default [] (Config.openaiCompatibility config))).
  set (b := length (default [] (Config.codexApiKeys config))).
  set (c := length (default [] (Config.claudeApiKeys config))).
  set (d := length (default [] (Config.geminiApiKeys config))).
  set (e := length (default [] (Config.vertexApiKeys config))).
  rewrite <- !fmap_app. f_equal. clearbody a b c d e. clear.
  change (N.to_nat 0) with 0%nat.
  replace (N.to_nat (N.of_nat a + N.of_nat b + N.of_nat c + N.of_nat d))
    with (0 + (a + b + c + d))%nat by lia.
  replace (N.to_nat (N.of_nat a + N.of_nat b + N.of_nat c))
    with (0 + (a + b + c))%nat by lia.
  replace (N.to_nat (N.of_nat a + N.of_nat b)) with (0 + (a + b))%nat by lia.
  replace (N.to_nat (N.of_nat a)) with (0 + a)%nat by lia.
  rewrite !app_assoc, <- !seq_app. f_equal. lia.
Qed.

Lemma buildConfiguredEntries_ids_NoDup baseUrl keyOptions config :
  NoDup (Entry.id <$> buildConfiguredEntries baseUrl keyOptions (Some config)).
Proof.
  rewrite buildConfiguredEntries_ids. apply configuredIds_concat_NoDup.
  - unfold collectionSizes. cbn [fmap list_fmap fst].
    apply (bool_decide_unpack _). by vm_compute.
  - unfold collectionSizes.
    repeat (constructor; [by apply (bool_decide_unpack _); vm_compute|]). constructor.
Qed.

(** X13.  buildConfiguredEntries returns nothing without a config; with
    one it returns one entry for each item of the five collections
    (OpenAI-compatible providers, then Codex, Claude, Gemini and Vertex
    keys), whose order fields count 0, 1, 2, ... through the output and
    whose ids are configured:<kind>:<index in the collection>, all
    distinct. *)
Theorem buildConfiguredEntries_numbering (baseUrl : jsstring)
  (keyOptions : list ProviderKeyOption) (config : Config) :
  let entries := buildConfiguredEntries baseUrl keyOptions (Some config) in
  buildConfiguredEntries baseUrl keyOptions None = []
  /\ length entries = foldr (fun size total => size.2 + total) 0 (collectionSizes config)
  /\ Entry.order <$> entries = N.of_nat <$> seq 0 (length entries)
  /\ Entry.id <$> entries
     = mjoin ((fun size => configuredIds size.1 size.2) <$> collectionSizes config)
  /\ NoDup (Entry.id <$> entries).
Proof.
  intros entries. split; [done|].
  split; [apply buildConfiguredEntries_length|].
  split; [apply buildConfiguredEntries_orders|].
  split; [apply buildConfiguredEntries_ids|apply buildConfiguredEntries_ids_NoDup].
Qed.

Lemma buildConfiguredEntries_Forall (P : EndpointProviderEntry -> Prop)
  baseUrl keyOptions config :
  (forall order provider index,
     P (buildConfiguredEntries_openaiEntry baseUrl keyOptions order provider index)) ->
  (forall kind order item index,
     P (buildConfiguredEntries_keyEntry baseUrl keyOptions kind order item index)) ->
  Forall P (buildConfiguredEntries baseUrl keyOptions (Some config)).
Proof.
  intros Hopenai Hkey. rewrite buildConfiguredEntries_sections. cbv zeta.
  repeat (apply Forall_app; split); by apply pushedEntries_Forall.
Qed.

Section ConfiguredRefresh.

Variable t : jsstring -> jsstring.

Lemma refreshSingle_call_configured entry page :
  Entry.sourceKind entry = ConfiguredApi ->
  refreshSingle_call t entry page
  = ({| Page.providerFetchTokenRef :=
          <[ Entry.id entry := (currentToken page (Entry.id entry) + 1)%N ]>
            (Page.providerFetchTokenRef page);
        Page.modelsByProvider :=
          <[ Entry.id entry :=
               {| ModelsState.status := Status.success;
                  ModelsState.models :=
                    dedupeModels (default [] (Entry.configuredModels entry));
                  ModelsState.error := None |} ]>
            (Page.modelsByProvider page) |},
     None).
Proof.
  intros Hkind. unfold refreshSingle_call, refreshSingle_start. cbv zeta.
  rewrite Hkind, refreshSingle_settle_current by apply lookup_insert_eq.
  cbn [Page.providerFetchTokenRef Page.modelsByProvider settledState].
  by rewrite insert_insert_eq.
Qed.

End ConfiguredRefresh.

(** X14.  Every entry that buildConfiguredEntries makes is a
    configured-API entry with a non-empty name, the given base URL and
    key options and a model list that is already de-duplicated;
    resolving its models returns that list without any backend call, and
    refreshing the entry leaves it in status success with these models
    at once, with no call left pending. *)
Theorem buildConfiguredEntries_refresh (t : jsstring -> jsstring)
  (getModelDefinitions getModelsForAuthFile : jsstring -> Settled (list AuthApiModel))
  (baseUrl : jsstring) (keyOptions : list ProviderKeyOption) (config : Config)
  (page : Page.t) :
  Forall
    (fun entry =>
       Entry.sourceKind entry = ConfiguredApi
       /\ Entry.name entry <> []
       /\ Entry.baseUrl entry = baseUrl
       /\ Entry.keyOptions entry = keyOptions
       /\ exists models,
            Entry.configuredModels entry = Some models
            /\ dedupeModels models = models
            /\ resolveModels getModelDefinitions getModelsForAuthFile entry
               = Fulfilled models
            /\ (refreshSingle_call t entry page).2 = None
            /\ Page.modelsByProvider (refreshSingle_call t entry page).1 !! Entry.id entry
               = Some {| ModelsState.status := Status.success;
                         ModelsState.models := models;
                         ModelsState.error := None |})
    (buildConfiguredEntries baseUrl keyOptions (Some config)).
Proof.
  assert (Hmodels : forall entry models,
    Entry.sourceKind entry = ConfiguredApi ->
    Entry.configuredModels entry = Some (convertConfiguredModels models) ->
    exists models,
      Entry.configuredModels entry = Some models
      /\ dedupeModels models = models
      /\ resolveModels getModelDefinitions getModelsForAuthFile entry = Fulfilled models
      /\ (refreshSingle_call t entry page).2 = None
      /\ Page.modelsByProvider (refreshSingle_call t entry page).1 !! Entry.id entry
         = Some {| ModelsState.status := Status.success;
                   ModelsState.models := models;
                   ModelsState.error := None |}).
  { intros entry models Hkind Hconfigured.
    assert (Hfixed : dedupeModels (convertConfiguredModels models)
                     = convertConfiguredModels models)
      by apply deduplicated_fixed, convertConfiguredModels_deduplicated.
    exists (convertConfiguredModels models). split; [done|]. split; [done|].
    split; [unfold resolveModels; by rewrite Hkind, Hconfigured; simpl; rewrite Hfixed|].
    rewrite refreshSingle_call_configured by done. split; [done|].
    cbn [fst Page.modelsByProvider]. rewrite lookup_insert_eq, Hconfigured. simpl.
    by rewrite Hfixed. }
  apply buildConfiguredEntries_Forall.
  - intros order provider index. split; [done|]. split; [|split; [done|split; [done|]]].
    + cbn [buildConfiguredEntries_openaiEntry Entry.name].
      destruct (JsString.isEmpty (normalizeText (Js.ofOpt (OpenAIProviderConfig.name provider))))
        eqn:Hgiven; cbn [negb]; [done|by apply isEmpty_false].
    + by apply (Hmodels _ (OpenAIProviderConfig.models provider)).
  - intros kind order item index. split; [done|].
    split; [apply resolveSimpleProviderName_nonempty|]. split; [done|]. split; [done|].
    by apply (Hmodels _ (ProviderKeyConfig.models item)).
Qed.

Lemma List_filter_all {A} (f : A -> bool) (l : list A) :
  Forall (fun x => f x = true) l -> List.filter f l = l.
Proof. induction 1 as [|x l Hx _ IH]; simpl; [done|]. by rewrite Hx, IH. Qed.






(** ** [loadProxyApiKeys] *)

Lemma currentKey_elem_of provider selectedKeyIdx :
  Entry.keyOptions provider <> [] ->
  currentKey provider selectedKeyIdx ∈ ProviderKeyOption.apiKey <$> Entry.keyOptions provider.
Proof.
  intros Hne. unfold currentKey.
  set (count := Z.of_nat (length (Entry.keyOptions provider))).
  assert (Hpos : (0 < count)%Z).
  { unfold count. destruct (Entry.keyOptions provider); [done|]. cbn [length]. lia. }
  pose proof (clampKeyIndex_range selectedKeyIdx count Hpos) as Hrange.
  rewrite JsArray_get_lookup by lia.
  destruct (Entry.keyOptions provider !! _) as [option|] eqn:Hoption.
  - apply list_elem_of_lookup_2 in Hoption.
    by apply (list_elem_of_fmap_2 ProviderKeyOption.apiKey) in Hoption.
  - apply lookup_ge_None in Hoption. subst count. lia.
Qed.

(** X16.  loadProxyApiKeys returns the normalised keys of the config
    when there are any, otherwise the normalised keys that the key API
    lists, and no key when that call fails; the keys are non-empty,
    trimmed and distinct up to letter case, and a provider card that is
    given them has an empty current key exactly when there is no key at
    all. *)
Theorem loadProxyApiKeys_keys (config : Config) (apiKeysApi_list : Settled JsVal) :
  let options := loadProxyApiKeys config apiKeysApi_list in
  let keys := ProviderKeyOption.apiKey <$> options in
  Forall (fun key => key <> [] /\ JsString.trim key = key) keys
  /\ NoDup (JsString.toLowerCase <$> keys)
  /\ (normalizeApiKeyList (Config.apiKeys config) <> [] ->
      keys = normalizeApiKeyList (Config.apiKeys config))
  /\ (normalizeApiKeyList (Config.apiKeys config) = [] ->
      keys = match apiKeysApi_list with
             | Fulfilled fromApi => normalizeApiKeyList fromApi
             | Rejected _ => []
             end)
  /\ buildKeyOptions keys = options
  /\ (forall provider selectedKeyIdx,
        Entry.keyOptions provider = options ->
        currentKey provider selectedKeyIdx = [] <-> options = []).
Proof.
  intros options keys.
  assert (Hmk : forall l : list jsstring,
            ProviderKeyOption.apiKey <$> map ProviderKeyOption.mk l = l).
  { intros l. change (map ProviderKeyOption.mk l) with (ProviderKeyOption.mk <$> l).
    rewrite <- list_fmap_compose. apply list_fmap_id. }
  assert (Hkeys : exists input, keys = normalizeApiKeyList input
                                /\ options = ProviderKeyOption.mk <$> keys).
  { unfold keys, options, loadProxyApiKeys.
    destruct (0 <? length (normalizeApiKeyList (Config.apiKeys config)))%nat.
    - exists (Config.apiKeys config). by rewrite Hmk.
    - destruct apiKeysApi_list as [fromApi|error].
      + exists fromApi. by rewrite Hmk.
      + by exists JNull. }
  destruct Hkeys as (input & Hkeys & Hoptions).
  destruct (normalizeApiKeyList_distinct input) as [Hall Hnodup].
  rewrite <- Hkeys in Hall, Hnodup.
  split; [done|]. split; [done|]. split; [|split; [|split; [|]]].
  - intros Hne. unfold keys, options, loadProxyApiKeys.
    destruct (normalizeApiKeyList (Config.apiKeys config)) as [|k l] eqn:Hl; [done|].
    cbn [length Nat.ltb Nat.leb]. by rewrite Hmk.
  - intros Hnil. unfold keys, options, loadProxyApiKeys. rewrite Hnil. cbn [length Nat.ltb Nat.leb].
    destruct apiKeysApi_list; [by rewrite Hmk|done].
  - unfold buildKeyOptions. change (map JStr keys) with (JStr <$> keys).
    rewrite normalizeApiKeyList_fixed by done. by rewrite Hoptions.
  - intros provider idx Hprovider. split.
    + intros Hblank. destruct options as [|o os] eqn:Ho; [done|]. exfalso.
      assert (Hin : currentKey provider idx ∈ keys).
      { unfold keys. rewrite <- Hprovider. apply currentKey_elem_of. by rewrite Hprovider. }
      rewrite Hblank in Hin. rewrite Forall_forall in Hall. by destruct (Hall _ Hin).
    + intros Hnil. unfold currentKey. rewrite Hprovider, Hnil. done.
Qed.

(** ** The batches of [refreshAllProviderModels] *)

Lemma refreshAll_batchesFrom_join rounds entries index :
  length entries - index <= rounds ->
  mjoin (refreshAll_batchesFrom rounds entries index) = drop index entries.
Proof.
  revert index. induction rounds as [|rounds IH]; intros index Hrounds.
  - simpl. symmetry. apply drop_ge. lia.
  - cbn [refreshAll_batchesFrom]. destruct (index <? length entries) eqn:Hlt.
    + apply Nat.ltb_lt in Hlt. csimpl. rewrite IH by (unfold concurrency; lia).
      rewrite <- drop_drop. apply take_drop.
    + apply Nat.ltb_ge in Hlt. simpl. symmetry. by apply drop_ge.
Qed.

Lemma refreshAll_batchesFrom_lookup rounds entries index i batch :
  refreshAll_batchesFrom rounds entries index !! i = Some batch ->
  batch = take concurrency (drop (index + concurrency * i) entries)
  /\ index + concurrency * i < length entries.
Proof.
  revert index i. induction rounds as [|rounds IH]; intros index i; [done|].
  cbn [refreshAll_batchesFrom]. destruct (index <? length entries) eqn:Hlt; [|done].
  apply Nat.ltb_lt in Hlt. destruct i as [|i].
  - intros [= <-]. rewrite Nat.mul_0_r, Nat.add_0_r. done.
  - cbn [lookup list_lookup]. intros [-> Hi]%IH.
    replace (index + concurrency + concurrency * i) with (index + concurrency * S i) in * by lia.
    done.
Qed.

(** X17.  refreshAllProviderModels cuts the entries into consecutive
    batches that, put together, are the entries in their order: batch
    number i holds the entries 4i to 4i+3, no batch is empty or has more
    than four entries, and every batch but the last has exactly four. *)
Theorem refreshAll_batches_partition (entries : list EndpointProviderEntry) :
  mjoin (refreshAll_batches entries) = entries
  /\ Forall (fun batch => 1 <= length batch <= 4) (refreshAll_batches entries)
  /\ (forall i batch,
        refreshAll_batches entries !! i = Some batch ->
        batch = take 4 (drop (4 * i) entries))
  /\ (forall i batch,
        refreshAll_batches entries !! i = Some batch ->
        S i < length (refreshAll_batches entries) -> length batch = 4).
Proof.
  unfold refreshAll_batches.
  assert (Hlookup : forall i batch,
            refreshAll_batchesFrom (length entries) entries 0 !! i = Some batch ->
            batch = take 4 (drop (4 * i) entries) /\ 4 * i < length entries).
  { intros i batch Hb. by apply refreshAll_batchesFrom_lookup in Hb. }
  split; [|split; [|split]].
  - rewrite refreshAll_batchesFrom_join by lia. apply drop_0.
  - apply Forall_forall. intros batch (i & Hb)%list_elem_of_lookup.
    apply Hlookup in Hb as [-> Hi]. rewrite length_take, length_drop. lia.
  - intros i batch Hb. by apply Hlookup in Hb as [? _].
  - intros i batch Hb Hnext. apply Hlookup in Hb as [-> Hi].
    destruct (lookup_lt_is_Some_2 _ _ Hnext) as [next Hn].
    apply Hlookup in Hn as [_ Hn]. rewrite length_take, length_drop. lia.
Qed.

Section RefreshAllRuns.

Variable t : jsstring -> jsstring.
Variable outcome : EndpointProviderEntry -> Settled (list ModelInfo).

(** The outcome of a configured entry is its list of models. *)
Hypothesis outcome_configured :
  forall entry,
    Entry.sourceKind entry = ConfiguredApi ->
    outcome entry
    = Fulfilled (dedupeModels (default [] (Entry.configuredModels entry))).

Lemma tokens_settleCalls page calls :
  Page.providerFetchTokenRef (settleCalls t outcome page calls)
  = Page.providerFetchTokenRef page.
Proof.
  revert page. induction calls as [|call calls IH]; intros page; [done|].
  unfold settleCalls in *. cbn [foldl]. by rewrite IH, tokens_settle.
Qed.






End RefreshAllRuns.





(** ** Client URLs *)

Lemma sameUpToCase_length a b : sameUpToCase a b -> length a = length b.
Proof.
  unfold sameUpToCase, JsString.toLowerCase. intros Heq.
  apply (f_equal length) in Heq. by rewrite !length_map in Heq.
Qed.

Lemma exec_literal text s :
  is_Some (RegExp.exec true (RegExpSearch.literal text) s) <-> sameUpToCase text s.
Proof.
  change (RegExpSearch.literal text) with (literalTerms text).
  rewrite <- (app_nil_r (literalTerms text)). split.
  - intros [caps Hcaps]. apply exec_sound in Hcaps.
    destruct (proj1 (matches_literalTerms text [] s) (ex_intro _ caps Hcaps))
      as (prefix & rest & -> & Hsame & caps' & Hrest).
    inversion Hrest; subst. by rewrite app_nil_r.
  - intros Hsame.
    destruct (proj2 (matches_literalTerms text [] s)) as [caps Hcaps].
    { exists s, []. rewrite app_nil_r. split; [done|]. split; [done|].
      exists []. constructor. }
    destruct (exec_complete true _ _ _ Hcaps) as [caps' Hexec]. by exists caps'.
Qed.

Lemma execEnd_Some ic ts s before matched :
  RegExpSearch.execEnd ic ts s = Some (before, matched) ->
  s = before ++ matched /\ is_Some (RegExp.exec ic ts matched).
Proof.
  revert before. induction s as [|c s IH]; intros before; cbn [RegExpSearch.execEnd].
  - destruct (RegExp.exec ic ts []) eqn:Hexec; [|done]. intros [= <- <-]. by rewrite Hexec.
  - destruct (RegExp.exec ic ts (c :: s)) eqn:Hexec.
    + intros [= <- <-]. by rewrite Hexec.
    + destruct (RegExpSearch.execEnd ic ts s) as [[b m]|] eqn:Hrest; [|done].
      intros [= <- <-]. destruct (IH b eq_refl) as [-> Hm]. done.
Qed.

Lemma execEnd_first ic ts before matched :
  is_Some (RegExp.exec ic ts matched) ->
  (forall b1 b2, before = b1 ++ b2 -> b2 <> [] -> RegExp.exec ic ts (b2 ++ matched) = None) ->
  RegExpSearch.execEnd ic ts (before ++ matched) = Some (before, matched).
Proof.
  intros Hm. induction before as [|c before IH]; intros Hearlier.
  - destruct Hm as [caps Hcaps]. destruct matched; cbn [RegExpSearch.execEnd app];
      by rewrite Hcaps.
  - cbn [app RegExpSearch.execEnd].
    pose proof (Hearlier [] (c :: before) eq_refl ltac:(done)) as Hhere.
    cbn [app] in Hhere. rewrite Hhere.
    rewrite IH; [done|]. intros b1 b2 -> Hb2. by apply (Hearlier (c :: b1) b2).
Qed.

Lemma execEnd_None ic ts s :
  (forall b1 b2, s = b1 ++ b2 -> RegExp.exec ic ts b2 = None) ->
  RegExpSearch.execEnd ic ts s = None.
Proof.
  induction s as [|c s IH]; intros Hnone; cbn [RegExpSearch.execEnd].
  - by rewrite (Hnone [] []).
  - rewrite (Hnone [] (c :: s)) by done.
    rewrite IH; [done|]. intros b1 b2 ->. by apply (Hnone (c :: b1) b2).
Qed.

Lemma execEnd_literal text before matched :
  sameUpToCase text matched ->
  RegExpSearch.execEnd true (RegExpSearch.literal text) (before ++ matched)
  = Some (before, matched).
Proof.
  intros Hsame. apply execEnd_first; [by apply exec_literal|].
  intros b1 b2 -> Hb2.
  destruct (RegExp.exec true _ (b2 ++ matched)) eqn:Hexec; [|done].
  assert (Hlen : sameUpToCase text (b2 ++ matched)) by (apply exec_literal; by rewrite Hexec).
  apply sameUpToCase_length in Hlen, Hsame. rewrite length_app in Hlen.
  destruct b2; [done|]. simpl in Hlen. lia.
Qed.

Lemma test_literal text s :
  RegExpSearch.test true (RegExpSearch.literal text) s = true <-> endsWithUpToCase s text.
Proof.
  unfold RegExpSearch.test. rewrite bool_decide_eq_true. split.
  - intros [[before matched] Hexec]. apply execEnd_Some in Hexec as [-> Hm].
    exists before, matched. split; [done|]. by apply exec_literal.
  - intros (stem & ending & -> & Hsame). by rewrite execEnd_literal.
Qed.

Lemma replace_literal text stem ending :
  sameUpToCase text ending ->
  RegExpSearch.replace true (RegExpSearch.literal text) (stem ++ ending) "" = stem.
Proof.
  intros Hsame. unfold RegExpSearch.replace. rewrite execEnd_literal by done.
  apply app_nil_r.
Qed.

Lemma exec_trailingSlashes s :
  is_Some (RegExp.exec false trailingSlashes s)
  <-> s <> [] /\ Forall (fun c => c = "/"%char) s.
Proof.
  unfold trailingSlashes. split.
  - intros [caps Hcaps]. apply exec_sound in Hcaps.
    inversion Hcaps as [|term ts g rest caps' [Hg Hlen] Hrest]; subst.
    inversion Hrest; subst. rewrite app_nil_r. cbn [fst snd] in Hg, Hlen. split.
    + destruct g; [simpl in Hlen; lia|done].
    + eapply Forall_impl; [exact Hg|]. intros c Hc. by apply accepts_Lit_exact in Hc.
  - intros [Hne Hall].
    destruct (exec_complete false [(RegExp.Lit "/", RegExp.Plus)] s [s]) as [caps Hcaps].
    + rewrite <- (app_nil_r s) at 1. constructor; [|constructor]. split.
      * eapply Forall_impl; [exact Hall|]. intros c ->. by apply accepts_Lit_exact.
      * cbn [snd]. destruct s; [done|]. simpl. lia.
    + by exists caps.
Qed.

Lemma replace_trailingSlashes stem slashes :
  noTrailingSlash stem -> Forall (fun c => c = "/"%char) slashes ->
  RegExpSearch.replace false trailingSlashes (stem ++ slashes) "" = stem.
Proof.
  intros Hstem Hslashes. unfold RegExpSearch.replace.
  assert (Hearlier : forall b2 rest, b2 <> [] -> (exists b1, stem = b1 ++ b2) ->
            RegExp.exec false trailingSlashes (b2 ++ rest) = None).
  { intros b2 rest Hb2 [b1 ->].
    destruct (RegExp.exec false trailingSlashes (b2 ++ rest)) eqn:Hexec; [|done].
    exfalso. destruct (proj1 (exec_trailingSlashes (b2 ++ rest))) as [_ Hall];
      [by rewrite Hexec|].
    apply Forall_app in Hall as [Hall _]. apply Hstem.
    rewrite last_app. destruct (last b2) as [c|] eqn:Hlast.
    - apply last_Some_elem_of in Hlast. rewrite Forall_forall in Hall. by rewrite (Hall c).
    - by apply last_None in Hlast. }
  destruct slashes as [|c slashes].
  - rewrite app_nil_r. rewrite execEnd_None; [done|].
    intros b1 b2 ->. destruct b2 as [|c b2].
    + destruct (RegExp.exec false trailingSlashes []) eqn:Hexec; [|done].
      by destruct (proj1 (exec_trailingSlashes [])) as [? _]; [rewrite Hexec|].
    + rewrite <- (app_nil_r (c :: b2)). apply Hearlier; [done|by exists b1].
  - rewrite execEnd_first; [apply app_nil_r| |].
    + by apply exec_trailingSlashes.
    + intros b1 b2 -> Hb2. apply Hearlier; [done|by exists b1].
Qed.

(** Every text is a stem that does not end in a slash, followed by slashes. *)
Lemma trailingSlashes_split s :
  exists stem slashes,
    s = stem ++ slashes /\ noTrailingSlash stem /\ Forall (fun c => c = "/"%char) slashes.
Proof.
  induction s as [|c s IH] using rev_ind.
  - exists [], []. by repeat split.
  - destruct (decide (c = "/"%char)) as [->|Hc].
    + destruct IH as (stem & slashes & -> & Hstem & Hslashes).
      exists stem, (slashes ++ ["/"%char]). rewrite app_assoc. split; [done|]. split; [done|].
      apply Forall_app. by split; [|repeat constructor].
    + exists (s ++ [c]), []. rewrite app_nil_r. split; [done|]. split; [|done].
      unfold noTrailingSlash. rewrite last_snoc. congruence.
Qed.

Lemma sameUpToCase_app_inv a b s :
  sameUpToCase (a ++ b) s ->
  exists s1 s2, s = s1 ++ s2 /\ sameUpToCase a s1 /\ sameUpToCase b s2.
Proof.
  unfold sameUpToCase. rewrite toLowerCase_app. intros Heq. symmetry in Heq.
  apply toLowerCase_app_inv in Heq as (s1 & s2 & -> & H1 & H2). by exists s1, s2.
Qed.

Lemma sameUpToCase_app a b s1 s2 :
  sameUpToCase a s1 -> sameUpToCase b s2 -> sameUpToCase (a ++ b) (s1 ++ s2).
Proof. unfold sameUpToCase. rewrite !toLowerCase_app. by intros -> ->. Qed.

Lemma sameUpToCase_last a b : sameUpToCase a b -> last a <> Some "/"%char -> noTrailingSlash b.
Proof.
  unfold sameUpToCase, noTrailingSlash. intros Heq Ha Hb. apply Ha.
  destruct a as [|x a _] using rev_ind; destruct b as [|y b _] using rev_ind; try done.
  - by destruct b.
  - rewrite !toLowerCase_app in Heq. apply app_inj_tail in Heq as [_ Hxy].
    rewrite last_snoc in *. injection Hb as ->. cbn in Hxy. f_equal.
    pose proof (allChars_forall (fun c =>
      bool_decide (JsString.lowerChar c = "/"%char -> c = "/"%char))
      ltac:(by vm_compute) x) as Hx.
    by apply bool_decide_eq_true in Hx; apply Hx.
Qed.

Lemma endsWithUpToCase_last s suffix :
  suffix <> [] -> endsWithUpToCase s suffix ->
  last (JsString.toLowerCase s) = last (JsString.toLowerCase suffix).
Proof.
  intros Hne (stem & ending & -> & Hsame). rewrite toLowerCase_app, last_app.
  unfold sameUpToCase in Hsame. rewrite <- Hsame.
  destruct (last (JsString.toLowerCase suffix)) eqn:Hlast; [done|].
  apply last_None in Hlast. by apply (proj1 (toLowerCase_nil _)) in Hlast.
Qed.

(** The stem and the slashes of what [normalizeApiBase] returns. *)
Lemma buildClientBaseUrl_cases normalizeApiBase baseUrl stem slashes :
  normalizeApiBase baseUrl = stem ++ slashes ->
  noTrailingSlash stem -> Forall (fun c => c = "/"%char) slashes ->
  stem ++ slashes <> [] ->
  (forall prefix version chat,
     stem = prefix ++ version ++ chat ->
     sameUpToCase "/v1" version -> sameUpToCase "/chat/completions" chat ->
     buildClientBaseUrl normalizeApiBase baseUrl = prefix ++ version)
  /\ (endsWithUpToCase stem "/v1" ->
      buildClientBaseUrl normalizeApiBase baseUrl = stem)
  /\ (~ endsWithUpToCase stem "/v1" -> ~ endsWithUpToCase stem "/v1/chat/completions" ->
      buildClientBaseUrl normalizeApiBase baseUrl = stem ++ "/v1").
Proof.
  intros Hnormalized Hstem Hslashes Hne. unfold buildClientBaseUrl.
  rewrite Hnormalized. rewrite (proj2 (isEmpty_false _) Hne).
  rewrite replace_trailingSlashes by done.
  unfold v1ChatCompletionsSuffix, chatCompletionsSuffix, v1Suffix.
  split; [|split].
  - intros prefix version chat -> Hversion Hchat.
    rewrite (proj2 (test_literal "/v1/chat/completions" (prefix ++ version ++ chat))).
    + rewrite app_assoc. by rewrite replace_literal.
    + exists prefix, (version ++ chat). split; [done|].
      by apply (sameUpToCase_app "/v1" "/chat/completions").
  - intros Hv1.
    assert (RegExpSearch.test true (RegExpSearch.literal "/v1/chat/completions") stem
            = false) as ->.
    { apply not_true_is_false. intros Hchat%test_literal.
      apply endsWithUpToCase_last in Hv1, Hchat; try done.
      rewrite Hv1 in Hchat. by vm_compute in Hchat. }
    by rewrite (proj2 (test_literal "/v1" stem)).
  - intros Hv1 Hchat.
    assert (RegExpSearch.test true (RegExpSearch.literal "/v1/chat/completions") stem
            = false) as ->.
    { apply not_true_is_false. by intros ?%test_literal. }
    assert (RegExpSearch.test true (RegExpSearch.literal "/v1") stem = false) as ->; [|done].
    apply not_true_is_false. by intros ?%test_literal.
Qed.

(** X19.  buildClientBaseUrl returns the empty text exactly when the
    normalised base URL is empty, and so does buildChatCompletionsUrl;
    otherwise the client base URL ends in /v1 (in some letter case) and
    not in a slash, the chat URL is the client base URL followed by
    /chat/completions, and buildClientBaseUrl applied to its own result
    returns it unchanged whenever normalizeApiBase leaves that result as
    it is. *)
Theorem buildClientBaseUrl_ends_in_v1 (normalizeApiBase : jsstring -> jsstring)
  (baseUrl : jsstring) :
  let clientBaseUrl := buildClientBaseUrl normalizeApiBase baseUrl in
  let chatUrl := buildChatCompletionsUrl normalizeApiBase baseUrl in
  (clientBaseUrl = [] <-> normalizeApiBase baseUrl = [])
  /\ (chatUrl = [] <-> normalizeApiBase baseUrl = [])
  /\ (normalizeApiBase baseUrl <> [] ->
      endsWithUpToCase clientBaseUrl "/v1"
      /\ noTrailingSlash clientBaseUrl
      /\ chatUrl = clientBaseUrl ++ "/chat/completions"
      /\ endsWithUpToCase chatUrl "/v1/chat/completions")
  /\ (normalizeApiBase clientBaseUrl = clientBaseUrl ->
      buildClientBaseUrl normalizeApiBase clientBaseUrl = clientBaseUrl).
Proof.
  intros clientBaseUrl chatUrl.
  assert (Hempty : normalizeApiBase baseUrl = [] -> clientBaseUrl = []).
  { intros Hnil. unfold clientBaseUrl, buildClientBaseUrl. by rewrite Hnil. }
  assert (Hv1 : normalizeApiBase baseUrl <> [] ->
            endsWithUpToCase clientBaseUrl "/v1" /\ noTrailingSlash clientBaseUrl).
  { intros Hne.
    destruct (trailingSlashes_split (normalizeApiBase baseUrl))
      as (stem & slashes & Hsplit & Hstem & Hslashes).
    destruct (buildClientBaseUrl_cases normalizeApiBase baseUrl stem slashes)
      as (Hchat & Hversion & Hplain); [done|done|done|by rewrite <- Hsplit|].
    fold clientBaseUrl in Hchat, Hversion, Hplain.
    destruct (decide (RegExpSearch.test true (RegExpSearch.literal "/v1/chat/completions")
                        stem = true)) as [Hc|Hc].
    - apply test_literal in Hc as (prefix & ending & -> & Hsame).
      apply (sameUpToCase_app_inv "/v1" "/chat/completions") in Hsame
        as (version & chat & -> & Hsv & Hsc).
      rewrite (Hchat prefix version chat) by done. split; [by exists prefix, version|].
      unfold noTrailingSlash. rewrite last_app.
      pose proof (sameUpToCase_last "/v1" version Hsv ltac:(done)) as Hlast.
      unfold noTrailingSlash in Hlast. destruct (last version) eqn:Hl; [done|].
      apply last_None in Hl. subst version. by apply sameUpToCase_length in Hsv.
    - destruct (decide (RegExpSearch.test true (RegExpSearch.literal "/v1") stem = true))
        as [Hv|Hv].
      + apply test_literal in Hv. by rewrite (Hversion Hv).
      + rewrite Hplain.
        * split; [by exists stem, "/v1"|]. unfold noTrailingSlash. by rewrite last_app.
        * by intros ?%test_literal.
        * by intros ?%test_literal. }
  assert (Hnonempty : normalizeApiBase baseUrl <> [] -> clientBaseUrl <> []).
  { intros Hne. destruct (Hv1 Hne) as [(stem & ending & Heq & Hsame) _].
    rewrite Heq. apply sameUpToCase_length in Hsame. destruct ending; [done|].
    by destruct stem. }
  assert (Hchat : normalizeApiBase baseUrl <> [] ->
            chatUrl = clientBaseUrl ++ "/chat/completions").
  { intros Hne. unfold chatUrl, buildChatCompletionsUrl. fold clientBaseUrl.
    by rewrite (proj2 (isEmpty_false _) (Hnonempty Hne)). }
  split; [|split; [|split]].
  - split; [|done]. intros Hnil. destruct (decide (normalizeApiBase baseUrl = [])); [done|].
    by destruct (Hnonempty n).
  - split.
    + intros Hnil. destruct (decide (normalizeApiBase baseUrl = [])) as [|Hne]; [done|].
      rewrite (Hchat Hne) in Hnil. by apply app_eq_nil in Hnil as [_ ?].
    + intros Hnil. unfold chatUrl, buildChatCompletionsUrl. fold clientBaseUrl.
      by rewrite (Hempty Hnil).
  - intros Hne. destruct (Hv1 Hne) as [Hends Hslash]. split; [done|]. split; [done|].
    split; [by apply Hchat|]. rewrite (Hchat Hne).
    destruct Hends as (stem & version & -> & Hsame). exists stem, (version ++ "/chat/completions").
    rewrite <- app_assoc. split; [done|].
    by apply (sameUpToCase_app "/v1" "/chat/completions").
  - intros Hfixed. destruct (decide (normalizeApiBase baseUrl = [])) as [Hnil|Hne].
    { rewrite (Hempty Hnil) in *. unfold buildClientBaseUrl. by rewrite Hfixed. }
    destruct (Hv1 Hne) as [Hends Hslash].
    destruct (buildClientBaseUrl_cases normalizeApiBase clientBaseUrl clientBaseUrl [])
      as (_ & Hversion & _); rewrite ?app_nil_r; try done.
    + by apply Hnonempty.
    + by apply Hversion.
Qed.

(** X20.  A normalised base URL given as stem/v1/chat/completions or as
    stem/v1, in any letter case of these suffixes and with any number of
    trailing slashes, gives the client base URL stem/v1 with the suffix
    as it was written; and a stem that ends in neither suffix and in no
    slash, with any number of trailing slashes, gives stem/v1. *)
Theorem buildClientBaseUrl_same_endpoint (normalizeApiBase : jsstring -> jsstring)
  (baseUrl stem version chat slashes : jsstring) :
  sameUpToCase "/v1" version ->
  sameUpToCase "/chat/completions" chat ->
  Forall (fun c => c = "/"%char) slashes ->
  (normalizeApiBase baseUrl = stem ++ version ++ chat ++ slashes ->
   buildClientBaseUrl normalizeApiBase baseUrl = stem ++ version)
  /\ (normalizeApiBase baseUrl = stem ++ version ++ slashes ->
      buildClientBaseUrl normalizeApiBase baseUrl = stem ++ version)
  /\ (normalizeApiBase baseUrl = stem ++ slashes ->
      stem ++ slashes <> [] ->
      noTrailingSlash stem ->
      ~ endsWithUpToCase stem "/v1" ->
      ~ endsWithUpToCase stem "/v1/chat/completions" ->
      buildClientBaseUrl normalizeApiBase baseUrl = stem ++ "/v1").
Proof.
  intros Hversion Hchat Hslashes.
  assert (Hv : version <> []) by (apply sameUpToCase_length in Hversion; by destruct version).
  assert (Hc : chat <> []) by (apply sameUpToCase_length in Hchat; by destruct chat).
  assert (Hlast : forall text ending : jsstring,
            sameUpToCase text ending -> ending <> [] -> last text <> Some "/"%char ->
            forall before, noTrailingSlash (before ++ ending)).
  { intros text ending Hsame Hne Htext before. unfold noTrailingSlash. rewrite last_app.
    pose proof (sameUpToCase_last text ending Hsame Htext) as Hl.
    unfold noTrailingSlash in Hl. destruct (last ending) eqn:He; [done|].
    by apply last_None in He. }
  split; [|split].
  - intros Hnormalized.
    destruct (buildClientBaseUrl_cases normalizeApiBase baseUrl
                (stem ++ version ++ chat) slashes) as (Hcase & _ & _).
    + by rewrite Hnormalized, <- !app_assoc.
    + rewrite app_assoc. by apply (Hlast "/chat/completions").
    + done.
    + rewrite <- !app_assoc. by destruct stem, version.
    + by apply (Hcase stem version chat).
  - intros Hnormalized.
    destruct (buildClientBaseUrl_cases normalizeApiBase baseUrl (stem ++ version) slashes)
      as (_ & Hcase & _).
    + by rewrite Hnormalized, <- !app_assoc.
    + by apply (Hlast "/v1").
    + done.
    + rewrite <- !app_assoc. by destruct stem, version.
    + apply Hcase. by exists stem, version.
  - intros Hnormalized Hne Hstem Hv1 Hcc.
    destruct (buildClientBaseUrl_cases normalizeApiBase baseUrl stem slashes)
      as (_ & _ & Hcase); try done. by apply Hcase.
Qed.

Lemma buildClientBaseUrl_same_endpoint_witness :
  buildClientBaseUrl (fun url => url) "http://localhost:8317/V1/chat/completions//"
  = "http://localhost:8317/V1".
Proof.
  refine (proj1 (buildClientBaseUrl_same_endpoint (fun url => url)
                   "http://localhost:8317/V1/chat/completions//"
                   "http://localhost:8317" "/V1" "/chat/completions" "//" _ _ _) _).
  - reflexivity.
  - reflexivity.
  - repeat constructor.
  - reflexivity.
Defined.

(** ** Thinking-level suffix: the parsed form *)

Lemma trimStart_Forall (P : ascii -> Prop) s :
  Forall P s -> Forall P (JsString.trimStart s).
Proof.
  intros Hs. destruct (trimStart_suffix s) as (p & Heq & _).
  rewrite Heq in Hs. by apply Forall_app in Hs as [_ ?].
Qed.

Lemma trim_Forall (P : ascii -> Prop) s : Forall P s -> Forall P (JsString.trim s).
Proof.
  intros Hs. unfold JsString.trim, JsString.trimEnd.
  by apply Forall_rev, trimStart_Forall, Forall_rev, trimStart_Forall.
Qed.

Lemma parseModelWithThinking_normalizeText value :
  parseModelWithThinking (normalizeText (JStr value)) = parseModelWithThinking value.
Proof.
  unfold parseModelWithThinking.
  by rewrite (normalizeText_JStr (normalizeText (JStr value))), normalizeText_JStr, trim_idemp.
Qed.

(** What [parseModelWithThinking] returns: the trimmed text as it is, or
    the trimmed first group, free of line terminators, with a level. *)
Lemma parseModelWithThinking_cases value :
  let parsed := parseModelWithThinking value in
  (Parsed.baseModel parsed = normalizeText (JStr value) /\ Parsed.thinking parsed = None)
  \/ (exists group level,
        parsed = {| Parsed.baseModel := JsString.trim group;
                    Parsed.thinking := Some level |}
        /\ JsString.trim group <> []
        /\ Forall (fun c => JsString.isLineTerminator c = false) group).
Proof.
  cbv zeta. unfold parseModelWithThinking.
  destruct (JsString.isEmpty (normalizeText (JStr value))) eqn:Hempty.
  { left. by apply isEmpty_true in Hempty as ->. }
  destruct (RegExp.exec false thinkingPattern (normalizeText (JStr value)))
    as [[|g1 [|g2 [|g3 [|g4 [|??]]]]]|] eqn:Hexec; try by left.
  destruct (thinkingLevelOf _) as [level|]; [|by left].
  rewrite normalizeText_JStr.
  destruct (JsString.isEmpty (JsString.trim g1)) eqn:Hbase; cbn [negb]; [by left|].
  right. exists g1, level. split; [done|]. split; [by apply isEmpty_false|].
  apply exec_sound in Hexec. unfold thinkingPattern in Hexec.
  inversion Hexec as [|t1 ts1 g1' s1 caps1 [Hg1 _] _]; subst.
  eapply Forall_impl; [exact Hg1|]. intros c Hc. simpl in Hc. by apply negb_true_iff.
Qed.


(** X21.  The base model that parseModelWithThinking returns is trimmed;
    it is empty exactly when the input is blank, and then no thinking
    level is returned; and formatting the returned base model and level
    with formatModelWithThinking and parsing that text gives the same
    result again. *)
Theorem parseModelWithThinking_canonical (value : jsstring) :
  let parsed := parseModelWithThinking value in
  normalizeText (JStr (Parsed.baseModel parsed)) = Parsed.baseModel parsed
  /\ (Parsed.baseModel parsed = [] <-> normalizeText (JStr value) = [])
  /\ (Parsed.baseModel parsed = [] -> Parsed.thinking parsed = None)
  /\ parseModelWithThinking
       (formatModelWithThinking (Parsed.baseModel parsed) (Parsed.thinking parsed))
     = parsed.
Proof.
  intros parsed.
  destruct (parseModelWithThinking_cases value)
    as [[Hbase Hthinking]|(group & level & Hparsed & Hne & Hgroup)];
    fold parsed in Hbase, Hthinking || fold parsed in Hparsed.
  - rewrite Hbase, Hthinking.
    split; [by rewrite normalizeText_JStr, normalizeText_JStr, trim_idemp|].
    split; [done|]. split; [done|].
    unfold formatModelWithThinking.
    rewrite (normalizeText_JStr (normalizeText (JStr value))), normalizeText_JStr, trim_idemp.
    destruct (JsString.isEmpty (JsString.trim value)) eqn:Hempty.
    + apply isEmpty_true in Hempty. unfold parsed.
      by rewrite <- (parseModelWithThinking_normalizeText value), normalizeText_JStr, Hempty.
    + rewrite <- normalizeText_JStr. apply parseModelWithThinking_normalizeText.
  - rewrite Hparsed. cbn [Parsed.baseModel Parsed.thinking].
    split; [by rewrite normalizeText_JStr, trim_idemp|].
    split.
    { split; [done|]. intros Hnil. exfalso.
      unfold parsed, parseModelWithThinking in Hparsed. rewrite Hnil in Hparsed.
      by cbn in Hparsed. }
    split; [done|].
    rewrite parse_format; [|done|apply trim_idemp].
    destruct (decide _) as [|Hno]; [done|]. destruct Hno. by apply trim_Forall.
Qed.

(** ** Agent settings: the merged settings *)

Lemma slotKeyText_inj key key' :
  AgentSettings.slotKeyText key = AgentSettings.slotKeyText key' -> key = key'.
Proof. by destruct key, key'. Qed.


Lemma formatModelWithThinking_trimmed base thinking :
  JsString.trim (formatModelWithThinking base thinking)
  = formatModelWithThinking base thinking.
Proof.
  unfold formatModelWithThinking. rewrite normalizeText_JStr.
  destruct (JsString.isEmpty (JsString.trim base)) eqn:Hempty; [done|].
  destruct thinking as [level|]; [|apply trim_idemp].
  apply isEmpty_false in Hempty.
  change (JsString.trim base ++ "(" ++ levelText level ++ ")")
    with (JsString.trim base ++ ("(" ++ levelText level) ++ [")"%char]).
  apply trim_suffixed; [done|apply trim_idemp|done].
Qed.

Section MergedSettings.

Variable providerEntries : list EndpointProviderEntry.
Variable modelsByProvider : gmap jsstring ProviderModelsState.

Lemma buildModelValueForSlot_trimmed state slotKey baseModel preferredProviderId :
  JsString.trim
    (AgentSettings.buildModelValueForSlot providerEntries modelsByProvider state slotKey
       baseModel preferredProviderId)
  = AgentSettings.buildModelValueForSlot providerEntries modelsByProvider state slotKey
      baseModel preferredProviderId.
Proof.
  unfold AgentSettings.buildModelValueForSlot. cbv zeta.
  destruct (JsString.isEmpty (normalizeText (JStr baseModel))); [done|].
  assert (Hbase : JsString.trim (normalizeText (JStr baseModel))
                  = normalizeText (JStr baseModel))
    by (rewrite normalizeText_JStr; apply trim_idemp).
  destruct (AgentSettings.State.thinkingBySlot state slotKey) as [thinking|]; [|done].
  destruct (AgentSettings.resolveThinkingCapability _ _ _ _ _ _); try done.
  apply formatModelWithThinking_trimmed.
Qed.

Lemma mergedSlotText_trimmed state baseSettings key :
  JsString.trim (mergedSlotText providerEntries modelsByProvider state baseSettings key)
  = mergedSlotText providerEntries modelsByProvider state baseSettings key.
Proof.
  unfold mergedSlotText. destruct (AgentSettings.slotChanged state key).
  - apply buildModelValueForSlot_trimmed.
  - rewrite <- normalizeText_JStr. apply normalizeText_idemp.
Qed.

Lemma buildMergedSettings_each_spec state baseSettings mergedEnv slot :
  AgentSettings.buildMergedSettings_each providerEntries modelsByProvider state baseSettings
    mergedEnv slot
  = let key := AgentSettings.ModelSlotConfig.key slot in
    let text := mergedSlotText providerEntries modelsByProvider state baseSettings key in
    if JsString.isEmpty text then delete (AgentSettings.slotKeyText key) mergedEnv
    else <[ AgentSettings.slotKeyText key := JStr text ]> mergedEnv.
Proof.
  unfold AgentSettings.buildMergedSettings_each, mergedSlotText. cbv zeta.
  destruct (AgentSettings.slotChanged state _); cbn [negb];
    by destruct (JsString.isEmpty _).
Qed.

Lemma buildMergedSettings_each_lookup state baseSettings mergedEnv slot (name : jsstring) :
  AgentSettings.buildMergedSettings_each providerEntries modelsByProvider state baseSettings
    mergedEnv slot !! name
  = if decide (name = AgentSettings.slotKeyText (AgentSettings.ModelSlotConfig.key slot))
    then let text := mergedSlotText providerEntries modelsByProvider state baseSettings
                       (AgentSettings.ModelSlotConfig.key slot) in
         if JsString.isEmpty text then None else Some (JStr text)
    else mergedEnv !! name.
Proof.
  rewrite buildMergedSettings_each_spec. cbv zeta.
  destruct (decide _) as [->|Hne]; destruct (JsString.isEmpty _).
  - apply lookup_delete_eq.
  - apply lookup_insert_eq.
  - by apply lookup_delete_ne.
  - by apply lookup_insert_ne.
Qed.

(** The [env] object of the merged settings, key by key. *)
Lemma buildMergedSettings_lookup state baseSettings :
  exists env,
    AgentSettings.ClaudeSettings.env
      (AgentSettings.buildMergedSettings providerEntries modelsByProvider state baseSettings)
    = Some env
    /\ (forall key,
          env !! AgentSettings.slotKeyText key
          = let text := mergedSlotText providerEntries modelsByProvider state baseSettings key in
            if JsString.isEmpty text then None else Some (JStr text))
    /\ (forall name : jsstring,
          (forall key, name <> AgentSettings.slotKeyText key) ->
          env !! name
          = default ∅ (AgentSettings.ClaudeSettings.env baseSettings) !! name).
Proof.
  eexists. split; [reflexivity|]. unfold AgentSettings.MODEL_SLOTS. cbn [foldl]. split.
  - intros key. rewrite !buildMergedSettings_each_lookup.
    cbn [AgentSettings.ModelSlotConfig.key]. by destruct key.
  - intros name Hname. rewrite !buildMergedSettings_each_lookup.
    cbn [AgentSettings.ModelSlotConfig.key].
    repeat (destruct (decide _) as [Heq|_]; [by apply Hname in Heq|]). done.
Qed.

End MergedSettings.

(** X22.  buildMergedSettings returns settings with an env object, keeps
    every other top-level property and every env entry that is not a
    model slot, and leaves under each slot key either nothing or a
    non-empty trimmed text. An unchanged slot holds the trimmed text of
    its original value, or nothing when that is blank; a changed slot
    whose model is blank is deleted; a changed slot with a model holds
    the trimmed model, or that model followed by the thinking level of
    the slot in parentheses. *)
Theorem buildMergedSettings_env (providerEntries : list EndpointProviderEntry)
  (modelsByProvider : gmap jsstring ProviderModelsState)
  (state : AgentSettings.State.t) (baseSettings : AgentSettings.ClaudeSettings) :
  let merged :=
    AgentSettings.buildMergedSettings providerEntries modelsByProvider state baseSettings in
  exists env,
    AgentSettings.ClaudeSettings.env merged = Some env
    /\ AgentSettings.ClaudeSettings.others merged
       = AgentSettings.ClaudeSettings.others baseSettings
    /\ (forall name : jsstring,
          (forall key, name <> AgentSettings.slotKeyText key) ->
          env !! name = default ∅ (AgentSettings.ClaudeSettings.env baseSettings) !! name)
    /\ (forall key value,
          env !! AgentSettings.slotKeyText key = Some value -> plainSlotValue value)
    /\ (forall key,
          AgentSettings.slotChanged state key = false ->
          env !! AgentSettings.slotKeyText key
          = let original := normalizeText (AgentSettings.envValue (Some baseSettings) key) in
            if JsString.isEmpty original then None else Some (JStr original))
    /\ (forall key,
          AgentSettings.slotChanged state key = true ->
          normalizeText (JStr (AgentSettings.State.dirtyEnv state key)) = [] ->
          env !! AgentSettings.slotKeyText key = None)
    /\ (forall key,
          AgentSettings.slotChanged state key = true ->
          normalizeText (JStr (AgentSettings.State.dirtyEnv state key)) <> [] ->
          exists text,
            env !! AgentSettings.slotKeyText key = Some (JStr text)
            /\ (text = normalizeText (JStr (AgentSettings.State.dirtyEnv state key))
                \/ exists level,
                     AgentSettings.State.thinkingBySlot state key = Some level
                     /\ text = formatModelWithThinking
                                 (AgentSettings.State.dirtyEnv state key) (Some level))).
Proof.
  intros merged.
  destruct (buildMergedSettings_lookup providerEntries modelsByProvider state baseSettings)
    as (env & Henv & Hslot & Hother).
  exists env. split; [done|]. split; [done|]. split; [done|]. split; [|split; [|split]].
  - intros key value. rewrite Hslot. cbv zeta.
    destruct (JsString.isEmpty _) eqn:Hempty; [done|]. intros [= <-].
    eexists. split; [done|]. split; [by apply isEmpty_false|].
    apply mergedSlotText_trimmed.
  - intros key Hsame. rewrite Hslot. unfold mergedSlotText. by rewrite Hsame.
  - intros key Hchanged Hblank. rewrite Hslot. unfold mergedSlotText. rewrite Hchanged.
    unfold AgentSettings.buildModelValueForSlot. cbv zeta. by rewrite Hblank.
  - intros key Hchanged Hgiven. rewrite Hslot. unfold mergedSlotText. rewrite Hchanged.
    unfold AgentSettings.buildModelValueForSlot. cbv zeta.
    pose proof Hgiven as Hfalse. apply isEmpty_false in Hfalse. rewrite Hfalse.
    destruct (AgentSettings.State.thinkingBySlot state key) as [level|].
    + destruct (AgentSettings.resolveThinkingCapability _ _ _ _ _ _).
      * assert (Hformat : formatModelWithThinking
                            (normalizeText (JStr (AgentSettings.State.dirtyEnv state key)))
                            (Some level)
                          = formatModelWithThinking
                              (AgentSettings.State.dirtyEnv state key) (Some level)).
        { unfold formatModelWithThinking. by rewrite normalizeText_idemp. }
        rewrite Hformat.
        assert (JsString.isEmpty (formatModelWithThinking
                  (AgentSettings.State.dirtyEnv state key) (Some level)) = false) as ->.
        { unfold formatModelWithThinking. rewrite Hfalse.
          apply isEmpty_false. by destruct (normalizeText _). }
        eexists. split; [done|]. right. by exists level.
      * rewrite Hfalse. eexists. split; [done|]. by left.
      * rewrite Hfalse. eexists. split; [done|]. by left.
    + rewrite Hfalse. eexists. split; [done|]. by left.
Qed.

(** ** Agent settings: unsaved changes *)





Section CleanState.

Variable providerEntries : list EndpointProviderEntry.
Variable modelsByProvider : gmap jsstring ProviderModelsState.


End CleanState.



(** ** Agent settings: thinking capability *)

Section ThinkingCapability.

Variable providerEntries : list EndpointProviderEntry.
Variable modelsByProvider : gmap jsstring ProviderModelsState.

Lemma providerById_lookup (id : jsstring) entry :
  AgentSettings.providerById providerEntries !! id = Some entry ->
  entry ∈ providerEntries /\ Entry.id entry = id.
Proof.
  unfold AgentSettings.providerById.
  assert (Hgen : forall (entries : list EndpointProviderEntry)
                   (map : gmap jsstring EndpointProviderEntry),
            foldl (fun map entry => <[ Entry.id entry := entry ]> map) map entries !! id
            = Some entry ->
            (entry ∈ entries /\ Entry.id entry = id) \/ map !! id = Some entry).
  { induction entries as [|e entries IH]; intros map; cbn [foldl]; [by right|].
    intros [[Hin Hid]|Hmap]%IH; [left; split; [by right|done]|].
    destruct (decide (Entry.id e = id)) as [Heq|Hne].
    - rewrite <- Heq, lookup_insert_eq in Hmap. injection Hmap as ->.
      left. split; [by left|done].
    - rewrite lookup_insert_ne in Hmap by done. by right. }
  intros [?|Hempty]%Hgen; [done|]. by rewrite lookup_empty in Hempty.
Qed.

Lemma providerHasModel_normalizeText entry modelName :
  AgentSettings.providerHasModel modelsByProvider entry (normalizeText (JStr modelName))
  = AgentSettings.providerHasModel modelsByProvider entry modelName.
Proof. unfold AgentSettings.providerHasModel. by rewrite normalizeText_idemp. Qed.

Lemma matchProviderByModel_Some modelName entry :
  AgentSettings.matchProviderByModel providerEntries modelsByProvider modelName = Some entry ->
  entry ∈ providerEntries
  /\ AgentSettings.providerHasModel modelsByProvider entry modelName = true.
Proof.
  unfold AgentSettings.matchProviderByModel. cbv zeta.
  destruct (JsString.isEmpty _); [done|].
  intros [Hin Hhas]%find_some. split; [by apply list_elem_of_In|].
  by rewrite providerHasModel_normalizeText in Hhas.
Qed.

Lemma matchProviderByModel_None modelName :
  normalizeText (JStr modelName) <> [] ->
  AgentSettings.matchProviderByModel providerEntries modelsByProvider modelName = None ->
  forall entry,
    entry ∈ providerEntries ->
    AgentSettings.providerHasModel modelsByProvider entry modelName = false.
Proof.
  unfold AgentSettings.matchProviderByModel. cbv zeta.
  intros Hne%isEmpty_false. rewrite Hne. intros Hnone entry Hin%list_elem_of_In.
  pose proof (find_none _ _ Hnone entry Hin) as Hhas. cbn beta in Hhas.
  by rewrite providerHasModel_normalizeText in Hhas.
Qed.

Lemma matchProviderByModel_normalizeText modelName :
  AgentSettings.matchProviderByModel providerEntries modelsByProvider
    (normalizeText (JStr modelName))
  = AgentSettings.matchProviderByModel providerEntries modelsByProvider modelName.
Proof. unfold AgentSettings.matchProviderByModel. by rewrite normalizeText_idemp. Qed.

Lemma providerHasModel_blank entry modelName :
  normalizeText (JStr modelName) = [] ->
  AgentSettings.providerHasModel modelsByProvider entry modelName = false.
Proof. unfold AgentSettings.providerHasModel. cbv zeta. by intros ->. Qed.


End ThinkingCapability.

(** X24.  resolveThinkingCapability answers unknown exactly when no
    provider of the page lists the model (by name or alias, up to letter
    case and surrounding white space); it answers codex only if some
    provider that lists the model is a Codex provider, and non-codex
    only if some provider that lists the model is not one. *)
Theorem resolveThinkingCapability_listed (providerEntries : list EndpointProviderEntry)
  (modelsByProvider : gmap jsstring ProviderModelsState)
  (state : AgentSettings.State.t) (slotKey : AgentSettings.ModelSlotKey)
  (modelName : jsstring) (preferredProviderId : option jsstring) :
  let capability :=
    AgentSettings.resolveThinkingCapability providerEntries modelsByProvider state slotKey
      modelName preferredProviderId in
  let lists entry := AgentSettings.providerHasModel modelsByProvider entry modelName in
  (capability = AgentSettings.ThinkingCapability.unknown
   <-> forall entry, entry ∈ providerEntries -> lists entry = false)
  /\ (capability = AgentSettings.ThinkingCapability.codex ->
      exists entry,
        entry ∈ providerEntries /\ lists entry = true
        /\ AgentSettings.isCodexProvider (Some entry) = true)
  /\ (capability = AgentSettings.ThinkingCapability.nonCodex ->
      exists entry,
        entry ∈ providerEntries /\ lists entry = true
        /\ AgentSettings.isCodexProvider (Some entry) = false).
Proof.
  intros capability lists.
  assert (Hcases :
    (capability = AgentSettings.ThinkingCapability.unknown
     /\ forall entry, entry ∈ providerEntries -> lists entry = false)
    \/ exists entry,
         entry ∈ providerEntries /\ lists entry = true
         /\ capability = if AgentSettings.isCodexProvider (Some entry)
                         then AgentSettings.ThinkingCapability.codex
                         else AgentSettings.ThinkingCapability.nonCodex).
  { unfold capability, AgentSettings.resolveThinkingCapability. cbv zeta.
    destruct (JsString.isEmpty (normalizeText (JStr modelName))) eqn:Hempty.
    { left. split; [done|]. intros entry _. apply providerHasModel_blank.
      by apply isEmpty_true. }
    apply isEmpty_false in Hempty. rewrite matchProviderByModel_normalizeText.
    assert (HbyModel :
      (AgentSettings.matchProviderByModel providerEntries modelsByProvider modelName = None
       /\ forall entry, entry ∈ providerEntries -> lists entry = false)
      \/ exists entry,
           AgentSettings.matchProviderByModel providerEntries modelsByProvider modelName
           = Some entry
           /\ entry ∈ providerEntries /\ lists entry = true).
    { destruct (AgentSettings.matchProviderByModel _ _ _) as [matched|] eqn:Hmatch.
      - right. exists matched. split; [done|]. by apply matchProviderByModel_Some.
      - left. split; [done|]. by apply matchProviderByModel_None. }
    destruct (AgentSettings.selectedProvider _ _ _ _) as [selected|] eqn:Hselected.
    - rewrite providerHasModel_normalizeText.
      destruct (AgentSettings.providerHasModel modelsByProvider selected modelName)
        eqn:Hhas.
      + right. exists selected. split; [|done].
        unfold AgentSettings.selectedProvider in Hselected. cbv zeta in Hselected.
        destruct (JsString.isEmpty _); [done|].
        by apply providerById_lookup in Hselected as [? _].
      + destruct HbyModel as [[-> Hnone]|(entry & -> & Hin & Hhas')]; [by left|].
        right. by exists entry.
    - destruct HbyModel as [[-> Hnone]|(entry & -> & Hin & Hhas')]; [by left|].
      right. by exists entry. }
  split; [|split].
  - split.
    + intros Hunknown. destruct Hcases as [[_ ?]|(entry & _ & _ & Hcap)]; [done|].
      rewrite Hunknown in Hcap. by destruct (AgentSettings.isCodexProvider _).
    + intros Hnone. destruct Hcases as [[? _]|(entry & Hin & Hhas & _)]; [done|].
      by rewrite (Hnone entry Hin) in Hhas.
  - intros Hcap. destruct Hcases as [[Hunknown _]|(entry & Hin & Hhas & Hentry)].
    { by rewrite Hcap in Hunknown. }
    exists entry. split; [done|]. split; [done|].
    rewrite Hcap in Hentry. by destruct (AgentSettings.isCodexProvider _).
  - intros Hcap. destruct Hcases as [[Hunknown _]|(entry & Hin & Hhas & Hentry)].
    { by rewrite Hcap in Hunknown. }
    exists entry. split; [done|]. split; [done|].
    rewrite Hcap in Hentry. by destruct (AgentSettings.isCodexProvider _).
Qed.


(** ** Search and sections *)

Lemma startsWith_true s needle :
  JsText.startsWith s needle = true <-> exists rest, s = needle ++ rest.
Proof.
  revert s. induction needle as [|c needle IH]; intros [|d s]; cbn [JsText.startsWith].
  - split; [intros _; by exists []|done].
  - split; [intros _; by exists (d :: s)|done].
  - split; [done|by intros [? ?]].
  - rewrite andb_true_iff, Ascii.eqb_eq, IH. split.
    + intros [-> [rest ->]]. by exists rest.
    + intros [rest [= -> ->]]. split; [done|by exists rest].
Qed.

Lemma includes_true s needle :
  JsText.includes s needle = true <-> exists before rest, s = before ++ needle ++ rest.
Proof.
  induction s as [|d s IH]; cbn [JsText.includes].
  - rewrite orb_false_r, startsWith_true. split.
    + intros [rest Heq]. by exists [], rest.
    + intros (before & rest & Heq). destruct before; [by exists rest|done].
  - rewrite orb_true_iff, startsWith_true, IH. split.
    + intros [[rest Heq]|(before & rest & ->)]; [by exists [], rest|].
      by exists (d :: before), rest.
    + intros ([|c before] & rest & Heq); [left; by exists rest|].
      right. injection Heq as -> ->. by exists before, rest.
Qed.

Lemma includes_toLowerCase text keyword :
  JsText.includes (JsString.toLowerCase text) (JsString.toLowerCase keyword) = true
  <-> mentions text keyword.
Proof.
  rewrite includes_true. split.
  - intros (before & rest & Heq).
    apply toLowerCase_app_inv in Heq as (b & r & -> & <- & Heq).
    apply toLowerCase_app_inv in Heq as (f & r' & -> & Hf & <-).
    by exists b, f, r'.
  - intros (before & found & rest & -> & Hsame).
    exists (JsString.toLowerCase before), (JsString.toLowerCase rest).
    unfold sameUpToCase in Hsame. by rewrite !toLowerCase_app, Hsame.
Qed.


Lemma List_filter_elem_of {A} (f : A -> bool) (l : list A) x :
  x ∈ List.filter f l <-> x ∈ l /\ f x = true.
Proof. by rewrite !list_elem_of_In, filter_In. Qed.

(** X26.  filteredProviders returns all providers for a blank search
    text; otherwise it returns, in their order, exactly the providers
    whose name or provider key, or one of whose known model names or
    trimmed aliases, contains the trimmed search text in any letter
    case; and the result depends on the search text only up to letter
    case and surrounding white space. *)
Theorem filteredProviders_search (search : jsstring)
  (providerEntries : list EndpointProviderEntry)
  (modelsByProvider : gmap jsstring ProviderModelsState) :
  let found := filteredProviders search providerEntries modelsByProvider in
  let keyword := JsString.trim search in
  (keyword = [] -> found = providerEntries)
  /\ found `sublist_of` providerEntries
  /\ (keyword <> [] ->
      forall entry,
        entry ∈ found
        <-> entry ∈ providerEntries
            /\ (mentions (Entry.name entry) keyword
                \/ mentions (Entry.providerKey entry) keyword
                \/ exists model,
                     model ∈ previousModels modelsByProvider (Entry.id entry)
                     /\ (mentions (ModelInfo.name model) keyword
                         \/ mentions (JsString.trim (default [] (ModelInfo.alias model)))
                              keyword)))
  /\ (forall search',
        sameUpToCase (JsString.trim search') keyword ->
        filteredProviders search' providerEntries modelsByProvider = found).
Proof.
  intros found keyword. unfold found, filteredProviders. fold keyword.
  split; [by intros ->|]. split; [|split].
  - destruct (JsString.isEmpty keyword); [done|]. apply List_filter_sublist.
  - intros Hne entry. rewrite (proj2 (isEmpty_false _) Hne). cbv zeta.
    rewrite List_filter_elem_of, !orb_true_iff, !includes_toLowerCase.
    rewrite existsb_exists.
    assert (Hmodels :
      (exists model,
         In model (previousModels modelsByProvider (Entry.id entry))
         /\ JsText.includes (JsString.toLowerCase (ModelInfo.name model))
              (JsString.toLowerCase keyword)
            || JsText.includes
                 (JsString.toLowerCase (normalizeText (Js.ofOpt (ModelInfo.alias model))))
                 (JsString.toLowerCase keyword) = true)
      <-> exists model,
            model ∈ previousModels modelsByProvider (Entry.id entry)
            /\ (mentions (ModelInfo.name model) keyword
                \/ mentions (JsString.trim (default [] (ModelInfo.alias model))) keyword)).
    { split; intros (model & Hin & Hmodel); exists model;
        rewrite orb_true_iff, !includes_toLowerCase, normalizeText_ofOpt in *;
        by rewrite list_elem_of_In in *. }
    rewrite Hmodels. tauto.
  - intros search' Hsame. unfold sameUpToCase in Hsame.
    destruct (JsString.isEmpty keyword) eqn:Hempty.
    + apply isEmpty_true in Hempty. rewrite Hempty in Hsame.
      apply (proj1 (toLowerCase_nil _)) in Hsame. by rewrite Hsame.
    + assert (JsString.isEmpty (JsString.trim search') = false) as ->.
      { apply isEmpty_false. intros Hnil. rewrite Hnil in Hsame. symmetry in Hsame.
        apply (proj1 (toLowerCase_nil _)) in Hsame. by rewrite Hsame in Hempty. }
      cbv zeta. by rewrite Hsame.
Qed.


Lemma uniqueModels_each_pushUnseen acc model :
  AgentSettings.uniqueModels_each acc model = pushUnseen uniqueItem acc model.
Proof.
  destruct acc as [seen kept]. unfold AgentSettings.uniqueModels_each, pushUnseen, uniqueItem.
  rewrite normalizeText_JStr. fold (modelKey model). cbn [fst snd].
  destruct (decide (modelKey model = [])) as [->|Hne]; [done|].
  rewrite (proj2 (isEmpty_false _) Hne). cbn [orb].
  destruct (decide (modelKey model ∈ seen)).
  - by rewrite bool_decide_eq_true_2.
  - by rewrite bool_decide_eq_false_2.
Qed.

Lemma omap_uniqueItem (models : list ModelInfo) :
  omap uniqueItem models
  = (fun m => (modelKey m, m)) <$> filter (fun m => modelKey m <> []) models.
Proof.
  induction models as [|m models IH]; [done|].
  rewrite filter_cons. csimpl. unfold uniqueItem at 1.
  destruct (decide (modelKey m = [])) as [He|Hne].
  - by rewrite decide_False by (intros Hn; by apply Hn).
  - rewrite decide_True by done. csimpl. by rewrite IH.
Qed.

Lemma uniqueModels_firstBy (models : list ModelInfo) :
  AgentSettings.uniqueModels models
  = firstBy modelKey (filter (fun m => modelKey m <> []) models).
Proof.
  unfold AgentSettings.uniqueModels.
  rewrite (foldl_pointwise _ (pushUnseen uniqueItem))
    by apply uniqueModels_each_pushUnseen.
  rewrite foldl_pushUnseen_all, omap_uniqueItem, firstBy_fmap.
  rewrite <- list_fmap_compose. apply list_fmap_id.
Qed.

(** X28.  uniqueModels keeps models of the active provider in their
    order so that no two of them share a name up to letter case and
    surrounding white space, and a name is represented exactly when it
    is not blank and occurs in the list; on a list that dedupeModels
    made it changes nothing; filteredModels shows all of these models
    for an empty search text and some of them, in order, for any other. *)
Theorem uniqueModels_distinct (activeModels : list ModelInfo) :
  let shown := AgentSettings.uniqueModels activeModels in
  shown `sublist_of` activeModels
  /\ NoDup (modelKey <$> shown)
  /\ (forall key : jsstring,
        key ∈ modelKey <$> shown <-> key <> [] /\ key ∈ modelKey <$> activeModels)
  /\ AgentSettings.uniqueModels (dedupeModels activeModels) = dedupeModels activeModels
  /\ AgentSettings.filteredModels activeModels "" = shown
  /\ (forall modelSearch,
        AgentSettings.filteredModels activeModels modelSearch `sublist_of` shown).
Proof.
  intros shown. unfold shown. rewrite !uniqueModels_firstBy.
  split; [|split; [|split; [|split; [|split]]]].
  - etrans; [apply firstBy_sublist|apply sublist_filter].
  - apply firstBy_NoDup.
  - intros key. rewrite elem_of_firstBy_keys, !list_elem_of_fmap. split.
    + intros (m & -> & [Hne Hin]%list_elem_of_filter). split; [done|by exists m].
    + intros (Hne & m & -> & Hin). exists m. split; [done|].
      by apply list_elem_of_filter.
  - destruct (dedupeModels_deduplicated activeModels) as [Hall Hnodup].
    rewrite filter_all by (eapply Forall_impl; [exact Hall|]; by intros m [_ ?]).
    by apply firstBy_id.
  - unfold AgentSettings.filteredModels. rewrite uniqueModels_firstBy.
    apply List_filter_all, Forall_forall. by intros model _.
  - intros modelSearch. unfold AgentSettings.filteredModels. rewrite uniqueModels_firstBy.
    apply List_filter_sublist.
Qed.

(** ** Settings file permission *)

(** X29.  ensureHandlePermission makes at most one query and then at
    most one request, both for the given mode: it queries whenever the
    handle has queryPermission, and it requests exactly when prompting
    is allowed, the handle has requestPermission and the query neither
    answered granted nor threw. It answers true exactly when the handle
    has neither method, when the query answers granted, or when the
    request is made and answers granted; a call that throws gives false. *)
Theorem ensureHandlePermission_asks (handle : FileSystemAccess.Handle.t)
  (mode : FileSystemAccess.PermissionMode.t) (prompt : bool) :
  let answer := (FileSystemAccess.ensureHandlePermission handle mode prompt).1 in
  let calls := (FileSystemAccess.ensureHandlePermission handle mode prompt).2 in
  let queryPermission := FileSystemAccess.Handle.queryPermission handle in
  let requestPermission := FileSystemAccess.Handle.requestPermission handle in
  calls `sublist_of` [FileSystemAccess.Query mode; FileSystemAccess.Request mode]
  /\ (FileSystemAccess.Query mode ∈ calls <-> is_Some queryPermission)
  /\ (FileSystemAccess.Request mode ∈ calls
      <-> prompt = true /\ is_Some requestPermission
          /\ ~ answersGranted queryPermission mode
          /\ ~ answersThrow queryPermission mode)
  /\ (answer = true
      <-> (queryPermission = None /\ requestPermission = None)
          \/ answersGranted queryPermission mode
          \/ (FileSystemAccess.Request mode ∈ calls
              /\ answersGranted requestPermission mode)).
Proof.
  cbv zeta. unfold FileSystemAccess.ensureHandlePermission, answersGranted, answersThrow.
  destruct handle as [[query|] [request|]];
    cbn [FileSystemAccess.Handle.queryPermission FileSystemAccess.Handle.requestPermission].
  all: try (destruct (query mode) as [[]|error] eqn:Hquery).
  all: destruct prompt; cbn [negb].
  all: try (destruct (request mode) as [[]|error'] eqn:Hrequest).
  all: cbn [fst snd app].
  all: split;
    [repeat first [apply sublist_nil | apply sublist_skip | apply sublist_cons]|].
  all: set_unfold.
  all: repeat split; intros;
    repeat match goal with
           | H : _ /\ _ |- _ => destruct H
           | H : _ \/ _ |- _ => destruct H
           | H : ex _ |- _ => destruct H
           | H : is_Some _ |- _ => destruct H
           end; simplify_eq; try done.
  all: try (by eexists).
  all: try (by left).
  all: try (by right; left; eexists).
  all: try (by right; right; split; [|eexists]; auto).
  all: try (intros (? & ? & ?); simplify_eq; congruence).
  all: try (intros (? & ? & ? & ?); simplify_eq; congruence).
  all: try congruence.
  all: try (exfalso; match goal with
                     | H : ~ _ |- _ => solve [apply H; repeat eexists; eassumption]
                     end).
Qed.

(** ** Agent settings API *)

(** X30.  agentSettingsApi.read and agentSettingsApi.write first request
    /manage/agent/claude-settings and go on to /manage/local-file
    exactly when that request fails with status 404; they succeed
    exactly when the first request succeeds, or the fallback is taken
    and succeeds; and whenever they fail, the error they throw is the
    error of the first request. *)
Theorem agentSettingsApi_fallback (status : Thrown -> JsVal)
  (getClaudeSettings getLocalFile : Settled AgentSettings.ClaudeSettings)
  (putClaudeSettings putLocalFile : Settled unit) :
  let read := AgentSettingsApi.read status getClaudeSettings getLocalFile in
  let write := AgentSettingsApi.write status putClaudeSettings putLocalFile in
  let notFound (primary : Thrown) := status primary = JNum 404 in
  (forall settings,
     read.1 = Fulfilled settings
     <-> getClaudeSettings = Fulfilled settings
         \/ exists primary,
              getClaudeSettings = Rejected primary /\ notFound primary
              /\ getLocalFile = Fulfilled settings)
  /\ (forall error, read.1 = Rejected error -> getClaudeSettings = Rejected error)
  /\ ("/manage/local-file" ∈ read.2
      <-> exists primary, getClaudeSettings = Rejected primary /\ notFound primary)
  /\ (write.1 = Fulfilled tt
      <-> putClaudeSettings = Fulfilled tt
          \/ exists primary,
               putClaudeSettings = Rejected primary /\ notFound primary
               /\ putLocalFile = Fulfilled tt)
  /\ (forall error, write.1 = Rejected error -> putClaudeSettings = Rejected error)
  /\ ("/manage/local-file" ∈ write.2
      <-> exists primary, putClaudeSettings = Rejected primary /\ notFound primary)
  /\ head read.2 = Some "/manage/agent/claude-settings"
  /\ head write.2 = Some "/manage/agent/claude-settings".
Proof.
  cbv zeta. unfold AgentSettingsApi.read, AgentSettingsApi.write.
  assert (Hfound : forall primary,
            AgentSettingsApi.isNotFound (status primary) = true
            <-> status primary = JNum 404).
  { intros primary. unfold AgentSettingsApi.isNotFound.
    destruct (status primary) as [| |?|code|?|?|?]; try done.
    rewrite Z.eqb_eq. split; [by intros ->|by intros [= ->]]. }
  assert (Hother : forall primary,
            AgentSettingsApi.isNotFound (status primary) = false ->
            status primary <> JNum 404).
  { intros primary Hfalse Hcode%Hfound. congruence. }
  assert (Hpath : ("/manage/local-file" : jsstring)
                  ∉ [("/manage/agent/claude-settings" : jsstring)]).
  { by intros [[=]|?%elem_of_nil]%elem_of_cons. }
  assert (Hlisted : ("/manage/local-file" : jsstring)
                    ∈ [("/manage/agent/claude-settings" : jsstring);
                       ("/manage/local-file" : jsstring)]).
  { apply list_elem_of_further, list_elem_of_here. }
  split; [|split; [|split; [|split; [|split; [|split; [|split]]]]]].
  - intros settings. destruct getClaudeSettings as [loaded|primary].
    + cbn [fst]. split; [intros [= <-]; by left|]. by intros [[= <-]|(? & [=] & _)].
    + destruct (AgentSettingsApi.isNotFound (status primary)) eqn:Hstatus.
      * apply Hfound in Hstatus. destruct getLocalFile as [loaded|secondary]; cbn [fst].
        -- split; [intros [= <-]; right; by exists primary|].
           by intros [[=]|(? & _ & _ & [= <-])].
        -- split; [done|]. by intros [[=]|(? & _ & _ & [=])].
      * cbn [fst]. split; [done|]. intros [[=]|(? & [= <-] & Hcode & _)].
        by apply Hother in Hstatus.
  - intros error. destruct getClaudeSettings as [loaded|primary]; [done|].
    destruct (AgentSettingsApi.isNotFound (status primary));
      [destruct getLocalFile|]; cbn [fst]; by intros [= <-].
  - destruct getClaudeSettings as [loaded|primary].
    { cbn [snd]. split; [done|]. by intros (? & [=] & _). }
    destruct (AgentSettingsApi.isNotFound (status primary)) eqn:Hstatus.
    + apply Hfound in Hstatus. destruct getLocalFile; cbn [snd];
        (split; [intros _; by exists primary|done]).
    + cbn [snd]. split; [done|]. intros (? & [= <-] & Hcode).
      by apply Hother in Hstatus.
  - destruct putClaudeSettings as [[]|primary].
    + cbn [fst]. split; [by left|done].
    + destruct (AgentSettingsApi.isNotFound (status primary)) eqn:Hstatus.
      * apply Hfound in Hstatus. destruct putLocalFile as [[]|secondary]; cbn [fst].
        -- split; [right; by exists primary|done].
        -- split; [done|]. by intros [[=]|(? & _ & _ & [=])].
      * cbn [fst]. split; [done|]. intros [[=]|(? & [= <-] & Hcode & _)].
        by apply Hother in Hstatus.
  - intros error. destruct putClaudeSettings as [[]|primary]; [done|].
    destruct (AgentSettingsApi.isNotFound (status primary));
      [destruct putLocalFile|]; cbn [fst]; by intros [= <-].
  - destruct putClaudeSettings as [[]|primary].
    { cbn [snd]. split; [done|]. by intros (? & [=] & _). }
    destruct (AgentSettingsApi.isNotFound (status primary)) eqn:Hstatus.
    + apply Hfound in Hstatus. destruct putLocalFile; cbn [snd];
        (split; [intros _; by exists primary|done]).
    + cbn [snd]. split; [done|]. intros (? & [= <-] & Hcode).
      by apply Hother in Hstatus.
  - destruct getClaudeSettings as [loaded|primary]; [done|].
    by destruct (AgentSettingsApi.isNotFound (status primary)); [destruct getLocalFile|].
  - destruct putClaudeSettings as [[]|primary]; [done|].
    by destruct (AgentSettingsApi.isNotFound (status primary)); [destruct putLocalFile|].
Qed.
